(** * mini-SOAR: the normalizer, the rule engines, the expression
      evaluator and the playbook artifact generator, embedded in Rocq.

    The JavaScript sources are embedded shallowly, function by function,
    under the names they have in the repository:

    - [normalizeSplunkAlert]                      src/lib/normalize.js
    - [EngineB.evaluateRules] (dialect if/then)   src/lib/rulesEngine.js
    - [EngineA.evaluateRules] (dialect conditions.all/any, with
      [EngineA.evaluateCondition]), the later version of the same file
    - [evaluateExpressionUnified], [generateInstanceYaml], [convertToYaml],
      [generateTemplateYaml]                      src/pages/PlaybookBuilder.tsx
    - [GenerateYamlTs.generateYamlSteps]              src/utils/generateYaml.ts
    - [toggleAction], [updateActionInput], [isActionSelected],
      [getActionInstance], [handleDryRun]         src/pages/PlaybookBuilder.tsx
    - [handleSubmitJson]                          the playbook page

    Modelling conventions.  JSON-like data is the inductive [jsval];
    an object is the association list of its own properties in key
    enumeration order, so names inherited from a prototype ([constructor],
    [toString], ...) are not represented.  A thrown exception is the
    [Throw] outcome.  Numbers are the integer-valued ones ([Z]); a parsed
    decimal literal is an exact rational.  Text is a sequence of 8-bit
    characters, which coincides with the JavaScript string on ASCII text.
    Regular expressions are run by a backtracking matcher ([Regex.rmatch]).
    The call [Function(...)()] of the evaluator is a parameter [jsEval]. *)

From Stdlib Require Import String Ascii List ZArith QArith Bool Lia.
From Stdlib Require Import DecimalString DecimalPos.
Import ListNotations.
Open Scope string_scope.
Open Scope Z_scope.

(** ** JavaScript values and primitive operations *)

Module JS.

#[warnings="-register-all"] Inductive jsval : Type :=
| JUndefined
| JNull
| JBool (b : bool)
| JNum (n : Z)
| JStr (s : string)
| JArr (xs : list jsval)
| JObj (fields : list (string * jsval)).

(** Completion of a computation: a value, or a thrown exception, kept as
    its [message]. *)
Inductive outcome (A : Type) : Type :=
| Ok (a : A)
| Throw (e : string).

Arguments Ok {A} a.
Arguments Throw {A} e.

Definition bind {A B : Type} (m : outcome A) (f : A -> outcome B) : outcome B :=
  match m with
  | Ok a => f a
  | Throw e => Throw e
  end.

Notation "x <- m ;; k" := (bind m (fun x => k))
  (at level 61, m at next level, right associativity).

Definition isOk {A : Type} (m : outcome A) : bool :=
  match m with Ok _ => true | Throw _ => false end.

(** [Number.prototype.toString] on an integer. *)
Definition numToString (n : Z) : string :=
  NilZero.string_of_int (Z.to_int n).

Fixpoint joinWith (sep : string) (xs : list string) : string :=
  match xs with
  | [] => ""
  | [x] => x
  | x :: rest => x ++ sep ++ joinWith sep rest
  end.

(** [String(v)]: arrays join their elements with a comma, [null] and
    [undefined] elements print as the empty string. *)
Fixpoint toStringJS (v : jsval) : string :=
  match v with
  | JUndefined => "undefined"
  | JNull => "null"
  | JBool true => "true"
  | JBool false => "false"
  | JNum n => numToString n
  | JStr s => s
  | JArr xs =>
      joinWith ","
        (map (fun x => match x with
                       | JUndefined | JNull => ""
                       | _ => toStringJS x
                       end) xs)
  | JObj _ => "[object Object]"
  end.

(** Truthiness ([ToBoolean]). *)
Definition truthy (v : jsval) : bool :=
  match v with
  | JUndefined | JNull => false
  | JBool b => b
  | JNum n => negb (n =? 0)
  | JStr s => negb (s =? "")%string
  | JArr _ | JObj _ => true
  end.

(** [a || b] on values already computed. *)
Definition jsOr (a b : jsval) : jsval := if truthy a then a else b.

Fixpoint lookup (k : string) (fs : list (string * jsval)) : option jsval :=
  match fs with
  | [] => None
  | (k', v) :: rest => if (k =? k')%string then Some v else lookup k rest
  end.

Definition isDigit (c : ascii) : bool :=
  let n := nat_of_ascii c in (48 <=? n)%nat && (n <=? 57)%nat.

Definition digitVal (c : ascii) : Z := Z.of_nat (nat_of_ascii c) - 48.

Fixpoint digitsValue (acc : Z) (cs : list ascii) : Z :=
  match cs with
  | [] => acc
  | c :: rest => digitsValue (10 * acc + digitVal c) rest
  end.

Fixpoint takeWhile {A : Type} (p : A -> bool) (xs : list A) : list A :=
  match xs with
  | [] => []
  | x :: rest => if p x then x :: takeWhile p rest else []
  end.

Fixpoint dropWhile {A : Type} (p : A -> bool) (xs : list A) : list A :=
  match xs with
  | [] => []
  | x :: rest => if p x then dropWhile p rest else xs
  end.

Fixpoint isPrefixOf (p s : list ascii) : bool :=
  match p, s with
  | [], _ => true
  | _ :: _, [] => false
  | a :: p', b :: s' => Ascii.eqb a b && isPrefixOf p' s'
  end.

(** [hay.includes(needle)] *)
Fixpoint includesChars (needle hay : list ascii) : bool :=
  match hay with
  | [] => match needle with [] => true | _ => false end
  | _ :: rest => isPrefixOf needle hay || includesChars needle rest
  end.

Definition includes (needle hay : string) : bool :=
  includesChars (list_ascii_of_string needle) (list_ascii_of_string hay).

(** An array index written canonically: ["0"], ["1"], ["12"], ... *)
Definition arrayIndex (k : string) : option nat :=
  let cs := list_ascii_of_string k in
  match cs with
  | [] => None
  | _ =>
      if forallb isDigit cs
      then let n := digitsValue 0 cs in
           if (numToString n =? k)%string then Some (Z.to_nat n) else None
      else None
  end.

(** The [in] operator on an object or an array (own properties). *)
Definition hasProp (v : jsval) (k : string) : bool :=
  match v with
  | JObj fs => match lookup k fs with Some _ => true | None => false end
  | JArr xs =>
      if (k =? "length")%string then true
      else match arrayIndex k with
           | Some i => (i <? length xs)%nat
           | None => false
           end
  | _ => false
  end.

(** Property read [v.k] / [v[k]]: a [TypeError] on [null] and [undefined],
    [undefined] for a property that is not there. *)
Definition getProp (v : jsval) (k : string) : outcome jsval :=
  match v with
  | JUndefined =>
      Throw ("Cannot read properties of undefined (reading '" ++ k ++ "')")
  | JNull =>
      Throw ("Cannot read properties of null (reading '" ++ k ++ "')")
  | JObj fs => Ok match lookup k fs with Some x => x | None => JUndefined end
  | JArr xs =>
      if (k =? "length")%string then Ok (JNum (Z.of_nat (length xs)))
      else Ok match arrayIndex k with
              | Some i => nth i xs JUndefined
              | None => JUndefined
              end
  | _ => Ok JUndefined
  end.

Definition nonNullish (v : jsval) : Prop :=
  v <> JUndefined /\ v <> JNull.

(** Assignment [o.k = x] on an object: an existing key keeps its place. *)
Fixpoint setField (k : string) (x : jsval) (fs : list (string * jsval))
  : list (string * jsval) :=
  match fs with
  | [] => [(k, x)]
  | (k', v) :: rest =>
      if (k =? k')%string then (k', x) :: rest else (k', v) :: setField k x rest
  end.

Definition setProp (o : jsval) (k : string) (x : jsval) : jsval :=
  match o with
  | JObj fs => JObj (setField k x fs)
  | _ => o
  end.

(** Optional chaining [v?.k]. *)
Definition getPropOpt (v : jsval) (k : string) : outcome jsval :=
  match v with
  | JUndefined | JNull => Ok JUndefined
  | _ => getProp v k
  end.

(** [a.k1 || a.k2 || ... || dflt]: the operands are read left to right and
    the first truthy one is the value. *)
Fixpoint firstTruthy (reads : list (outcome jsval)) (dflt : jsval) : outcome jsval :=
  match reads with
  | [] => Ok dflt
  | r :: rest =>
      v <- r ;;
      if truthy v then Ok v else firstTruthy rest dflt
  end.

(** White space and line terminators, as [String.prototype.trim], [\s] and
    [parseInt] skip them (ASCII range). *)
Definition isSpace (c : ascii) : bool :=
  let n := nat_of_ascii c in
  (n =? 32)%nat || ((9 <=? n)%nat && (n <=? 13)%nat).

Definition trimList (cs : list ascii) : list ascii :=
  rev (dropWhile isSpace (rev (dropWhile isSpace cs))).

Definition trim (s : string) : string :=
  string_of_list_ascii (trimList (list_ascii_of_string s)).

(** [s.split(sep)] for a one-character separator. *)
Fixpoint splitOn (sep : ascii) (cur : list ascii) (cs : list ascii) : list string :=
  match cs with
  | [] => [string_of_list_ascii (rev cur)]
  | c :: rest =>
      if Ascii.eqb c sep
      then string_of_list_ascii (rev cur) :: splitOn sep [] rest
      else splitOn sep (c :: cur) rest
  end.

Definition split (sep : ascii) (s : string) : list string :=
  splitOn sep [] (list_ascii_of_string s).

(** The line feed character. *)
Definition LF : ascii := "010"%char.
Definition nl : string := String LF "".

(** [parseInt(v, 10)]: [None] is [NaN]. *)
Definition parseIntChars (cs : list ascii) : option Z :=
  let cs := dropWhile isSpace cs in
  let '(neg, cs) :=
    match cs with
    | "-"%char :: rest => (true, rest)
    | "+"%char :: rest => (false, rest)
    | _ => (false, cs)
    end in
  match takeWhile isDigit cs with
  | [] => None
  | ds => Some (if neg : bool then - digitsValue 0 ds else digitsValue 0 ds)
  end.

Definition parseInt (v : jsval) : option Z :=
  parseIntChars (list_ascii_of_string (toStringJS v)).

(** Strict equality [===]; two objects (or arrays) reached through
    different data are different references. *)
Definition strictEq (a b : jsval) : bool :=
  match a, b with
  | JUndefined, JUndefined => true
  | JNull, JNull => true
  | JBool x, JBool y => Bool.eqb x y
  | JNum x, JNum y => (x =? y)
  | JStr x, JStr y => (x =? y)%string
  | _, _ => false
  end.

End JS.

Import JS.

(** ** Normalizer ([src/lib/normalize.js]) *)

(** The object literal [normalized] of [normalizeSplunkAlert]. *)
Record CanonicalAlert : Type := mkAlert {
  a_type : jsval;
  a_severity : jsval;
  a_machine : jsval;
  a_src_ip : jsval;
  a_user : jsval;
  a_event_count : Z;
  a_timestamp : jsval;
  a_raw : jsval
}.

(** The canonical alert as the object the rule engines read. *)
Definition alertObject (a : CanonicalAlert) : jsval :=
  JObj [ ("type", a_type a);
         ("severity", a_severity a);
         ("machine", a_machine a);
         ("src_ip", a_src_ip a);
         ("user", a_user a);
         ("event_count", JNum (a_event_count a));
         ("timestamp", a_timestamp a);
         ("raw", a_raw a) ].

(** [const data = alertJson.result || alertJson]. *)
Definition unwrapResult (alertJson : jsval) : outcome jsval :=
  r <- getProp alertJson "result" ;;
  Ok (jsOr r alertJson).

(** The operand of [parseInt] on line 17:
    [data.event_count || data.count || data.events || 1]. *)
Definition countOperand (data : jsval) : outcome jsval :=
  firstTruthy [getProp data "event_count"; getProp data "count";
               getProp data "events"] (JNum 1).

(** Line 13: [data.severity || data.priority || data.level || "Medium"]. *)
Definition severityOperand (data : jsval) : outcome jsval :=
  firstTruthy [getProp data "severity"; getProp data "priority";
               getProp data "level"] (JStr "Medium").

(** Lines 17 and 23-25: [parseInt], then 1 when the result is [NaN] or
    negative. *)
Definition eventCountOf (operand : jsval) : Z :=
  match parseInt operand with
  | None => 1
  | Some n => if n <? 0 then 1 else n
  end.

(** Lines 28-30.  [severity] is truthy here (it ends in ["Medium"]), so
    [.trim()] is always called: on a value that is not a string it is not a
    function. *)
Definition finishSeverity (sev : jsval) : outcome jsval :=
  if negb (truthy sev) then Ok (JStr "Medium")
  else match sev with
       | JStr s => if (trim s =? "")%string then Ok (JStr "Medium") else Ok sev
       | _ => Throw "normalized.severity.trim is not a function"
       end.

Definition normalizeSplunkAlert (alertJson : jsval) : outcome CanonicalAlert :=
  data <- unwrapResult alertJson ;;
  type <- firstTruthy [getProp data "type"; getProp data "alert_type";
                       (raw <- getProp data "_raw" ;; getPropOpt raw "type")] JNull ;;
  severity <- severityOperand data ;;
  machine <- firstTruthy [getProp data "machine"; getProp data "hostname";
                          getProp data "host"; getProp data "computer"] JNull ;;
  src_ip <- firstTruthy [getProp data "src_ip"; getProp data "source_ip";
                         getProp data "src"; getProp data "source";
                         getProp data "ip"] JNull ;;
  user <- firstTruthy [getProp data "user"; getProp data "username";
                       getProp data "account"] JNull ;;
  operand <- countOperand data ;;
  timestamp <- firstTruthy [getProp data "timestamp"; getProp data "_time";
                            getProp data "time"; getProp data "event_time"] JNull ;;
  severity' <- finishSeverity severity ;;
  Ok {| a_type := type;
        a_severity := severity';
        a_machine := machine;
        a_src_ip := src_ip;
        a_user := user;
        a_event_count := eventCountOf operand;
        a_timestamp := timestamp;
        a_raw := alertJson |}.

(** ** Numeric coercions used by the rule engines

    A parsed decimal literal is an exact rational; [None] is [NaN].  The
    literal [Infinity] is not represented. *)

Definition pow10 (k : nat) : Z := 10 ^ Z.of_nat k.

(** [m * 10^e / 10^f] as a rational. *)
Definition scaled (m : Z) (e : Z) (f : nat) : Q :=
  let k := e - Z.of_nat f in
  if 0 <=? k then Qmake (m * 10 ^ k) 1
  else Qmake m (Z.to_pos (10 ^ (- k))).

(** Longest prefix of [cs] that is a [StrUnsignedDecimalLiteral] (digits,
    optional fraction, optional exponent), with the rest of the text. *)
Definition parseDecimal (cs : list ascii) : option (Q * list ascii) :=
  let intd := takeWhile isDigit cs in
  let r1 := dropWhile isDigit cs in
  let '(fracd, r2) :=
    match r1 with
    | "."%char :: r => (takeWhile isDigit r, dropWhile isDigit r)
    | _ => ([], r1)
    end in
  match intd, fracd with
  | [], [] => None
  | _, _ =>
      let m := digitsValue 0 (intd ++ fracd)%list in
      let f := length fracd in
      let noExp := Some (scaled m 0 f, r2) in
      match r2 with
      | c :: r3 =>
          if (nat_of_ascii c =? 101)%nat || (nat_of_ascii c =? 69)%nat then
            let '(eneg, r4) :=
              match r3 with
              | "-"%char :: r => (true, r)
              | "+"%char :: r => (false, r)
              | _ => (false, r3)
              end in
            match takeWhile isDigit r4 with
            | [] => noExp
            | ed =>
                let e := digitsValue 0 ed in
                Some (scaled m (if eneg : bool then - e else e) f,
                      dropWhile isDigit r4)
            end
          else noExp
      | [] => noExp
      end
  end.

Definition parseSigned (cs : list ascii) : option (Q * list ascii) :=
  match cs with
  | "-"%char :: r =>
      match parseDecimal r with
      | Some (q, rest) => Some (Qopp q, rest)
      | None => None
      end
  | "+"%char :: r => parseDecimal r
  | _ => parseDecimal cs
  end.

(** [parseFloat(v)]. *)
Definition parseFloat (v : jsval) : option Q :=
  match parseSigned (dropWhile isSpace (list_ascii_of_string (toStringJS v))) with
  | Some (q, _) => Some q
  | None => None
  end.

(** [ToNumber] on a string: the whole trimmed text is a literal; the empty
    text is 0. *)
Definition stringToNumber (s : string) : option Q :=
  match trimList (list_ascii_of_string s) with
  | [] => Some (Qmake 0 1)
  | cs => match parseSigned cs with
          | Some (q, []) => Some q
          | _ => None
          end
  end.

Definition toNumber (v : jsval) : option Q :=
  match v with
  | JUndefined => None
  | JNull => Some (Qmake 0 1)
  | JBool b => Some (Qmake (if b then 1 else 0) 1)
  | JNum n => Some (Qmake n 1)
  | JStr s => stringToNumber s
  | JArr _ | JObj _ => stringToNumber (toStringJS v)
  end.

(** [ToPrimitive] of an operand of a relational operator, as text when it
    is one. *)
Definition primitiveText (v : jsval) : option string :=
  match v with
  | JStr s => Some s
  | JArr _ | JObj _ => Some (toStringJS v)
  | _ => None
  end.

(** [a < b]: [None] is the undefined result of a comparison with [NaN]. *)
Definition jsLess (a b : jsval) : option bool :=
  match primitiveText a, primitiveText b with
  | Some x, Some y => Some (String.ltb x y)
  | _, _ =>
      match toNumber a, toNumber b with
      | Some x, Some y => Some (negb (Qle_bool y x))
      | _, _ => None
      end
  end.

(** [a <= b] is [b < a] being false (and not undefined). *)
Definition jsLessEq (a b : jsval) : bool :=
  match jsLess b a with
  | Some false => true
  | _ => false
  end.

Definition isArray (v : jsval) : bool :=
  match v with JArr _ => true | _ => false end.

Definition isUndefined (v : jsval) : bool :=
  match v with JUndefined => true | _ => false end.

Definition isObjectType (v : jsval) : bool :=
  match v with JArr _ | JObj _ | JNull => true | _ => false end.

(** [Object.keys(v)[0]]. *)
Definition firstKey (v : jsval) : outcome jsval :=
  match v with
  | JUndefined | JNull =>
      Throw "Cannot convert undefined or null to object"
  | JObj ((k, _) :: _) => Ok (JStr k)
  | JArr (_ :: _) => Ok (JStr "0")
  | JStr s => if (s =? "")%string then Ok JUndefined else Ok (JStr "0")
  | _ => Ok JUndefined
  end.

(** Result of a rule engine run. *)
Record EngineResult : Type := mkResult {
  logs : list string;
  matches : list jsval
}.

(** [for (const x of xs)] with an accumulator, stopping at an exception. *)
Fixpoint forEach {A S : Type} (f : S -> A -> outcome S) (xs : list A) (s : S)
  : outcome S :=
  match xs with
  | [] => Ok s
  | x :: rest => s' <- f s x ;; forEach f rest s'
  end.

Definition noRuleMatched : string := "ℹ️ No rule matched.".

Definition matchedLine (name : jsval) : string :=
  "📘 Matched rule: " ++ toStringJS name.

Definition actionLine (actionName paramValue : jsval) : string :=
  if truthy paramValue
  then "🔥 Action executed: " ++ toStringJS actionName
         ++ " (" ++ toStringJS paramValue ++ ")"
  else "🔥 Action executed: " ++ toStringJS actionName.

(** [normalized[key] || normalized.dflt]. *)
Definition fieldOr (normalized key : jsval) (dflt : string) : outcome jsval :=
  v <- getProp normalized (toStringJS key) ;;
  if truthy v then Ok v else getProp normalized dflt.

Definition isolateName (actionName : jsval) : bool :=
  strictEq actionName (JStr "edr_isolate_host")
  || strictEq actionName (JStr "isolate_host").

(** The value logged with an action: the alert field named by the action's
    parameter, for the firewall action [fwName] (parameter [fwField]) and
    for the two host isolation actions (parameter [host_field]). *)
Definition resolveParam (normalized actionName params : jsval)
    (fwName fwField : string) : outcome jsval :=
  useIp <- (if strictEq actionName (JStr fwName)
            then ip <- getProp params fwField ;; Ok (truthy ip)
            else Ok false) ;;
  if useIp : bool
  then ip <- getProp params fwField ;; fieldOr normalized ip "src_ip"
  else
    useHost <- (if isolateName actionName
                then hf <- getProp params "host_field" ;; Ok (truthy hf)
                else Ok false) ;;
    if useHost : bool
    then hf <- getProp params "host_field" ;; fieldOr normalized hf "machine"
    else Ok JNull.

(** The legacy single-key shape: [{ <actionName>: { params } }]. *)
Definition legacyAction (actionStep : jsval) : outcome (jsval * jsval) :=
  actionName <- firstKey actionStep ;;
  inner <- getProp actionStep (toStringJS actionName) ;;
  p <- getPropOpt inner "params" ;;
  Ok (actionName, jsOr p (JObj [])).

(** The body of the loop over the rules, the same in both engines: a
    matched rule is pushed on [matches] and its lines on [logs]. *)
Definition matchLoopBody (ruleMatched : jsval -> outcome bool)
    (ruleLines : jsval -> outcome (list string))
    (acc : EngineResult) (rule : jsval) : outcome EngineResult :=
  matched <- ruleMatched rule ;;
  if matched : bool
  then ls <- ruleLines rule ;;
       Ok {| logs := (logs acc ++ ls)%list;
             matches := (matches acc ++ [rule])%list |}
  else Ok acc.

(** The end of [evaluateRules]: the informational line when nothing
    matched. *)
Definition finishRun (r : EngineResult) : EngineResult :=
  match matches r with
  | [] => {| logs := (logs r ++ [noRuleMatched])%list; matches := [] |}
  | _ => r
  end.

(** ** Dialect A engine: [conditions.all] / [conditions.any]
       ([src/unnamed/part_000]) *)

Module EngineA.

(** The walk along [field.replace('alert.', '').split('.')]. *)
Fixpoint walk (parts : list string) (v : jsval) : jsval :=
  match parts with
  | [] => v
  | part :: rest =>
      if truthy v && isObjectType v && hasProp v part
      then match getProp v part with
           | Ok v' => walk rest v'
           | Throw _ => JUndefined
           end
      else JUndefined
  end.

Definition numericOp (cmp : Q -> Q -> bool) (a b : jsval) : bool :=
  match parseFloat a, parseFloat b with
  | Some x, Some y => cmp x y
  | _, _ => false
  end.

Definition evaluateCondition (condition normalized : jsval) : outcome bool :=
  f <- getProp condition "field" ;;
  let field := jsOr f (JStr "") in
  o <- getProp condition "operator" ;;
  let operator := jsOr o (JStr "") in
  value <- getProp condition "value" ;;
  alertValue <-
    match field with
    | JStr fs =>
        if String.prefix "alert." fs
        then Ok (walk (split "."%char (String.substring 6 (String.length fs - 6) fs))
                      normalized)
        else getProp normalized fs
    | _ => Throw "field.startsWith is not a function"
    end ;;
  match operator with
  | JStr "equals" => Ok (strictEq alertValue value)
  | JStr "greater_than" =>
      Ok (numericOp (fun x y => negb (Qle_bool x y)) alertValue value)
  | JStr "less_than" =>
      Ok (numericOp (fun x y => negb (Qle_bool y x)) alertValue value)
  | JStr "greater_than_or_equal" =>
      Ok (numericOp (fun x y => Qle_bool y x) alertValue value)
  | JStr "less_than_or_equal" =>
      Ok (numericOp (fun x y => Qle_bool x y) alertValue value)
  | JStr "contains" =>
      match alertValue, value with
      | JStr a, JStr b =>
          Ok (includes b a)
      | _, _ => Ok false
      end
  | JStr "not_equals" => Ok (negb (strictEq alertValue value))
  | _ => Ok false
  end.

(** The [all] loop: true until a condition fails. *)
Fixpoint allHold (cs : list jsval) (normalized : jsval) : outcome bool :=
  match cs with
  | [] => Ok true
  | c :: rest =>
      b <- evaluateCondition c normalized ;;
      if b then allHold rest normalized else Ok false
  end.

(** The [any] loop: false until a condition holds. *)
Fixpoint anyHolds (cs : list jsval) (normalized : jsval) : outcome bool :=
  match cs with
  | [] => Ok false
  | c :: rest =>
      b <- evaluateCondition c normalized ;;
      if b then Ok true else anyHolds rest normalized
  end.

(** Lines 14-36: the value of [matched] for one rule. *)
Definition ruleMatched (normalized rule : jsval) : outcome bool :=
  c <- getProp rule "conditions" ;;
  let conditions := jsOr c (JObj []) in
  all <- getProp conditions "all" ;;
  match all with
  | JArr cs => allHold cs normalized
  | _ =>
      any <- getProp conditions "any" ;;
      match any with
      | JArr cs => anyHolds cs normalized
      | _ => Ok false
      end
  end.

(** Lines 46-75: the log line of one action step. *)
Definition logAction (normalized actionStep : jsval) : outcome string :=
  np <- match actionStep with
        | JStr _ => Ok (actionStep, JObj [])
        | _ =>
            a <- getProp actionStep "action" ;;
            if truthy a
            then p <- getProp actionStep "params" ;; Ok (a, jsOr p (JObj []))
            else legacyAction actionStep
        end ;;
  let '(actionName, params) := np in
  paramValue <- resolveParam normalized actionName params
                  "firewall.block_ip" "ip" ;;
  Ok (actionLine actionName paramValue).

Definition logActions (normalized actions : jsval) : outcome (list string) :=
  match actions with
  | JArr steps =>
      forEach (fun acc step => l <- logAction normalized step ;; Ok (acc ++ [l])%list)
              steps []
  | _ => Ok []
  end.

(** Lines 40-77: the log lines of a matched rule. *)
Definition ruleLines (normalized rule : jsval) : outcome (list string) :=
  name <- getProp rule "name" ;;
  actions <- getProp rule "actions" ;;
  ls <- logActions normalized actions ;;
  Ok (matchedLine name :: ls).

(** The body of the loop over the rules. *)
Definition stepRule (normalized : jsval) (acc : EngineResult) (rule : jsval)
  : outcome EngineResult :=
  matchLoopBody (ruleMatched normalized) (ruleLines normalized) acc rule.

Definition evaluateRules (normalized : jsval) (rules : list jsval)
  : outcome EngineResult :=
  r <- forEach (stepRule normalized) rules {| logs := []; matches := [] |} ;;
  Ok (finishRun r).

End EngineA.

(** ** Dialect B engine: [if] / [then] ([src/lib/rulesEngine.js]) *)

Module EngineB.

(** [c.k1 !== undefined ? c.k1 : c.k2]. *)
Definition eitherKey (conditions : jsval) (k1 k2 : string) : outcome jsval :=
  v1 <- getProp conditions k1 ;;
  if negb (isUndefined v1) then Ok v1 else getProp conditions k2.

(** Lines 13-42: the value of [matched] for one rule. *)
Definition ruleMatched (normalized rule : jsval) : outcome bool :=
  c <- getProp rule "if" ;;
  let conditions := jsOr c (JObj []) in
  ctype <- getProp conditions "type" ;;
  matched1 <- (if negb (isUndefined ctype)
               then ntype <- getProp normalized "type" ;;
                    Ok (strictEq ntype ctype)
               else Ok true) ;;
  matched2 <- (if matched1 : bool
               then sev <- eitherKey conditions "severity_equals" "severity" ;;
                    if negb (isUndefined sev)
                    then nsev <- getProp normalized "severity" ;;
                         Ok (strictEq nsev sev)
                    else Ok true
               else Ok false) ;;
  if matched2 : bool
  then threshold <- eitherKey conditions "event_count_greater_than"
                                         "count_greater_than" ;;
       if negb (isUndefined threshold)
       then ncount <- getProp normalized "event_count" ;;
            Ok (negb (jsLessEq (jsOr ncount (JNum 0)) threshold))
       else Ok true
  else Ok false.

(** Lines 54-81: the log line of one action step. *)
Definition logAction (normalized actionStep : jsval) : outcome string :=
  a <- getProp actionStep "action" ;;
  np <- (if truthy a
         then p <- getProp actionStep "params" ;; Ok (a, jsOr p (JObj []))
         else legacyAction actionStep) ;;
  let '(actionName, params) := np in
  paramValue <- resolveParam normalized actionName params
                  "firewall_block_ip" "ip_field" ;;
  Ok (actionLine actionName paramValue).

Definition logActions (normalized actions : jsval) : outcome (list string) :=
  match actions with
  | JArr steps =>
      forEach (fun acc step => l <- logAction normalized step ;; Ok (acc ++ [l])%list)
              steps []
  | _ => Ok []
  end.

(** Lines 45-83: the log lines of a matched rule. *)
Definition ruleLines (normalized rule : jsval) : outcome (list string) :=
  name <- getProp rule "name" ;;
  actions <- getProp rule "then" ;;
  ls <- logActions normalized actions ;;
  Ok (matchedLine name :: ls).

(** The body of the loop over the rules. *)
Definition stepRule (normalized : jsval) (acc : EngineResult) (rule : jsval)
  : outcome EngineResult :=
  matchLoopBody (ruleMatched normalized) (ruleLines normalized) acc rule.

Definition evaluateRules (normalized : jsval) (rules : list jsval)
  : outcome EngineResult :=
  r <- forEach (stepRule normalized) rules {| logs := []; matches := [] |} ;;
  Ok (finishRun r).

End EngineB.

(** ** The two dialects in one array *)

Definition okTrue (m : outcome bool) : bool :=
  match m with Ok true => true | _ => false end.





(** Sample data. *)
Definition malwareAlert : CanonicalAlert :=
  {| a_type := JStr "Malware"; a_severity := JStr "High";
     a_machine := JStr "PC-02"; a_src_ip := JStr "192.168.1.100";
     a_user := JStr "system"; a_event_count := 1;
     a_timestamp := JStr "2024-01-15T14:22:00Z"; a_raw := JObj [] |}.

Definition bruteForceRuleA : jsval :=
  JObj [ ("name", JStr "brute_force");
         ("conditions",
          JObj [("all",
                 JArr [ JObj [("field", JStr "alert.type");
                              ("operator", JStr "equals");
                              ("value", JStr "Brute Force")];
                        JObj [("field", JStr "alert.event_count");
                              ("operator", JStr "greater_than");
                              ("value", JNum 10)] ])]);
         ("actions", JArr [JObj [("action", JStr "firewall.block_ip")]]) ].

Definition malwareRuleB : jsval :=
  JObj [ ("name", JStr "malware_isolate");
         ("if", JObj [("type", JStr "Malware"); ("severity", JStr "High")]);
         ("then", JArr [JObj [("action", JStr "isolate_host");
                              ("params", JObj [("host_field", JStr "machine")])]]) ].


Definition emptyAllRule : jsval :=
  JObj [ ("name", JStr "empty_all");
         ("conditions", JObj [("all", JArr [])]);
         ("actions", JArr []) ].

(** ** Regular expressions

    A backtracking matcher with the semantics of the JavaScript engine on
    the constructs the sources use: greedy repetition, ordered
    alternation, capture groups, [^], [$] and [\b]. *)

Module Regex.

Inductive regex : Type :=
| Eps
| Chr (p : ascii -> bool)
| Cat (r1 r2 : regex)
| Alt (r1 r2 : regex)
| Star (r : regex)
| Group (i : nat) (r : regex)
| Bol
| Eol
| WordB.

(** Matcher state: the text before the position (latest character first),
    the text from the position on, and the captures made so far. *)
Record mstate : Type := mkState {
  before : list ascii;
  rest : list ascii;
  caps : list (nat * list ascii)
}.

Definition inRange (lo hi : nat) (c : ascii) : bool :=
  let n := nat_of_ascii c in (lo <=? n)%nat && (n <=? hi)%nat.

Definition isUpper : ascii -> bool := inRange 65 90.
Definition isLower : ascii -> bool := inRange 97 122.
Definition isAlpha (c : ascii) : bool := isUpper c || isLower c.
Definition isAlnum (c : ascii) : bool := isAlpha c || isDigit c.

(** [\w] *)
Definition isWord (c : ascii) : bool := isAlnum c || Ascii.eqb c "_".

(** [.]: any character but a line terminator. *)
Definition isDot (c : ascii) : bool :=
  negb ((nat_of_ascii c =? 10)%nat || (nat_of_ascii c =? 13)%nat).

Definition oneOf (set : string) (c : ascii) : bool :=
  existsb (Ascii.eqb c) (list_ascii_of_string set).

Definition headIs (p : ascii -> bool) (cs : list ascii) : bool :=
  match cs with
  | c :: _ => p c
  | [] => false
  end.

Definition atWordBoundary (st : mstate) : bool :=
  xorb (headIs isWord (before st)) (headIs isWord (rest st)).

(** The text consumed between two states of one match attempt. *)
Definition consumed (st st' : mstate) : list ascii :=
  rev (firstn (length (before st') - length (before st)) (before st')).

Definition setCap (i : nat) (txt : list ascii) (st : mstate) : mstate :=
  {| before := before st; rest := rest st; caps := (i, txt) :: caps st |}.

Fixpoint getCap (i : nat) (cs : list (nat * list ascii)) : list ascii :=
  match cs with
  | [] => []
  | (j, txt) :: more => if (i =? j)%nat then txt else getCap i more
  end.

(** [rmatch r k st]: match [r] at [st], then continue with [k]; the first
    success in backtracking order.  An iteration of a star that consumes
    nothing is rejected. *)
Fixpoint rmatch (r : regex) (k : mstate -> option mstate) (st : mstate)
  : option mstate :=
  match r with
  | Eps => k st
  | Chr p =>
      match rest st with
      | c :: tl =>
          if p c
          then k {| before := c :: before st; rest := tl; caps := caps st |}
          else None
      | [] => None
      end
  | Cat r1 r2 => rmatch r1 (rmatch r2 k) st
  | Alt r1 r2 =>
      match rmatch r1 k st with
      | Some x => Some x
      | None => rmatch r2 k st
      end
  | Star r1 =>
      (fix loop (fuel : nat) (st : mstate) {struct fuel} : option mstate :=
         match fuel with
         | O => k st
         | S fuel' =>
             match rmatch r1
                     (fun st' =>
                        if (length (rest st') <? length (rest st))%nat
                        then loop fuel' st' else None) st with
             | Some x => Some x
             | None => k st
             end
         end) (S (length (rest st))) st
  | Group i r1 => rmatch r1 (fun st' => k (setCap i (consumed st st') st')) st
  | Bol => match before st with [] => k st | _ :: _ => None end
  | Eol => match rest st with [] => k st | _ :: _ => None end
  | WordB => if atWordBoundary st then k st else None
  end.

(** Derived forms. *)
Fixpoint lit (cs : list ascii) : regex :=
  match cs with
  | [] => Eps
  | c :: more => Cat (Chr (Ascii.eqb c)) (lit more)
  end.

Definition Str (s : string) : regex := lit (list_ascii_of_string s).
Definition Plus (r : regex) : regex := Cat r (Star r).
Definition Opt (r : regex) : regex := Alt r Eps.

Fixpoint Rep (n : nat) (r : regex) : regex :=
  match n with
  | O => Eps
  | S n' => Cat r (Rep n' r)
  end.

(** [r{0,n}] *)
Fixpoint UpTo (n : nat) (r : regex) : regex :=
  match n with
  | O => Eps
  | S n' => Opt (Cat r (UpTo n' r))
  end.

(** [r{n,m}] and [r{n,}] *)
Definition RepRange (n m : nat) (r : regex) : regex := Cat (Rep n r) (UpTo (m - n) r).
Definition AtLeast (n : nat) (r : regex) : regex := Cat (Rep n r) (Star r).

Fixpoint alts (rs : list regex) : regex :=
  match rs with
  | [] => Eps
  | [r] => r
  | r :: more => Alt r (alts more)
  end.

(** A match attempt at one position. *)
Definition matchAt (r : regex) (bef rst : list ascii) : option mstate :=
  rmatch r Some {| before := bef; rest := rst; caps := [] |}.

(** What a [replace] callback or a [match] result sees of one match. *)
Record minfo : Type := mkInfo {
  m_text : list ascii;
  m_caps : list (nat * list ascii);
  m_offset : nat
}.

Definition infoOf (bef : list ascii) (st' : mstate) : minfo :=
  {| m_text := consumed {| before := bef; rest := []; caps := [] |} st';
     m_caps := caps st';
     m_offset := length bef |}.

(** Leftmost match from a position on ([RegExp.prototype.exec] without the
    [g] flag). *)
Fixpoint execFrom (r : regex) (bef rst : list ascii) : option minfo :=
  match matchAt r bef rst with
  | Some st' => Some (infoOf bef st')
  | None =>
      match rst with
      | [] => None
      | c :: tl => execFrom r (c :: bef) tl
      end
  end.

Definition exec (r : regex) (s : string) : option minfo :=
  execFrom r [] (list_ascii_of_string s).

Definition test (r : regex) (s : string) : bool :=
  match exec r s with Some _ => true | None => false end.

(** The successive matches of a global regex, each with the text skipped
    before it; the text after the last match comes last.  After an empty
    match the scan moves on by one character. *)
Fixpoint scanFrom {S : Type} (r : regex)
    (f : S -> minfo -> list ascii * S)
    (fuel : nat) (bef rst : list ascii) (s : S) : list ascii * S :=
  match fuel with
  | O => (rst, s)
  | S fuel' =>
      match matchAt r bef rst with
      | Some st' =>
          let '(out, s1) := f s (infoOf bef st') in
          if (length (rest st') <? length rst)%nat
          then let '(more, s2) := scanFrom r f fuel' (before st') (rest st') s1 in
               ((out ++ more)%list, s2)
          else match rst with
               | [] => (out, s1)
               | c :: tl =>
                   let '(more, s2) := scanFrom r f fuel' (c :: bef) tl s1 in
                   ((out ++ c :: more)%list, s2)
               end
      | None =>
          match rst with
          | [] => ([], s)
          | c :: tl =>
              let '(more, s2) := scanFrom r f fuel' (c :: bef) tl s in
              (c :: more, s2)
          end
      end
  end.

(** [s.replace(/r/g, callback)], the callback threading a state. *)
Definition replaceWith {S : Type} (r : regex)
    (f : S -> minfo -> list ascii * S) (s : string) (init : S) : string * S :=
  let cs := list_ascii_of_string s in
  let '(out, st) := scanFrom r f (Datatypes.S (length cs)) [] cs init in
  (string_of_list_ascii out, st).

(** [s.replace(/r/g, callback)] with a pure callback. *)
Definition replaceAll (r : regex) (f : minfo -> list ascii) (s : string) : string :=
  fst (replaceWith r (fun (_ : unit) m => (f m, tt)) s tt).

(** [s.match(/r/g)]: the matched texts ([[]] where JavaScript gives
    [null]). *)
Definition matchAll (r : regex) (s : string) : list string :=
  rev (snd (replaceWith r
              (fun acc m => ([], string_of_list_ascii (m_text m) :: acc)) s [])).

End Regex.

Import Regex.

(** ** [JSON.stringify] *)

Definition hexDigit (n : nat) : ascii :=
  if (n <? 10)%nat then ascii_of_nat (48 + n) else ascii_of_nat (87 + n).

Definition escapeChar (c : ascii) : list ascii :=
  let n := nat_of_ascii c in
  if (n =? 34)%nat then ["\"%char; "034"%char]
  else if (n =? 92)%nat then ["\"%char; "\"%char]
  else if (n =? 8)%nat then ["\"%char; "b"%char]
  else if (n =? 12)%nat then ["\"%char; "f"%char]
  else if (n =? 10)%nat then ["\"%char; "n"%char]
  else if (n =? 13)%nat then ["\"%char; "r"%char]
  else if (n =? 9)%nat then ["\"%char; "t"%char]
  else if (n <? 32)%nat
       then ["\"%char; "u"%char; "0"%char; "0"%char;
             hexDigit (n / 16); hexDigit (n mod 16)]
       else [c].

Definition dquote : string := String "034"%char "".

Definition jsonQuote (s : string) : string :=
  dquote ++ string_of_list_ascii (flat_map escapeChar (list_ascii_of_string s))
         ++ dquote.

(** [None] is the [undefined] that [JSON.stringify(undefined)] returns. *)
Fixpoint jsonText (v : jsval) : option string :=
  match v with
  | JUndefined => None
  | JNull => Some "null"
  | JBool _ | JNum _ => Some (toStringJS v)
  | JStr s => Some (jsonQuote s)
  | JArr xs =>
      Some ("[" ++ joinWith ","
                     (map (fun x => match jsonText x with
                                    | Some t => t
                                    | None => "null"
                                    end) xs) ++ "]")
  | JObj fs =>
      Some ("{" ++ joinWith ","
                     ((fix members (fs : list (string * jsval)) : list string :=
                         match fs with
                         | [] => []
                         | (k, x) :: more =>
                             match jsonText x with
                             | Some t => (jsonQuote k ++ ":" ++ t) :: members more
                             | None => members more
                             end
                         end) fs) ++ "}")
  end.

(** ** Expression evaluator ([evaluateExpressionUnified],
       [src/pages/PlaybookBuilder.tsx]) *)

Inductive EvalResult : Type :=
| Success (result : jsval) (evaluated : string)
          (missingVars replacedVars : list string)
| Failure (error : string) (evaluated : jsval).

(** [/^\$\{(.+)\}$/] *)
Definition reWrapped : regex :=
  Cat Bol (Cat (Str "${") (Cat (Group 1 (Plus (Chr isDot))) (Cat (Str "}") Eol))).

(** [/\bsteps\.\w+/] *)
Definition reBareSteps : regex :=
  Cat WordB (Cat (Str "steps.") (Plus (Chr isWord))).

(** [/\$\{steps\./] *)
Definition reWrappedSteps : regex := Str "${steps.".

(** [[\w.]] *)
Definition isPathChar (c : ascii) : bool := isWord c || Ascii.eqb c ".".

(** [/\bsteps\.([\w.]+)/g] *)
Definition reBarePath : regex :=
  Cat WordB (Cat (Str "steps.") (Group 1 (Plus (Chr isPathChar)))).

(** [/\$\{steps\.([\w.]+)\}/g] *)
Definition reVariable : regex :=
  Cat (Str "${steps.") (Cat (Group 1 (Plus (Chr isPathChar))) (Str "}")).

(** Step 1: remove the outer wrapper if present. *)
Definition stripWrapper (evaluated : string) : string :=
  match exec reWrapped evaluated with
  | Some m => string_of_list_ascii (getCap 1 (m_caps m))
  | None => evaluated
  end.

Definition hasBareSteps (evaluated : string) : bool := test reBareSteps evaluated.
Definition hasWrappedSteps (evaluated : string) : bool := test reWrappedSteps evaluated.

(** The replacement ['${steps.$1}']. *)
Definition wrapOne (m : minfo) : list ascii :=
  (list_ascii_of_string "${steps." ++ getCap 1 (m_caps m) ++ ["}"%char])%list.

(** Step 2: bare [steps.] references become [${steps.xxx}], when there is
    no wrapped reference yet. *)
Definition wrapBareSteps (evaluated : string) : string :=
  if hasBareSteps evaluated && negb (hasWrappedSteps evaluated)
  then replaceAll reBarePath wrapOne evaluated
  else evaluated.

(** The arrays filled by the replacement callback of step 3; [failure] is
    an exception thrown by the callback. *)
Record SubstState : Type := mkSubst {
  missingVars : list string;
  replacedVars : list string;
  missingEnrichSteps : list string;
  failure : option string
}.

(** The walk of the callback along the path; [None] where the callback
    takes its "not found" branch. *)
Fixpoint resolvePath (parts : list string) (value : jsval) : option jsval :=
  match parts with
  | [] => Some value
  | part :: more =>
      if truthy value && isObjectType value && hasProp value part
      then match getProp value part with
           | Ok v => resolvePath more v
           | Throw _ => None
           end
      else None
  end.

(** The hint for a reference whose enrich step is switched off. *)
Definition enrichHint (enrichStep : string) (enrichConfig : jsval)
  : outcome (option string) :=
  if (enrichStep =? "vt_hash")%string then
    c <- getProp enrichConfig "vt_hash" ;;
    Ok (if truthy c then None else Some "VirusTotal Hash lookup")
  else if (enrichStep =? "vt_url")%string then
    c <- getProp enrichConfig "vt_url" ;;
    Ok (if truthy c then None else Some "VirusTotal URL reputation")
  else if (enrichStep =? "abuseipdb")%string then
    c <- getProp enrichConfig "abuseipdb_geoip" ;;
    Ok (if truthy c then None else Some "AbuseIPDB / GeoIP")
  else Ok None.

(** The text a resolved value is replaced by. *)
Definition formatValue (value : jsval) : string :=
  match value with
  | JBool _ | JNum _ => toStringJS value
  | JStr s => jsonQuote s
  | JNull | JUndefined => "null"
  | _ => match jsonText value with Some t => t | None => "undefined" end
  end.

(** The replacement callback of step 3. *)
Definition substituteOne (steps enrichConfig : jsval) (st : SubstState)
    (m : minfo) : list ascii * SubstState :=
  match failure st with
  | Some _ => ([], st)
  | None =>
      let whole := string_of_list_ascii (m_text m) in
      let parts := split "."%char (string_of_list_ascii (getCap 1 (m_caps m))) in
      match resolvePath parts steps with
      | Some value =>
          (list_ascii_of_string (formatValue value),
           {| missingVars := missingVars st;
              replacedVars := (replacedVars st ++ [whole])%list;
              missingEnrichSteps := missingEnrichSteps st;
              failure := None |})
      | None =>
          match enrichHint (hd "" parts) enrichConfig with
          | Ok hint =>
              (list_ascii_of_string "null",
               {| missingVars := (missingVars st ++ [whole])%list;
                  replacedVars := replacedVars st;
                  missingEnrichSteps :=
                    match hint with
                    | Some h => (missingEnrichSteps st ++ [h])%list
                    | None => missingEnrichSteps st
                    end;
                  failure := None |})
          | Throw e =>
              ([], {| missingVars := (missingVars st ++ [whole])%list;
                      replacedVars := replacedVars st;
                      missingEnrichSteps := missingEnrichSteps st;
                      failure := Some e |})
          end
      end
  end.

Definition substitute (steps enrichConfig : jsval) (evaluated : string)
  : string * SubstState :=
  replaceWith reVariable (substituteOne steps enrichConfig) evaluated
    {| missingVars := []; replacedVars := []; missingEnrichSteps := [];
       failure := None |}.

Definition unresolvedMessage (remainingVars hints : list string) : string :=
  "Unresolved variables found: " ++ joinWith ", " remainingVars
  ++ ". These variables may not be available in the test data."
  ++ match hints with
     | [] => ""
     | _ => nl ++ nl ++ "Please enable the following enrich steps: "
            ++ joinWith ", " hints
     end.

Definition invalidFormatMessage (bare : list string) : string :=
  "Invalid variable format: " ++ joinWith ", " bare
  ++ ". Variables must use ${steps.xxx} format.".

Definition evaluationFailedMessage (e evaluated : string) : string :=
  "Expression evaluation failed: " ++ e
  ++ ". Evaluated expression: " ++ evaluated.

Section Evaluator.

(** [jsEval e] is the completion of
    [Function(`"use strict"; return (${e})`)()]. *)
Variable jsEval : string -> outcome jsval.

(** The [catch] clause: [evaluated || expression || '']. *)
Definition caught (expression : jsval) (error evaluated : string) : EvalResult :=
  Failure error (jsOr (JStr evaluated) (jsOr expression (JStr ""))).

(** Steps 3 to 6, from the text of step 2 on. *)
Definition evaluateWrapped (expression : jsval) (evaluated2 : string)
    (steps enrichConfig : jsval) : EvalResult :=
  let '(evaluated, st) := substitute steps enrichConfig evaluated2 in
  match failure st with
  | Some e => caught expression e evaluated2
  | None =>
      match matchAll reVariable evaluated with
      | (_ :: _) as remainingVars =>
          caught expression
            (unresolvedMessage remainingVars (missingEnrichSteps st)) evaluated
      | [] =>
          match matchAll reBareSteps evaluated with
          | (_ :: _) as bareStepsMatch =>
              caught expression (invalidFormatMessage bareStepsMatch) evaluated
          | [] =>
              match jsEval evaluated with
              | Ok result =>
                  Success result evaluated (missingVars st) (replacedVars st)
              | Throw e =>
                  caught expression (evaluationFailedMessage e evaluated)
                         evaluated
              end
          end
      end
  end.

Definition evaluateExpressionUnified (expression steps enrichConfig : jsval)
  : EvalResult :=
  let enrichConfig :=
    if isUndefined enrichConfig then JObj [] else enrichConfig in
  match expression with
  | JStr e =>
      if (e =? "")%string
      then Failure "Expression must be a non-empty string" (JStr "")
      else evaluateWrapped expression (wrapBareSteps (stripWrapper (trim e)))
                           steps enrichConfig
  | _ =>
      Failure "Expression must be a non-empty string"
              (jsOr expression (JStr ""))
  end.

End Evaluator.

(** ** Playbook configuration ([src/types/playbook.ts]) *)

Record CollectMapping : Type := mkCollect {
  sender : string;
  recipient : string;
  subject : string;
  urls : string;
  attachment_hashes : string;
  src_ip : string
}.

Record EnrichFlags : Type := mkEnrich {
  vt_hash : bool;
  vt_url : bool;
  abuseipdb_geoip : bool
}.

Record ActionItem : Type := mkAction {
  id : string;
  action : string;
  input : list (string * string)
}.

Record PlaybookConfig : Type := mkConfig {
  name : string;
  collect : CollectMapping;
  enrich : EnrichFlags;
  expression : string;
  trueActions : list ActionItem;
  falseActions : list ActionItem
}.

(** ** Instance generator ([generateInstanceYaml],
       [src/pages/PlaybookBuilder.tsx]) *)

(** [if (config.collect.k) collectMapping.k = config.collect.k] *)
Definition mappingEntry (k v : string) : list (string * jsval) :=
  if (v =? "")%string then [] else [(k, JStr v)].

Definition collectMapping (c : CollectMapping) : list (string * jsval) :=
  (mappingEntry "sender" (sender c)
   ++ mappingEntry "recipient" (recipient c)
   ++ mappingEntry "subject" (subject c)
   ++ mappingEntry "urls" (urls c)
   ++ mappingEntry "attachment_hashes" (attachment_hashes c)
   ++ mappingEntry "src_ip" (src_ip c))%list.

(** The collect step as first built, [next: null]. *)
Definition collectStep (config : PlaybookConfig) : jsval :=
  JObj [ ("id", JStr "collect");
         ("type", JStr "collect_normalize");
         ("params", match collectMapping (collect config) with
                    | [] => JObj []
                    | m => JObj [("mapping", JObj m)]
                    end);
         ("next", JNull) ].

Definition enrichStep (stepId type param value : string) : jsval :=
  JObj [ ("id", JStr stepId);
         ("type", JStr type);
         ("params", JObj [(param, JStr value)]);
         ("next", JStr "evaluate") ].

(** The enrich steps pushed on [steps], enabled ones only, in this order. *)
Definition enrichSteps (e : EnrichFlags) : list jsval :=
  ((if vt_hash e
    then [enrichStep "vt_hash" "vt_hash_lookup" "hashes"
                     "${steps.collect.attachment_hashes}"]
    else [])
   ++ (if vt_url e
       then [enrichStep "vt_url" "vt_url_reputation" "urls"
                        "${steps.collect.urls}"]
       else [])
   ++ (if abuseipdb_geoip e
       then [enrichStep "abuseipdb" "abuseipdb_lookup" "ip"
                        "${steps.collect.src_ip}"]
       else []))%list.

(** The array [enrichStepIds]. *)
Definition enrichStepIds (e : EnrichFlags) : list string :=
  ((if vt_hash e then ["vt_hash"] else [])
   ++ (if vt_url e then ["vt_url"] else [])
   ++ (if abuseipdb_geoip e then ["abuseipdb"] else []))%list.

(** Lines 896-900: the value assigned to [collectStep.next]. *)
Definition collectNext (e : EnrichFlags) : jsval :=
  match enrichStepIds e with
  | [] => JStr "evaluate"
  | ids => JArr (map JStr ids)
  end.

Definition evaluateStep (config : PlaybookConfig) : jsval :=
  JObj [ ("id", JStr "evaluate");
         ("type", JStr "condition");
         ("params", JObj [("expression", JStr (expression config))]);
         ("true_next", JStr "high");
         ("false_next", JStr "low") ].

Definition inputObject (kvs : list (string * string)) : list (string * jsval) :=
  map (fun kv => (fst kv, JStr (snd kv))) kvs.

(** The [switch] on [action.action]. *)
Definition actionObj (a : ActionItem) : jsval :=
  JObj [ ("action", JStr (action a));
         ("input",
          JObj (if (action a =? "mail.quarantine")%string
                then [("message_id", JStr "${alert.alert_id}")]
                else if (action a =? "identity.suspend_user")%string
                then [("user", JStr "${steps.collect.sender}")]
                else if (action a =? "firewall.block_ip")%string
                then [("ip", JStr "${steps.collect.src_ip}")]
                else inputObject (input a))) ].

Definition actionGroup (stepId : string) (actions : list ActionItem) : jsval :=
  JObj [ ("id", JStr stepId);
         ("type", JStr "action_group");
         ("params", JObj [("actions", JArr (map actionObj actions))]) ].

(** The array [steps] at the end of [generateInstanceYaml]; [steps[0]] is
    the collect step object, so the late assignment to [collectStep.next]
    shows in it. *)
Definition buildInstance (config : PlaybookConfig) : list jsval :=
  (setProp (collectStep config) "next" (collectNext (enrich config))
   :: enrichSteps (enrich config)
   ++ [ evaluateStep config;
        actionGroup "high" (trueActions config);
        actionGroup "low" (falseActions config) ])%list.

Definition yamlStructure (config : PlaybookConfig) : jsval :=
  JObj [ ("name", JStr (if (name config =? "")%string
                        then "Untitled Playbook" else name config));
         ("steps", JArr (buildInstance config)) ].

(** ** Serializer ([convertToYaml], [src/pages/PlaybookBuilder.tsx]) *)

Fixpoint repeatStr (s : string) (n : nat) : string :=
  match n with
  | O => ""
  | S n' => s ++ repeatStr s n'
  end.

Definition isBlank (line : string) : bool := (trim line =? "")%string.

(** [line.replace(/^  +/, '')]: two or more leading spaces are removed. *)
Definition stripIndent (line : string) : string :=
  match list_ascii_of_string line with
  | " "%char :: " "%char :: more =>
      string_of_list_ascii (dropWhile (Ascii.eqb " "%char) more)
  | _ => line
  end.

(** Every double quote gets a backslash before it. *)
Definition escapeQuotes (s : string) : string :=
  string_of_list_ascii
    (flat_map (fun c => if Ascii.eqb c "034"%char
                        then ["\"%char; "034"%char] else [c])
              (list_ascii_of_string s)).

Definition hasSpecial (s : string) : bool :=
  includes ":" s || includes "|" s || includes "&" s
  || includes "*" s || includes "#" s.

(** An array item that is an object: its serialization, re-indented. *)
Definition arrayItem (indentStr itemYaml : string) : string :=
  match filter (fun l => negb (isBlank l)) (split LF itemYaml) with
  | [] => indentStr ++ "- "
  | first :: others =>
      indentStr ++ "- " ++ stripIndent first ++ nl
      ++ String.concat ""
           (map (fun line => indentStr ++ "  " ++ stripIndent line ++ nl) others)
  end.

(** A string value of a mapping. *)
Definition stringValue (indentStr key strValue : string) : string :=
  if includes "${" strValue && negb (includes nl strValue)
  then indentStr ++ key ++ ": " ++ dquote ++ escapeQuotes strValue ++ dquote ++ nl
  else if includes nl strValue
  then indentStr ++ key ++ ": |" ++ nl
       ++ String.concat ""
            (map (fun line => indentStr ++ "  " ++ line ++ nl) (split LF strValue))
  else if hasSpecial strValue
  then indentStr ++ key ++ ": " ++ dquote ++ escapeQuotes strValue ++ dquote ++ nl
  else indentStr ++ key ++ ": " ++ strValue ++ nl.

Fixpoint convertToYaml (obj : jsval) (indent : nat) : string :=
  let indentStr := repeatStr "  " indent in
  match obj with
  | JNull | JUndefined => ""
  | JArr items =>
      String.concat ""
        (map (fun item =>
                match item with
                | JArr _ | JObj _ =>
                    arrayItem indentStr (convertToYaml item (S indent))
                | _ => indentStr ++ "- " ++ toStringJS item ++ nl
                end) items)
  | JObj fields =>
      (fix members (fs : list (string * jsval)) : string :=
         match fs with
         | [] => ""
         | (key, value) :: more =>
             (match value with
              | JNull | JUndefined => indentStr ++ key ++ ": null" ++ nl
              | JArr _ | JObj _ =>
                  indentStr ++ key ++ ":" ++ nl ++ convertToYaml value (S indent)
              | JStr strValue => stringValue indentStr key strValue
              | _ => indentStr ++ key ++ ": " ++ toStringJS value ++ nl
              end) ++ members more
         end) fields
  | _ => toStringJS obj ++ nl
  end.

Definition generateInstanceYaml (config : PlaybookConfig) : string :=
  convertToYaml (yamlStructure config) 0.

(** ** Anonymizer ([generateTemplateYaml], [src/pages/PlaybookBuilder.tsx]) *)

(** [/\b[A-Za-z0-9._%+-]+@[A-Za-z0-9.-]+\.[A-Za-z]{2,}\b/g] *)
Definition emailRegex : regex :=
  Cat WordB
    (Cat (Plus (Chr (fun c => isAlnum c || oneOf "._%+-" c)))
       (Cat (Str "@")
          (Cat (Plus (Chr (fun c => isAlnum c || oneOf ".-" c)))
             (Cat (Str ".") (Cat (AtLeast 2 (Chr isAlpha)) WordB))))).

(** [/https?:\/\/[^\s...]+/g], the class excluding white space, the
    double quote, the single quote and the backquote. *)
Definition urlRegex : regex :=
  Cat (Str "http")
    (Cat (Opt (Str "s"))
       (Cat (Str "://")
          (Plus (Chr (fun c => negb (isSpace c || Ascii.eqb c "034"%char
                                     || oneOf "'`" c)))))).

(** [/\b\d{1,3}(\.\d{1,3}){3}\b/g] *)
Definition ipRegex : regex :=
  Cat WordB
    (Cat (RepRange 1 3 (Chr isDigit))
       (Cat (Rep 3 (Group 1 (Cat (Str ".") (RepRange 1 3 (Chr isDigit)))))
          WordB)).

Definition isHex (c : ascii) : bool :=
  inRange 65 70 c || inRange 97 102 c || isDigit c.

(** [/\b[A-Fa-f0-9]{32,64}\b/g] *)
Definition hashRegex : regex :=
  Cat WordB (Cat (RepRange 32 64 (Chr isHex)) WordB).

Definition mappingKeys : list string :=
  ["sender"; "recipient"; "subject"; "text"; "comment"; "message";
   "description"; "summary"; "hashes"; "urls"; "ip"].

(** [/^(\s+)(sender|recipient|...|ip):\s+(.+)$/] *)
Definition mappingLineRegex : regex :=
  Cat Bol
    (Cat (Group 1 (Plus (Chr isSpace)))
       (Cat (Group 2 (alts (map Str mappingKeys)))
          (Cat (Str ":")
             (Cat (Plus (Chr isSpace))
                (Cat (Group 3 (Plus (Chr isDot))) Eol))))).

(** The global regex of [quotedStringRegex]: a double quote, a group of
    any characters but the double quote, and a double quote. *)
Definition quotedStringRegex : regex :=
  Cat (Str dquote)
    (Cat (Group 1 (Star (Chr (fun c => negb (Ascii.eqb c "034"%char)))))
       (Str dquote)).

Definition toLowerChar (c : ascii) : ascii :=
  if isUpper c then ascii_of_nat (nat_of_ascii c + 32) else c.

(** [str.substring(a, b)] for [a <= b]. *)
Definition substring (a b : nat) (str : list ascii) : list ascii :=
  firstn (b - a) (skipn a str).

Definition has (needle : string) (hay : list ascii) : bool :=
  includesChars (list_ascii_of_string needle) hay.

(** [hay.lastIndexOf(needle)], -1 when there is none. *)
Fixpoint lastIndexFrom (needle hay : list ascii) (i : Z) (found : Z) : Z :=
  match hay with
  | [] => match needle with [] => i | _ => found end
  | _ :: rest =>
      lastIndexFrom needle rest (i + 1)
        (if isPrefixOf needle hay then i else found)
  end.

Definition lastIndexOf (needle : string) (hay : list ascii) : Z :=
  lastIndexFrom (list_ascii_of_string needle) hay 0 (-1).

(** The 20 characters before a match and the 10 after it. *)
Definition beforeMatch (str : list ascii) (m : minfo) : list ascii :=
  substring (m_offset m - 20) (m_offset m) str.

Definition afterMatch (str : list ascii) (m : minfo) : list ascii :=
  let e := (m_offset m + length (m_text m))%nat in
  substring e (Nat.min (length str) (e + 10)) str.

(** The callback of the e-mail replacement. *)
Definition emailPlaceholder (str : list ascii) (m : minfo) : list ascii :=
  let before := map toLowerChar (beforeMatch str m) in
  list_ascii_of_string
    (if has "sender" before || has "from" before
     then "${alert.result.sender}"
     else if has "recipient" before || has "to" before
     then "${alert.result.recipient}"
     else "${alert.result.sender}").

(** The callback shared by the URL, IP and hash replacements. *)
Definition guardedPlaceholder (placeholder : string) (str : list ascii)
    (m : minfo) : list ascii :=
  let before := beforeMatch str m in
  let after := afterMatch str m in
  if (lastIndexOf "}" before <? lastIndexOf "${" before) && negb (has "}" after)
  then m_text m
  else if has "steps." before || has "alert." before
  then m_text m
  else list_ascii_of_string placeholder.

Definition replaceIoc (r : regex) (f : list ascii -> minfo -> list ascii)
    (text : string) : string :=
  replaceAll r (f (list_ascii_of_string text)) text.

Definition isExpressionText (s : string) : bool :=
  includes "${" s || includes "alert." s || includes "steps." s.

(** The callback of [lines.map]. *)
Definition processLine (line : string) : string :=
  if isExpressionText line then line
  else match exec mappingLineRegex line with
       | Some m =>
           let indent := string_of_list_ascii (getCap 1 (m_caps m)) in
           let key := string_of_list_ascii (getCap 2 (m_caps m)) in
           let value := string_of_list_ascii (getCap 3 (m_caps m)) in
           if isExpressionText value then line
           else indent ++ key ++ ": " ++ dquote ++ dquote
       | None =>
           replaceAll quotedStringRegex
             (fun m =>
                if isExpressionText (string_of_list_ascii (getCap 1 (m_caps m)))
                then m_text m
                else list_ascii_of_string (dquote ++ dquote))
             line
       end.

Definition generateTemplateYaml (instanceYaml : jsval) : string :=
  if negb (truthy instanceYaml) then ""
  else
    let templateYaml := toStringJS instanceYaml in
    if (trim templateYaml =? "")%string then ""
    else
      let t1 := replaceIoc emailRegex emailPlaceholder templateYaml in
      let t2 := replaceIoc urlRegex
                  (guardedPlaceholder "${alert.result.urls}") t1 in
      let t3 := replaceIoc ipRegex
                  (guardedPlaceholder "${alert.result.src_ip}") t2 in
      let t4 := replaceIoc hashRegex
                  (guardedPlaceholder "${alert.result.attachment_hashes}") t3 in
      joinWith nl (map processLine (split LF t4)).

(** ** The older generator ([generateYaml], [src/utils/generateYaml.ts]) *)

Module GenerateYamlTs.

Definition collectStep (config : PlaybookConfig) : jsval :=
  JObj [ ("id", JStr "collect_normalize");
         ("type", JStr "collect_normalize");
         ("params",
          JObj [("mapping",
                 JObj [ ("sender", JStr (sender (collect config)));
                        ("recipient", JStr (recipient (collect config)));
                        ("subject", JStr (subject (collect config)));
                        ("urls", JStr (urls (collect config)));
                        ("attachment_hashes",
                         JStr (attachment_hashes (collect config)));
                        ("src_ip", JStr (src_ip (collect config))) ])]);
         ("next", JNull) ].

Definition enrichStep (stepId provider type : string) : jsval :=
  JObj [ ("id", JStr stepId);
         ("type", JStr "enrich");
         ("params", JObj [("provider", JStr provider); ("type", JStr type)]);
         ("next", JNull) ].

Definition enrichStepObjects (e : EnrichFlags) : list jsval :=
  ((if vt_hash e then [enrichStep "vt_hash" "virustotal" "hash"] else [])
   ++ (if vt_url e then [enrichStep "vt_url" "virustotal" "url"] else [])
   ++ (if abuseipdb_geoip e
       then [enrichStep "abuseipdb" "abuseipdb" "geoip"] else []))%list.

Definition hasId (stepId : string) (step : jsval) : bool :=
  match getProp step "id" with
  | Ok v => strictEq v (JStr stepId)
  | Throw _ => false
  end.

(** [steps.find(p)] followed by an assignment to the step found. *)
Fixpoint updateFirst (p : jsval -> bool) (f : jsval -> jsval)
    (steps : list jsval) : list jsval :=
  match steps with
  | [] => []
  | s :: more => if p s then f s :: more else s :: updateFirst p f more
  end.

(** Lines 81-90: each enrich step points to the following one, the last
    one to [evaluate]. *)
Fixpoint chainNext (ids : list string) (steps : list jsval) : list jsval :=
  match ids with
  | [] => steps
  | stepId :: more =>
      chainNext more
        (updateFirst (hasId stepId)
           (fun s => setProp s "next" (JStr (hd "evaluate" more))) steps)
  end.

Definition evaluateStep (config : PlaybookConfig) : jsval :=
  JObj [ ("id", JStr "evaluate");
         ("type", JStr "evaluate");
         ("params", JObj [("expression", JStr (expression config))]);
         ("true_next", JStr "high");
         ("false_next", JStr "low") ].

Definition actionGroup (stepId : string) (actions : list ActionItem)
  : list jsval :=
  match actions with
  | [] => []
  | _ =>
      [JObj [ ("id", JStr stepId);
              ("type", JStr "action_group");
              ("params",
               JObj [("actions",
                      JArr (map (fun a =>
                                   JObj [("action", JStr (action a));
                                         ("params", JObj (inputObject (input a)))])
                                actions))]);
              ("next", JNull) ]]
  end.

(** The array [steps] at the end of [generateYaml]. *)
Definition generateYamlSteps (config : PlaybookConfig) : list jsval :=
  let ids := enrichStepIds (enrich config) in
  let collect1 :=
    setProp (collectStep config) "next" (JStr (hd "evaluate" ids)) in
  (chainNext ids (collect1 :: enrichStepObjects (enrich config))
   ++ [evaluateStep config]
   ++ actionGroup "high" (trueActions config)
   ++ actionGroup "low" (falseActions config))%list.

End GenerateYamlTs.

(** ** Sample configurations *)

(** A phishing alert whose sender is a literal address, with an expression
    that mentions the same address. *)
Definition phishingConfig (e : EnrichFlags) : PlaybookConfig :=
  {| name := "Phishing Email Playbook";
     collect := {| sender := "attacker@evil.com";
                   recipient := "victim@example.com";
                   subject := "Important invoice attached";
                   urls := "";
                   attachment_hashes := "";
                   src_ip := "203.0.113.45" |};
     enrich := e;
     expression := "${steps.collect.sender == 'attacker@evil.com'}";
     trueActions := [ {| id := "a1"; action := "firewall.block_ip"; input := [] |} ];
     falseActions := [] |}.

(** The [next] and the [id] of a step. *)
Definition nextOf (step : jsval) : outcome jsval := getProp step "next".

Definition idOf (step : jsval) : outcome jsval := getProp step "id".

Definition lines (text : string) : list string := split LF text.

(** ** The body of the normalizer, on its own

    [normalizeData data raw] is [normalizeSplunkAlert] from line 11 on,
    for a payload [raw] whose record is [data]. *)

Definition normalizeData (data raw : jsval) : outcome CanonicalAlert :=
  type <- firstTruthy [getProp data "type"; getProp data "alert_type";
                       (r <- getProp data "_raw" ;; getPropOpt r "type")] JNull ;;
  severity <- severityOperand data ;;
  machine <- firstTruthy [getProp data "machine"; getProp data "hostname";
                          getProp data "host"; getProp data "computer"] JNull ;;
  src_ip <- firstTruthy [getProp data "src_ip"; getProp data "source_ip";
                         getProp data "src"; getProp data "source";
                         getProp data "ip"] JNull ;;
  user <- firstTruthy [getProp data "user"; getProp data "username";
                       getProp data "account"] JNull ;;
  operand <- countOperand data ;;
  timestamp <- firstTruthy [getProp data "timestamp"; getProp data "_time";
                            getProp data "time"; getProp data "event_time"] JNull ;;
  severity' <- finishSeverity severity ;;
  Ok {| a_type := type;
        a_severity := severity';
        a_machine := machine;
        a_src_ip := src_ip;
        a_user := user;
        a_event_count := eventCountOf operand;
        a_timestamp := timestamp;
        a_raw := raw |}.

(** The same alert with another [raw]. *)
Definition withRaw (raw : jsval) (a : CanonicalAlert) : CanonicalAlert :=
  {| a_type := a_type a; a_severity := a_severity a;
     a_machine := a_machine a; a_src_ip := a_src_ip a; a_user := a_user a;
     a_event_count := a_event_count a; a_timestamp := a_timestamp a;
     a_raw := raw |}.

Definition mapOutcome {A B : Type} (f : A -> B) (m : outcome A) : outcome B :=
  match m with
  | Ok a => Ok (f a)
  | Throw e => Throw e
  end.

(** A field of a canonical alert is a truthy value or [null]. *)
Definition truthyOrNull (v : jsval) : Prop := truthy v = true \/ v = JNull.

(** ** Runs of a rule engine, combined *)

(** The accumulator of the loop after two stretches of rules. *)
Definition appendRuns (a b : EngineResult) : EngineResult :=
  {| logs := (logs a ++ logs b)%list; matches := (matches a ++ matches b)%list |}.

(** The lines a finished run logged for its matches (without the
    informational line of a run that matched nothing). *)
Definition matchLines (r : EngineResult) : list string :=
  match matches r with
  | [] => []
  | _ => logs r
  end.

(** The result of a run over two rule arrays, from the results of the two
    runs. *)
Definition combineRuns (a b : EngineResult) : EngineResult :=
  finishRun {| logs := (matchLines a ++ matchLines b)%list;
               matches := (matches a ++ matches b)%list |}.

(** Lines 100-115 of [evaluateCondition]: the value the condition looks
    at, for a field that is a string. *)
Definition alertValueOf (field : string) (normalized : jsval) : outcome jsval :=
  if String.prefix "alert." field
  then Ok (EngineA.walk
             (split "."%char (String.substring 6 (String.length field - 6) field))
             normalized)
  else getProp normalized field.

Definition actionPrefix : string := "🔥 Action executed: ".

Definition startsWith (p s : string) : bool :=
  isPrefixOf (list_ascii_of_string p) (list_ascii_of_string s).




(** ** The step graph of a generated playbook *)

(** The step ids a [next], [true_next] or [false_next] value names. *)
Definition targetsOf (v : jsval) : list string :=
  match v with
  | JStr s => [s]
  | JArr xs => flat_map (fun x => match x with JStr s => [s] | _ => [] end) xs
  | _ => []
  end.

Definition jumpTargets (step : jsval) : list string :=
  flat_map (fun k => match getProp step k with
                     | Ok v => targetsOf v
                     | Throw _ => []
                     end)
           ["next"; "true_next"; "false_next"].

Definition stepIds (steps : list jsval) : list string :=
  flat_map (fun s => match idOf s with
                     | Ok (JStr i) => [i]
                     | _ => []
                     end) steps.

Definition enabledCount (e : EnrichFlags) : nat :=
  ((if vt_hash e then 1 else 0) + (if vt_url e then 1 else 0)
   + (if abuseipdb_geoip e then 1 else 0))%nat.

(** ** The action selection of the builder ([ActionsPanel],
       [src/pages/PlaybookBuilder.tsx]) *)

Record ParamDef : Type := mkParam {
  p_key : string;
  p_label : string;
  p_type : string;
  p_default : string
}.

Record ActionDef : Type := mkDef {
  d_id : string;
  d_label : string;
  d_params : list ParamDef
}.

Definition availableActions : list ActionDef :=
  [ mkDef "mail.quarantine" "Mail Quarantine" [];
    mkDef "identity.suspend_user" "Suspend User" [];
    mkDef "firewall.block_ip" "Block IP"
      [mkParam "ip" "IP Address" "text" "${steps.collect.src_ip}"];
    mkDef "notify.email" "Notify Email"
      [mkParam "email" "Email Address" "text" ""];
    mkDef "ticket.create" "Create Ticket"
      [mkParam "title" "Ticket Title" "text" "";
       mkParam "description" "Description" "textarea" ""] ].

(** The state [actions]: an object with one array of action items per
    branch key ([trueActions], [falseActions]). *)
Definition ActionsState : Type := list (string * list ActionItem).

(** [actions[branch] || []] *)
Fixpoint branchOf (actions : ActionsState) (branch : string) : list ActionItem :=
  match actions with
  | [] => []
  | (b, items) :: more =>
      if (branch =? b)%string then items else branchOf more branch
  end.

(** [{ ...actions, [branch]: items }] *)
Fixpoint setBranch (branch : string) (items : list ActionItem)
    (actions : ActionsState) : ActionsState :=
  match actions with
  | [] => [(branch, items)]
  | (b, old) :: more =>
      if (branch =? b)%string then (b, items) :: more
      else (b, old) :: setBranch branch items more
  end.

(** [acc[key] = value] and [{ ...input, [key]: value }] *)
Fixpoint setInput (key value : string) (input : list (string * string))
  : list (string * string) :=
  match input with
  | [] => [(key, value)]
  | (k, v) :: more =>
      if (key =? k)%string then (k, value) :: more
      else (k, v) :: setInput key value more
  end.

Fixpoint getInput (key : string) (input : list (string * string))
  : option string :=
  match input with
  | [] => None
  | (k, v) :: more => if (key =? k)%string then Some v else getInput key more
  end.

Fixpoint findIndex {A : Type} (p : A -> bool) (xs : list A) : option nat :=
  match xs with
  | [] => None
  | x :: more =>
      if p x then Some O
      else match findIndex p more with
           | Some i => Some (S i)
           | None => None
           end
  end.

(** [xs.filter((_, i) => i !== index)] *)
Fixpoint removeAt {A : Type} (index : nat) (xs : list A) : list A :=
  match xs, index with
  | [], _ => []
  | _ :: more, O => more
  | x :: more, S i => x :: removeAt i more
  end.

(** The [reduce] over the parameters of an action: its default input. *)
Definition defaultInput (params : list ParamDef) : list (string * string) :=
  fold_left (fun acc param => setInput (p_key param) (p_default param) acc)
            params [].

(** [toggleAction]; [now] is the value of [Date.now()]. *)
Definition toggleAction (now : Z) (actions : ActionsState)
    (branch actionId : string) : outcome ActionsState :=
  let branchActions := branchOf actions branch in
  match findIndex (fun a => (action a =? actionId)%string) branchActions with
  | Some existingIndex =>
      Ok (setBranch branch (removeAt existingIndex branchActions) actions)
  | None =>
      match find (fun d => (d_id d =? actionId)%string) availableActions with
      | Some actionDef =>
          let newAction :=
            {| id := branch ++ "_" ++ actionId ++ "_" ++ numToString now;
               action := actionId;
               input := defaultInput (d_params actionDef) |} in
          Ok (setBranch branch (branchActions ++ [newAction])%list actions)
      | None => Throw "Cannot read properties of undefined (reading 'params')"
      end
  end.

Definition updateActionInput (actions : ActionsState)
    (branch actionId key value : string) : ActionsState :=
  let branchActions := branchOf actions branch in
  setBranch branch
    (map (fun a => if (id a =? actionId)%string
                   then {| id := id a; action := action a;
                           input := setInput key value (input a) |}
                   else a) branchActions)
    actions.

Definition isActionSelected (actions : ActionsState) (branch actionId : string)
  : bool :=
  existsb (fun a => (action a =? actionId)%string) (branchOf actions branch).

Definition getActionInstance (actions : ActionsState) (branch actionId : string)
  : option ActionItem :=
  find (fun a => (action a =? actionId)%string) (branchOf actions branch).

(** ** Dry run ([handleDryRun], [src/pages/PlaybookBuilder.tsx]), from the
       point where the step results [steps] are known *)








Section DryRun.

Variable jsEval : string -> outcome jsval.


End DryRun.


(** ** The playbook page ([handleSubmitJson], [src/unnamed/part_005]):
       normalization followed by a run of the rule engine imported from
       [src/lib/rulesEngine.js] *)



(** ** Characters a regular expression can consume *)

(** Every character class of [r] accepts only characters that satisfy
    [q]. *)
Fixpoint classesOk (q : ascii -> Prop) (r : regex) : Prop :=
  match r with
  | Chr p => forall c, p c = true -> q c
  | Cat r1 r2 | Alt r1 r2 => classesOk q r1 /\ classesOk q r2
  | Star r1 | Group _ r1 => classesOk q r1
  | Eps | Bol | Eol | WordB => True
  end.

Definition notLF (c : ascii) : Prop := c <> LF.

Fixpoint countLF (cs : list ascii) : nat :=
  match cs with
  | [] => 0
  | c :: more => (if Ascii.eqb c LF then 1 else 0) + countLF more
  end.

Definition lfFree (s : string) : Prop := Forall notLF (list_ascii_of_string s).

(** The text between two states: [mid] is [st] moved over [w]. *)
Definition extends (q : ascii -> Prop) (st mid : mstate) : Prop :=
  exists w, rest st = (w ++ rest mid)%list
            /\ before mid = (rev w ++ before st)%list
            /\ Forall q w.

(** A state whose text and captures are made of characters in [q]. *)
Definition stateOk (q : ascii -> Prop) (st : mstate) : Prop :=
  Forall q (before st) /\ Forall q (rest st)
  /\ Forall (fun ic => Forall q (snd ic)) (caps st).

(** ** The evaluator: auxiliary notions *)

(** A text in which [steps.] does not occur. *)
Definition noSteps (cs : list ascii) : Prop :=
  includesChars (list_ascii_of_string "steps.") cs = false.

(** The callback of [match] with a global regex: the matched texts. *)
Definition collectMatch (acc : list string) (m : minfo)
  : list ascii * list string :=
  ([], string_of_list_ascii (m_text m) :: acc).

(** The loop of a star, as [rmatch] runs it. *)
Definition starLoop (r : regex) (k : mstate -> option mstate)
  : nat -> mstate -> option mstate :=
  fix loop (fuel : nat) (st : mstate) {struct fuel} : option mstate :=
    match fuel with
    | O => k st
    | S fuel' =>
        match rmatch r
                (fun st' =>
                   if (length (rest st') <? length (rest st))%nat
                   then loop fuel' st' else None) st with
        | Some x => Some x
        | None => k st
        end
    end.

(** * Properties *)

(** ** The loop over the rules *)

Section RuleLoop.

Variable ruleMatched : jsval -> outcome bool.
Variable ruleLines : jsval -> outcome (list string).

Let body := matchLoopBody ruleMatched ruleLines.
Let selected (rules : list jsval) : list jsval :=
  filter (fun r => okTrue (ruleMatched r)) rules.

(** A completed run has pushed exactly the rules whose [matched] flag was
    true, in declaration order, and their lines in the same order. *)
Lemma run_inv (rules : list jsval) : forall acc res,
  forEach body rules acc = Ok res ->
  matches res = (matches acc ++ selected rules)%list
  /\ exists lss,
       Forall2 (fun r ls => ruleLines r = Ok ls) (selected rules) lss
       /\ logs res = (logs acc ++ concat lss)%list.
Proof.
  induction rules as [|r rules IH]; intros acc res H; simpl in H.
  - inversion H; subst. split; [now rewrite app_nil_r|].
    exists []. split; [constructor | now rewrite app_nil_r].
  - unfold body at 1, matchLoopBody in H. unfold selected. simpl.
    destruct (ruleMatched r) as [[|]|e] eqn:Hm; simpl in H; try discriminate.
    + destruct (ruleLines r) as [ls|e] eqn:Hl; simpl in H; try discriminate.
      apply IH in H. destruct H as [Hmat [lss [Hf Hlog]]]. simpl in *.
      split.
      * rewrite Hmat, <- app_assoc. reflexivity.
      * exists (ls :: lss). split; [constructor; assumption|].
        rewrite Hlog, <- app_assoc. reflexivity.
    + apply IH in H. exact H.
Qed.

(** A rule whose flag is true is among the matches of any completed run
    that contains it, and its lines are a segment of the log. *)
Lemma run_matched_member (pre post : list jsval) (rule : jsval) :
  forall acc res,
  forEach body (pre ++ rule :: post) acc = Ok res ->
  ruleMatched rule = Ok true ->
  In rule (matches res)
  /\ exists ls before after,
       ruleLines rule = Ok ls /\ logs res = (before ++ ls ++ after)%list.
Proof.
  induction pre as [|p pre IH]; intros acc res H Hm; simpl in H.
  - unfold body at 1, matchLoopBody in H. rewrite Hm in H. simpl in H.
    destruct (ruleLines rule) as [ls|e] eqn:Hl; simpl in H; try discriminate.
    apply run_inv in H. destruct H as [Hmat [lss [_ Hlog]]]. simpl in *.
    split.
    + rewrite Hmat. apply in_or_app. left. apply in_or_app. right. now left.
    + exists ls, (logs acc), (concat lss). split; [reflexivity|].
      rewrite Hlog, <- app_assoc. reflexivity.
  - unfold body at 1, matchLoopBody in H.
    destruct (ruleMatched p) as [[|]|e]; simpl in H; try discriminate.
    + destruct (ruleLines p) as [ls|e]; simpl in H; try discriminate.
      eapply IH; eassumption.
    + eapply IH; eassumption.
Qed.

End RuleLoop.

Lemma finishRun_nonempty (r : EngineResult) :
  matches r <> [] -> finishRun r = r.
Proof.
  unfold finishRun. destruct (matches r); [congruence | reflexivity].
Qed.

Lemma finishRun_matches (r : EngineResult) : matches (finishRun r) = matches r.
Proof.
  unfold finishRun. destruct (matches r) eqn:E; simpl; congruence.
Qed.

Lemma engineA_run (normalized : jsval) (rules : list jsval) (res : EngineResult) :
  EngineA.evaluateRules normalized rules = Ok res ->
  exists r,
    forEach (matchLoopBody (EngineA.ruleMatched normalized)
                           (EngineA.ruleLines normalized))
            rules {| logs := []; matches := [] |} = Ok r
    /\ res = finishRun r.
Proof.
  unfold EngineA.evaluateRules, bind.
  match goal with |- context [forEach ?f ?l ?a] =>
    change (forEach f l a) with
      (forEach (matchLoopBody (EngineA.ruleMatched normalized)
                              (EngineA.ruleLines normalized)) l a);
    destruct (forEach (matchLoopBody (EngineA.ruleMatched normalized)
                              (EngineA.ruleLines normalized)) l a) as [r|e]
  end; intros H; [|discriminate].
  exists r. split; [reflexivity | congruence].
Qed.

Lemma engineB_run (normalized : jsval) (rules : list jsval) (res : EngineResult) :
  EngineB.evaluateRules normalized rules = Ok res ->
  exists r,
    forEach (matchLoopBody (EngineB.ruleMatched normalized)
                           (EngineB.ruleLines normalized))
            rules {| logs := []; matches := [] |} = Ok r
    /\ res = finishRun r.
Proof.
  unfold EngineB.evaluateRules, bind.
  match goal with |- context [forEach ?f ?l ?a] =>
    change (forEach f l a) with
      (forEach (matchLoopBody (EngineB.ruleMatched normalized)
                              (EngineB.ruleLines normalized)) l a);
    destruct (forEach (matchLoopBody (EngineB.ruleMatched normalized)
                              (EngineB.ruleLines normalized)) l a) as [r|e]
  end; intros H; [|discriminate].
  exists r. split; [reflexivity | congruence].
Qed.

Lemma getProp_other_key (v x : jsval) (k k' : string) :
  getProp v k = Ok x -> exists y, getProp v k' = Ok y.
Proof.
  destruct v; simpl; intros H; try discriminate; eauto.
  destruct (k' =? "length")%string; eauto.
Qed.

(** ** Dialect A: empty and absent [all] *)

(** C3, as stated, fails: the rule [emptyAllRule] has an empty
    [conditions.all] and no [conditions.any], and the engine matches it
    against the sample alert and logs its "Matched rule" line. *)
Lemma empty_all_rule_is_matched :
  getProp emptyAllRule "conditions" = Ok (JObj [("all", JArr [])])
  /\ getProp (JObj [("all", JArr [])]) "all" = Ok (JArr [])
  /\ getProp (JObj [("all", JArr [])]) "any" = Ok JUndefined
  /\ EngineA.evaluateRules (alertObject malwareAlert) [emptyAllRule]
     = Ok {| logs := ["📘 Matched rule: empty_all"];
             matches := [emptyAllRule] |}.
Proof.
  repeat split.
Qed.

(** C3, amended.  A Dialect A rule whose [conditions.all] is an empty list
    matches every canonical alert: [matched] is set to true before a loop
    that runs no iteration, whatever [conditions.any] is; in a completed
    run the rule is among the matches and its "Matched rule" line is
    logged.  A rule does not match when [conditions.all] and
    [conditions.any] are both absent: the run of that rule alone logs only
    the "No rule matched" line. *)
Theorem conditions_all_empty_or_absent (a : CanonicalAlert) (rule c : jsval) :
  getProp rule "conditions" = Ok c ->
  (getProp c "all" = Ok (JArr []) ->
   EngineA.ruleMatched (alertObject a) rule = Ok true
   /\ forall pre post res,
        EngineA.evaluateRules (alertObject a) (pre ++ rule :: post)%list = Ok res ->
        In rule (matches res)
        /\ exists name, getProp rule "name" = Ok name
                        /\ In (matchedLine name) (logs res))
  /\ (getProp (jsOr c (JObj [])) "all" = Ok JUndefined ->
      getProp (jsOr c (JObj [])) "any" = Ok JUndefined ->
      EngineA.ruleMatched (alertObject a) rule = Ok false
      /\ EngineA.evaluateRules (alertObject a) [rule]
         = Ok {| logs := [noRuleMatched]; matches := [] |}).
Proof.
  intros Hc. split.
  - intros Hall.
    assert (Hm : EngineA.ruleMatched (alertObject a) rule = Ok true).
    { unfold EngineA.ruleMatched. rewrite Hc. cbn [bind].
      assert (Ht : jsOr c (JObj []) = c).
      { unfold jsOr. destruct c; simpl in Hall; try discriminate; reflexivity. }
      rewrite Ht, Hall. reflexivity. }
    split; [exact Hm|].
    intros pre post res Hrun.
    apply engineA_run in Hrun. destruct Hrun as [r [Hloop ->]].
    destruct (run_matched_member _ _ pre post rule _ _ Hloop Hm)
      as [Hin [ls [before [after [Hl Hlog]]]]].
    rewrite finishRun_nonempty by (intros E; rewrite E in Hin; inversion Hin).
    split; [exact Hin|].
    unfold EngineA.ruleLines in Hl.
    destruct (getProp rule "name") as [name|e] eqn:Hn; [|discriminate].
    exists name. split; [reflexivity|].
    cbn [bind] in Hl.
    destruct (getProp rule "actions") as [acts|e]; [|discriminate].
    cbn [bind] in Hl.
    destruct (EngineA.logActions (alertObject a) acts) as [als|e]; [|discriminate].
    inversion Hl; subst ls. rewrite Hlog.
    apply in_or_app. right. now left.
  - intros Hall Hany.
    assert (Hm : EngineA.ruleMatched (alertObject a) rule = Ok false).
    { unfold EngineA.ruleMatched. rewrite Hc. cbn [bind].
      rewrite Hall. cbn [bind]. rewrite Hany. reflexivity. }
    split; [exact Hm|].
    unfold EngineA.evaluateRules, EngineA.stepRule, forEach, matchLoopBody.
    rewrite Hm. reflexivity.
Qed.

Lemma conditions_all_empty_or_absent_witness :
  EngineA.ruleMatched (alertObject malwareAlert) emptyAllRule = Ok true
  /\ EngineA.evaluateRules (alertObject malwareAlert)
       [JObj [("name", JStr "no_conditions"); ("conditions", JObj [])]]
     = Ok {| logs := [noRuleMatched]; matches := [] |}.
Proof.
  split.
  - apply (proj1 (conditions_all_empty_or_absent malwareAlert emptyAllRule
                    (JObj [("all", JArr [])]) eq_refl) eq_refl).
  - apply (proj2 (conditions_all_empty_or_absent malwareAlert
                    (JObj [("name", JStr "no_conditions");
                           ("conditions", JObj [])])
                    (JObj []) eq_refl) eq_refl eq_refl).
Defined.

(** ** Dialect B: a rule without [if] *)




(** ** Both dialects in one array *)







(** ** Normalizer *)

Lemma getProp_nonNullish (v : jsval) (k : string) :
  nonNullish v -> exists x, getProp v k = Ok x.
Proof.
  intros [Hu Hn]. destruct v; simpl; try congruence; eauto.
  destruct (k =? "length")%string; eauto.
Qed.







(** Printing an integer and reading it back with [parseInt]. *)

Lemma digitsValue_acc (d : Decimal.uint) : forall acc : positive,
  digitsValue (Z.pos acc) (list_ascii_of_string (NilEmpty.string_of_uint d))
  = Z.pos (Pos.of_uint_acc d acc).
Proof.
  induction d; intros acc; cbn [NilEmpty.string_of_uint list_ascii_of_string
                                 digitsValue Pos.of_uint_acc];
    try reflexivity;
    match goal with
    | |- digitsValue ?x _ = _ =>
        match goal with
        | |- _ = Z.pos (Pos.of_uint_acc _ ?y) =>
            replace x with (Z.pos y)
              by (match goal with
                  | |- context [digitVal ?c] =>
                      let v := eval vm_compute in (digitVal c) in
                      change (digitVal c) with v
                  end; lia)
        end
    end; apply IHd.
Qed.

Lemma digitsValue_of_uint (d : Decimal.uint) :
  digitsValue 0 (list_ascii_of_string (NilEmpty.string_of_uint d))
  = Z.of_N (Pos.of_uint d).
Proof.
  induction d; cbn [NilEmpty.string_of_uint list_ascii_of_string
                    digitsValue Pos.of_uint]; try reflexivity;
    try (change (10 * 0 + digitVal _) with 0; exact IHd);
    match goal with
    | |- digitsValue ?x _ = Z.of_N (N.pos (Pos.of_uint_acc _ ?y)) =>
        change x with (Z.pos y); apply digitsValue_acc
    end.
Qed.

Lemma uint_chars_digits (d : Decimal.uint) :
  takeWhile isDigit (list_ascii_of_string (NilEmpty.string_of_uint d))
  = list_ascii_of_string (NilEmpty.string_of_uint d).
Proof.
  induction d; cbn [NilEmpty.string_of_uint list_ascii_of_string takeWhile];
    try reflexivity;
    match goal with
    | |- (if isDigit ?c then _ else _) = _ =>
        change (isDigit c) with true; cbv iota; f_equal; exact IHd
    end.
Qed.

Lemma uint_chars_head (d : Decimal.uint) :
  d <> Decimal.Nil ->
  exists c rest,
    list_ascii_of_string (NilEmpty.string_of_uint d) = c :: rest
    /\ isDigit c = true.
Proof.
  destruct d; intros H; try congruence;
    cbn [NilEmpty.string_of_uint list_ascii_of_string]; eauto.
Qed.

Lemma parseIntChars_digit (c : ascii) (rest : list ascii) :
  isDigit c = true ->
  parseIntChars (c :: rest)
  = Some (digitsValue 0 (takeWhile isDigit (c :: rest))).
Proof.
  destruct c as [[|] [|] [|] [|] [|] [|] [|] [|]]; intros H;
    vm_compute in H; try discriminate; reflexivity.
Qed.

Lemma parseIntChars_positive (p : positive) :
  parseIntChars (list_ascii_of_string
                   (NilEmpty.string_of_uint (Pos.to_uint p))) = Some (Z.pos p).
Proof.
  pose proof (DecimalPos.Unsigned.to_uint_nonnil p) as Hnn.
  destruct (uint_chars_head _ Hnn) as [c [rest [Hc Hd]]].
  pose proof (uint_chars_digits (Pos.to_uint p)) as Htw.
  pose proof (digitsValue_of_uint (Pos.to_uint p)) as Hv.
  rewrite DecimalPos.Unsigned.of_to in Hv.
  rewrite Hc in *. rewrite (parseIntChars_digit c rest Hd), Htw, Hv.
  reflexivity.
Qed.

Lemma parseIntChars_minus (cs : list ascii) :
  takeWhile isDigit cs = cs -> cs <> [] ->
  parseIntChars ("-"%char :: cs) = Some (- digitsValue 0 cs).
Proof.
  intros Htw Hne. unfold parseIntChars. cbn [dropWhile].
  change (isSpace "-") with false. cbv iota. rewrite Htw.
  destruct cs; [congruence | reflexivity].
Qed.

Lemma parseInt_number (n : Z) : parseInt (JNum n) = Some n.
Proof.
  unfold parseInt, toStringJS, numToString.
  pose proof DecimalPos.Unsigned.to_uint_nonnil as Hnn.
  assert (Hs : forall p, NilZero.string_of_uint (Pos.to_uint p)
                         = NilEmpty.string_of_uint (Pos.to_uint p)).
  { intros p. specialize (Hnn p). unfold NilZero.string_of_uint.
    destruct (Pos.to_uint p); try reflexivity; congruence. }
  destruct n as [|p|p]; cbn [Z.to_int NilZero.string_of_int].
  - reflexivity.
  - rewrite Hs. apply parseIntChars_positive.
  - rewrite Hs. cbn [list_ascii_of_string].
    rewrite parseIntChars_minus.
    + rewrite digitsValue_of_uint, DecimalPos.Unsigned.of_to. reflexivity.
    + apply uint_chars_digits.
    + destruct (uint_chars_head _ (Hnn p)) as [c [rest [Hc _]]].
      rewrite Hc. discriminate.
Qed.




(** C6.  The normalizer is not total: a payload whose severity is a number
    makes [normalized.severity.trim()] throw a [TypeError], and so does a
    [null] payload at its first property read. *)
Theorem normalize_throws_on_numeric_severity :
  normalizeSplunkAlert (JObj [("type", JStr "Malware"); ("severity", JNum 5)])
  = Throw "normalized.severity.trim is not a function"
  /\ normalizeSplunkAlert JNull
     = Throw "Cannot read properties of null (reading 'result')".
Proof.
  split; reflexivity.
Qed.

(** ** The matcher on the regular expressions of the evaluator *)

Lemma rmatch_lit (p : list ascii) (k : mstate -> option mstate) :
  forall st,
  rmatch (lit p) k st
  = if isPrefixOf p (rest st)
    then k {| before := (rev p ++ before st)%list;
              rest := skipn (length p) (rest st);
              caps := caps st |}
    else None.
Proof.
  induction p as [|c p IH]; intros [bef rst cps]; simpl.
  - reflexivity.
  - destruct rst as [|d rst]; [reflexivity|].
    destruct (Ascii.eqb_spec c d) as [->|Hne]; simpl.
    + rewrite IH. simpl. rewrite <- app_assoc. reflexivity.
    + reflexivity.
Qed.

Lemma isPrefixOf_app (p s : list ascii) : isPrefixOf p (p ++ s)%list = true.
Proof.
  induction p as [|c p IH]; simpl; [reflexivity|].
  rewrite Ascii.eqb_refl. exact IH.
Qed.

(** A star followed by a continuation that accepts every state cannot
    fail. *)
Lemma rmatch_star_total (r : regex) (k : mstate -> option mstate) (st : mstate) :
  (forall st', k st' <> None) -> rmatch (Star r) k st <> None.
Proof.
  intros Hk. cbn [rmatch].
  match goal with
  | |- context [rmatch r ?k' st] => destruct (rmatch r k' st)
  end; [discriminate | apply Hk].
Qed.

Lemma execFrom_lit_found (p : list ascii) (a b : list ascii) : forall bef,
  execFrom (lit p) bef (a ++ p ++ b)%list <> None.
Proof.
  induction a as [|c a IH]; intros bef.
  - simpl. destruct (p ++ b)%list eqn:E;
      unfold execFrom; fold execFrom; unfold matchAt; rewrite rmatch_lit;
      cbn [rest]; rewrite <- E, isPrefixOf_app; discriminate.
  - cbn [app execFrom].
    destruct (matchAt (lit p) bef (c :: a ++ p ++ b)%list);
      [discriminate | apply IH].
Qed.

Lemma isWord_isPathChar (c : ascii) : isWord c = true -> isPathChar c = true.
Proof.
  unfold isPathChar. intros ->. reflexivity.
Qed.

Lemma rmatch_Cat (r1 r2 : regex) (k : mstate -> option mstate) (st : mstate) :
  rmatch (Cat r1 r2) k st = rmatch r1 (rmatch r2 k) st.
Proof. reflexivity. Qed.

Lemma rmatch_Chr (p : ascii -> bool) (k : mstate -> option mstate) (st : mstate) :
  rmatch (Chr p) k st
  = match rest st with
    | c :: tl =>
        if p c
        then k {| before := c :: before st; rest := tl; caps := caps st |}
        else None
    | [] => None
    end.
Proof. reflexivity. Qed.

Lemma rmatch_Group (i : nat) (r : regex) (k : mstate -> option mstate)
    (st : mstate) :
  rmatch (Group i r) k st
  = rmatch r (fun st' => k (setCap i (consumed st st') st')) st.
Proof. reflexivity. Qed.

Lemma rmatch_WordB (k : mstate -> option mstate) (st : mstate) :
  rmatch WordB k st = if atWordBoundary st then k st else None.
Proof. reflexivity. Qed.

(** Where [/\bsteps\.\w+/] matches, [/\bsteps\.([\w.]+)/] matches too. *)
Lemma bareSteps_barePath (bef rst : list ascii) :
  matchAt reBareSteps bef rst <> None ->
  matchAt reBarePath bef rst <> None.
Proof.
  unfold matchAt, reBareSteps, reBarePath, Str, Plus. intros H.
  rewrite rmatch_Cat, rmatch_WordB in H |- *.
  destruct (atWordBoundary {| before := bef; rest := rst; caps := [] |});
    [|congruence].
  rewrite rmatch_Cat, rmatch_lit in H |- *. cbn [rest before caps] in H |- *.
  destruct (isPrefixOf (list_ascii_of_string "steps.") rst); [|congruence].
  rewrite rmatch_Cat, rmatch_Chr in H.
  rewrite rmatch_Group, rmatch_Cat, rmatch_Chr.
  cbn [rest before caps] in H |- *.
  destruct (skipn (length (list_ascii_of_string "steps.")) rst) as [|c tl];
    [congruence|].
  destruct (isWord c) eqn:Hw; [|congruence].
  rewrite (isWord_isPathChar c Hw).
  apply (rmatch_star_total (Chr isPathChar)). discriminate.
Qed.

(** The first replacement made by the bare-reference rewrite is in its
    output. *)
Lemma scan_wraps (fuel : nat) : forall bef rst,
  (length rst < fuel)%nat ->
  execFrom reBareSteps bef rst <> None ->
  exists pre m post,
    fst (scanFrom reBarePath (fun (_ : unit) m => (wrapOne m, tt))
                  fuel bef rst tt)
    = (pre ++ wrapOne m ++ post)%list.
Proof.
  induction fuel as [|fuel IH]; intros bef rst Hlen Hex; [lia|].
  cbn [scanFrom].
  destruct (matchAt reBarePath bef rst) as [st'|] eqn:Hm.
  - exists [], (infoOf bef st').
    destruct (length (rest st') <? length rst)%nat.
    + destruct (scanFrom reBarePath _ fuel (before st') (rest st') tt)
        as [more s2]. exists more. reflexivity.
    + destruct rst as [|c tl].
      * exists []. simpl. now rewrite app_nil_r.
      * destruct (scanFrom reBarePath _ fuel (c :: bef) tl tt) as [more s2].
        exists (c :: more). reflexivity.
  - assert (Hn : matchAt reBareSteps bef rst = None).
    { destruct (matchAt reBareSteps bef rst) eqn:E; [|reflexivity].
      exfalso. apply (bareSteps_barePath bef rst); [rewrite E; discriminate|].
      exact Hm. }
    destruct rst as [|c tl]; cbn [execFrom] in Hex; rewrite Hn in Hex;
      [congruence|].
    simpl in Hlen.
    destruct (IH (c :: bef) tl ltac:(lia) Hex) as [pre [m [post Heq]]].
    destruct (scanFrom reBarePath _ fuel (c :: bef) tl tt) as [more s2].
    simpl in Heq. subst more.
    exists (c :: pre), m, post. reflexivity.
Qed.

Lemma wrapBare_has_wrapped (s : string) :
  hasBareSteps s = true ->
  hasWrappedSteps (replaceAll reBarePath wrapOne s) = true.
Proof.
  unfold hasBareSteps, hasWrappedSteps, test, exec, replaceAll, replaceWith.
  intros Hb.
  destruct (scan_wraps (S (length (list_ascii_of_string s))) []
              (list_ascii_of_string s)) as [pre [m [post Heq]]].
  - lia.
  - destruct (execFrom reBareSteps [] (list_ascii_of_string s));
      [discriminate | discriminate].
  - destruct (scanFrom reBarePath _ _ [] (list_ascii_of_string s) tt)
      as [out st]. simpl in Heq. subst out. cbn [fst].
    rewrite list_ascii_of_string_of_list_ascii.
    unfold wrapOne. rewrite <- !app_assoc.
    pose proof (execFrom_lit_found (list_ascii_of_string "${steps.") pre
                  (getCap 1 (m_caps m) ++ ["}"%char] ++ post)%list []) as H.
    unfold reWrappedSteps, Str.
    match goal with
    | |- context [execFrom ?r ?b ?l] => destruct (execFrom r b l) eqn:E
    end; [reflexivity | exfalso; apply H; exact E].
Qed.

(** ** Expression evaluator *)

Lemma caught_nonempty (expression : jsval) (error evaluated : string) :
  evaluated <> "" ->
  caught expression error evaluated = Failure error (JStr evaluated).
Proof.
  intros Hne. unfold caught, jsOr, truthy.
  destruct (String.eqb_spec evaluated ""); [contradiction | reflexivity].
Qed.

(** The one replacement made in ["${steps.abuseipdb.score} >= 85"],
    whatever the callback. *)
Lemma replaceWith_score {S : Type} (f : S -> minfo -> list ascii * S) (init : S) :
  replaceWith reVariable f "${steps.abuseipdb.score} >= 85" init
  = let '(out, st) :=
      f init {| m_text := list_ascii_of_string "${steps.abuseipdb.score}";
                m_caps := [(1%nat, list_ascii_of_string "abuseipdb.score")];
                m_offset := 0 |} in
    (string_of_list_ascii (out ++ list_ascii_of_string " >= 85"), st).
Proof.
  vm_compute. destruct (f _ _). reflexivity.
Qed.

Lemma string_of_app_nonempty (out : list ascii) (c : ascii) (tl : list ascii) :
  string_of_list_ascii (out ++ c :: tl) <> "".
Proof.
  destruct out; simpl; discriminate.
Qed.

(** From the text of step 2 on, the original expression is used only by
    the [catch] clause, and only when [evaluated] is empty. *)
Lemma evaluateWrapped_score (jsEval : string -> outcome jsval)
    (e1 e2 steps enrichConfig : jsval) :
  evaluateWrapped jsEval e1 "${steps.abuseipdb.score} >= 85" steps enrichConfig
  = evaluateWrapped jsEval e2 "${steps.abuseipdb.score} >= 85" steps enrichConfig.
Proof.
  unfold evaluateWrapped, substitute. rewrite replaceWith_score.
  destruct (substituteOne steps enrichConfig _ _) as [out st].
  destruct (failure st).
  - rewrite !caught_nonempty by discriminate. reflexivity.
  - pose proof (string_of_app_nonempty out " "%char
                  (list_ascii_of_string ">= 85")) as Hne.
    change (" "%char :: list_ascii_of_string ">= 85")
      with (list_ascii_of_string " >= 85") in Hne.
    destruct (matchAll reVariable _);
      [|rewrite !caught_nonempty by exact Hne; reflexivity].
    destruct (matchAll reBareSteps _);
      [|rewrite !caught_nonempty by exact Hne; reflexivity].
    destruct (jsEval _); [reflexivity|].
    rewrite !caught_nonempty by exact Hne. reflexivity.
Qed.

(** C7.  The bare expression ["steps.abuseipdb.score >= 85"] and the
    wrapped expression ["${steps.abuseipdb.score >= 85}"] evaluate to the
    same result against every step-results context (and every enrich
    configuration); the bare-reference rewrite of step 2 is idempotent, and
    it leaves a text that already holds a wrapped reference unchanged. *)
Theorem rewrapping_idempotent :
  (forall (jsEval : string -> outcome jsval) (steps enrichConfig : jsval),
     evaluateExpressionUnified jsEval (JStr "steps.abuseipdb.score >= 85")
                               steps enrichConfig
     = evaluateExpressionUnified jsEval (JStr "${steps.abuseipdb.score >= 85}")
                                 steps enrichConfig)
  /\ (forall s, wrapBareSteps (wrapBareSteps s) = wrapBareSteps s)
  /\ (forall s, hasWrappedSteps s = true -> wrapBareSteps s = s).
Proof.
  split; [|split].
  - intros jsEval steps enrichConfig. unfold evaluateExpressionUnified.
    cbn [String.eqb Ascii.eqb Bool.eqb].
    assert (H1 : wrapBareSteps (stripWrapper (trim "steps.abuseipdb.score >= 85"))
                 = "${steps.abuseipdb.score} >= 85") by (vm_compute; reflexivity).
    assert (H2 : wrapBareSteps (stripWrapper (trim "${steps.abuseipdb.score >= 85}"))
                 = "${steps.abuseipdb.score} >= 85") by (vm_compute; reflexivity).
    rewrite H1, H2. apply evaluateWrapped_score.
  - intros s.
    destruct (hasBareSteps s && negb (hasWrappedSteps s)) eqn:E.
    + assert (Hs : wrapBareSteps s = replaceAll reBarePath wrapOne s)
        by (unfold wrapBareSteps; rewrite E; reflexivity).
      rewrite Hs. apply andb_prop in E. destruct E as [Hb _].
      unfold wrapBareSteps. rewrite (wrapBare_has_wrapped s Hb).
      rewrite andb_false_r. reflexivity.
    + assert (Hs : wrapBareSteps s = s)
        by (unfold wrapBareSteps; rewrite E; reflexivity).
      rewrite !Hs. reflexivity.
  - intros s Hw. unfold wrapBareSteps. rewrite Hw, andb_false_r. reflexivity.
Qed.

Lemma rewrapping_idempotent_witness :
  wrapBareSteps "${steps.abuseipdb.score} >= 85 && steps.vt_hash.max_score > 3"
  = "${steps.abuseipdb.score} >= 85 && steps.vt_hash.max_score > 3".
Proof.
  apply (proj2 (proj2 rewrapping_idempotent)). vm_compute. reflexivity.
Defined.

(** C1.  The unresolved reference of the specification's example is
    replaced by [null] in step 3, so the check of step 4 finds no
    [${steps....}] token left and the text ["null >= 70"] goes on to be
    evaluated: no "Unresolved variables" failure is produced, the missing
    reference only shows in [missingVars] (the hint collected for the
    disabled VirusTotal URL source is dropped). *)
Theorem unresolved_reference_is_evaluated_as_null
    (jsEval : string -> outcome jsval) :
  evaluateExpressionUnified jsEval (JStr "${steps.vt_url.max_score >= 70}")
    (JObj []) (JObj [("vt_url", JBool false)])
  = match jsEval "null >= 70" with
    | Ok result =>
        Success result "null >= 70" ["${steps.vt_url.max_score}"] []
    | Throw e =>
        Failure (evaluationFailedMessage e "null >= 70") (JStr "null >= 70")
    end.
Proof.
  vm_compute. destruct (jsEval _); reflexivity.
Qed.

(** ** Instance generator *)

(** C4, as stated, fails.  With exactly one enrichment flag enabled the
    collect step of [generateInstanceYaml] has the one-element list
    [["vt_hash"]] as its [next], not the id itself; the older
    [generateYaml] gives the first id alone when two flags are enabled. *)
Lemma single_enrich_next_is_a_list :
  enrichStepIds (mkEnrich true false false) = ["vt_hash"]
  /\ nextOf (hd JNull (buildInstance (phishingConfig (mkEnrich true false false))))
     = Ok (JArr [JStr "vt_hash"])
  /\ nextOf (hd JNull (GenerateYamlTs.generateYamlSteps
                         (phishingConfig (mkEnrich true true false))))
     = Ok (JStr "vt_hash").
Proof.
  repeat split.
Qed.

(** C4, amended.  For every configuration the built instance starts with
    the collect step, followed by one step per enabled enrichment flag in
    the order vt_hash, vt_url, abuseipdb, followed by the evaluate step.
    The collect step's [next] is the ordered list of all enabled enrich
    step ids whenever at least one flag is enabled (a one-element list for
    one flag) and ["evaluate"] when none is; the [next] of every enrich
    step, the last one included, is ["evaluate"]. *)
Theorem collect_next_fan_out (config : PlaybookConfig) :
  exists first enriched rest,
    buildInstance config = (first :: enriched ++ rest)%list
    /\ idOf first = Ok (JStr "collect")
    /\ map idOf enriched
       = map (fun i => Ok (JStr i)) (enrichStepIds (enrich config))
    /\ nextOf first
       = Ok match enrichStepIds (enrich config) with
            | [] => JStr "evaluate"
            | ids => JArr (map JStr ids)
            end
    /\ Forall (fun s => nextOf s = Ok (JStr "evaluate")) enriched
    /\ exists ev more, rest = ev :: more /\ idOf ev = Ok (JStr "evaluate").
Proof.
  exists (setProp (collectStep config) "next" (collectNext (enrich config))),
         (enrichSteps (enrich config)),
         [ evaluateStep config;
           actionGroup "high" (trueActions config);
           actionGroup "low" (falseActions config) ].
  split; [reflexivity|].
  destruct config as [nm col [h u a] ex ta fa]; cbn [enrich].
  destruct h, u, a; repeat split;
    try (repeat constructor);
    eexists; eexists; split; reflexivity.
Qed.

(** ** Serializer and anonymizer on input that is not text *)




(** ** Serialize, then anonymize *)

(** C5, as stated, fails.  In the instance of [phishingConfig] the sender
    line holds the literal address; in the template that line holds the
    sender placeholder, not an empty quoted string, and the address inside
    the [${...}] expression of the evaluate step is replaced as well. *)
Lemma sender_line_is_not_blanked :
  let instance := generateInstanceYaml (phishingConfig (mkEnrich false false false)) in
  let template := generateTemplateYaml (JStr instance) in
  nth 6 (lines instance) "" = "    sender: attacker@evil.com"
  /\ nth 6 (lines template) "" = "    sender: ${alert.result.sender}"
  /\ nth 6 (lines template) "" <> "    sender: " ++ dquote ++ dquote
  /\ nth 14 (lines instance) ""
     = "    expression: " ++ dquote
       ++ "${steps.collect.sender == 'attacker@evil.com'}" ++ dquote
  /\ nth 14 (lines template) ""
     = "    expression: " ++ dquote
       ++ "${steps.collect.sender == '${alert.result.sender}'}" ++ dquote.
Proof.
  vm_compute. repeat split. discriminate.
Qed.

(** C5, amended.  Whatever the enrich flags, the literal address that is
    the plain scalar value of the [sender:] mapping line of the serialized
    instance is replaced by the placeholder [${alert.result.sender}] in
    the template, and the line pass blanks the plain text of the
    [subject:] line.  In general every e-mail match is replaced by the
    sender or the recipient placeholder, and the line pass leaves every
    line that holds [${] as it is. *)
Theorem sender_line_gets_placeholder (e : EnrichFlags) :
  (let instance := generateInstanceYaml (phishingConfig e) in
   let template := generateTemplateYaml (JStr instance) in
   nth 6 (lines instance) "" = "    sender: attacker@evil.com"
   /\ nth 6 (lines template) "" = "    sender: ${alert.result.sender}"
   /\ nth 8 (lines instance) "" = "    subject: Important invoice attached"
   /\ nth 8 (lines template) "" = "    subject: " ++ dquote ++ dquote)
  /\ (forall str m,
        emailPlaceholder str m = list_ascii_of_string "${alert.result.sender}"
        \/ emailPlaceholder str m
           = list_ascii_of_string "${alert.result.recipient}")
  /\ (forall line, includes "${" line = true -> processLine line = line).
Proof.
  split; [|split].
  - destruct e as [[|] [|] [|]]; vm_compute; repeat split.
  - intros str m. unfold emailPlaceholder.
    destruct (has "sender" _ || has "from" _); [now left|].
    destruct (has "recipient" _ || has "to" _); [now right | now left].
  - intros line H. unfold processLine, isExpressionText. rewrite H.
    reflexivity.
Qed.

Lemma sender_line_gets_placeholder_witness :
  processLine "    sender: ${alert.result.sender}"
  = "    sender: ${alert.result.sender}".
Proof.
  apply (proj2 (proj2 (sender_line_gets_placeholder (mkEnrich false false false)))).
  reflexivity.
Defined.

(** * Further properties *)

(** ** Normalizer: invariants, envelope, normalizing twice *)

Lemma normalize_unfold (payload : jsval) :
  normalizeSplunkAlert payload
  = (data <- unwrapResult payload ;; normalizeData data payload).
Proof. reflexivity. Qed.

Lemma normalizeData_raw (data raw1 raw2 : jsval) :
  normalizeData data raw2 = mapOutcome (withRaw raw2) (normalizeData data raw1).
Proof.
  unfold normalizeData, bind, mapOutcome.
  repeat match goal with
         | |- context [match ?m with Ok _ => _ | Throw _ => _ end] =>
             lazymatch m with
             | context [match _ with Ok _ => _ | Throw _ => _ end] => fail
             | _ => destruct m; try reflexivity
             end
         end.
Qed.

Lemma firstTruthy_cases (reads : list (outcome jsval)) (dflt v : jsval) :
  firstTruthy reads dflt = Ok v -> truthy v = true \/ v = dflt.
Proof.
  induction reads as [|r reads IH]; simpl; intros H.
  - inversion H. now right.
  - destruct r as [x|e]; simpl in H; [|discriminate].
    destruct (truthy x) eqn:Hx; [inversion H; subst; now left | auto].
Qed.

Lemma finishSeverity_ok (sev sev' : jsval) :
  finishSeverity sev = Ok sev' ->
  exists s, sev' = JStr s /\ trim s <> "".
Proof.
  unfold finishSeverity. destruct (truthy sev) eqn:Ht; simpl.
  - destruct sev; try discriminate.
    destruct (String.eqb_spec (trim s) ""); intros H; inversion H; subst.
    + exists "Medium". split; [reflexivity | discriminate].
    + eauto.
  - intros H; inversion H; subst.
    exists "Medium". split; [reflexivity | discriminate].
Qed.

Lemma eventCountOf_nonneg (operand : jsval) : 0 <= eventCountOf operand.
Proof.
  unfold eventCountOf. destruct (parseInt operand) as [n|]; [|lia].
  destruct (Z.ltb_spec n 0); lia.
Qed.

(** What a returned alert tells about the record it was read from. *)
Lemma normalizeData_inv (data raw : jsval) (a : CanonicalAlert) :
  normalizeData data raw = Ok a ->
  truthyOrNull (a_type a) /\ truthyOrNull (a_machine a)
  /\ truthyOrNull (a_src_ip a) /\ truthyOrNull (a_user a)
  /\ truthyOrNull (a_timestamp a)
  /\ (exists sev, severityOperand data = Ok sev
                  /\ finishSeverity sev = Ok (a_severity a))
  /\ (exists operand, countOperand data = Ok operand
                      /\ a_event_count a = eventCountOf operand)
  /\ a_raw a = raw.
Proof.
  unfold normalizeData. intros H.
  repeat match type of H with
         | bind ?m _ = Ok _ =>
             let E := fresh "E" in
             destruct m eqn:E; cbn [bind] in H; [|discriminate]
         end.
  inversion H; subst; cbn.
  repeat match goal with
         | E : firstTruthy _ JNull = Ok _ |- _ =>
             apply firstTruthy_cases in E
         end.
  unfold truthyOrNull. repeat split; eauto.
Qed.

Lemma normalize_result_fields (payload : jsval) (a : CanonicalAlert) :
  normalizeSplunkAlert payload = Ok a ->
  0 <= a_event_count a
  /\ (exists s, a_severity a = JStr s /\ trim s <> "")
  /\ truthyOrNull (a_type a) /\ truthyOrNull (a_machine a)
  /\ truthyOrNull (a_src_ip a) /\ truthyOrNull (a_user a)
  /\ truthyOrNull (a_timestamp a)
  /\ a_raw a = payload.
Proof.
  rewrite normalize_unfold.
  destruct (unwrapResult payload) as [data|e]; cbn [bind]; [|discriminate].
  intros H. apply normalizeData_inv in H.
  destruct H as (Ht & Hm & Hi & Hu & Hts & (sev & _ & Hsev) & (op & _ & Hc) & Hr).
  rewrite Hc. repeat split; auto using eventCountOf_nonneg.
  apply (finishSeverity_ok _ _ Hsev).
Qed.

(** X1.  Every alert the normalizer returns has a severity that is a string
    with something else than white space in it, a count that is not
    negative, fields that are truthy or [null], and the payload itself as
    [raw]. *)
Theorem normalized_alert_invariants (payload : jsval) (a : CanonicalAlert) :
  normalizeSplunkAlert payload = Ok a ->
  0 <= a_event_count a
  /\ (exists s, a_severity a = JStr s /\ trim s <> "")
  /\ truthyOrNull (a_type a) /\ truthyOrNull (a_machine a)
  /\ truthyOrNull (a_src_ip a) /\ truthyOrNull (a_user a)
  /\ truthyOrNull (a_timestamp a)
  /\ a_raw a = payload.
Proof.
  exact (normalize_result_fields payload a).
Qed.

Lemma normalized_alert_invariants_witness :
  0 <= 12
  /\ (exists s, JStr "Medium" = JStr s /\ trim s <> "")
  /\ truthyOrNull JNull /\ truthyOrNull (JStr "PC-01")
  /\ truthyOrNull JNull /\ truthyOrNull JNull /\ truthyOrNull JNull
  /\ JObj [("hostname", JStr "PC-01"); ("severity", JStr "  ");
           ("count", JStr "12 events")]
     = JObj [("hostname", JStr "PC-01"); ("severity", JStr "  ");
             ("count", JStr "12 events")].
Proof.
  exact (normalized_alert_invariants
           (JObj [("hostname", JStr "PC-01"); ("severity", JStr "  ");
                  ("count", JStr "12 events")])
           {| a_type := JNull; a_severity := JStr "Medium";
              a_machine := JStr "PC-01"; a_src_ip := JNull; a_user := JNull;
              a_event_count := 12; a_timestamp := JNull;
              a_raw := JObj [("hostname", JStr "PC-01");
                             ("severity", JStr "  ");
                             ("count", JStr "12 events")] |}
           eq_refl).
Defined.



(** X3.  The [result] envelope is transparent: a payload whose [result] is
    a truthy record that has no truthy [result] of its own is normalized to
    the alert of that record, with the payload as [raw]; if the record
    makes the normalizer throw, so does the payload, with the same
    message. *)
Theorem result_envelope_transparent (payload data inner : jsval) :
  getProp payload "result" = Ok data ->
  truthy data = true ->
  getProp data "result" = Ok inner ->
  truthy inner = false ->
  normalizeSplunkAlert payload
  = mapOutcome (withRaw payload) (normalizeSplunkAlert data).
Proof.
  intros Hp Ht Hd Hi. rewrite !normalize_unfold.
  unfold unwrapResult, jsOr. rewrite Hp, Hd. cbn [bind]. rewrite Ht, Hi.
  cbn [bind]. apply normalizeData_raw.
Qed.

Lemma result_envelope_transparent_witness :
  normalizeSplunkAlert
    (JObj [("sid", JStr "s1");
           ("result", JObj [("type", JStr "Malware"); ("count", JNum 4)])])
  = mapOutcome
      (withRaw (JObj [("sid", JStr "s1");
                      ("result", JObj [("type", JStr "Malware");
                                       ("count", JNum 4)])]))
      (normalizeSplunkAlert (JObj [("type", JStr "Malware"); ("count", JNum 4)])).
Proof.
  apply (result_envelope_transparent _
           (JObj [("type", JStr "Malware"); ("count", JNum 4)]) JUndefined);
    reflexivity.
Defined.

Lemma trim_empty : trim "" = "".
Proof. reflexivity. Qed.



(** ** Rule engines: the shape of a run *)

Section RunAlgebra.

Variable ruleMatched : jsval -> outcome bool.
Variable ruleLines : jsval -> outcome (list string).

Let body := matchLoopBody ruleMatched ruleLines.
Let empty := {| logs := []; matches := [] |}.

Lemma forEach_app {A S : Type} (f : S -> A -> outcome S) (xs ys : list A) :
  forall s, forEach f (xs ++ ys)%list s = (s' <- forEach f xs s ;; forEach f ys s').
Proof.
  induction xs as [|x xs IH]; intros s; simpl; [reflexivity|].
  destruct (f s x); simpl; [apply IH | reflexivity].
Qed.

Lemma appendRuns_assoc (a b c : EngineResult) :
  appendRuns (appendRuns a b) c = appendRuns a (appendRuns b c).
Proof.
  unfold appendRuns; simpl. now rewrite <- !app_assoc.
Qed.

Lemma mapOutcome_compose {A B C : Type} (f : A -> B) (g : B -> C)
    (m : outcome A) :
  mapOutcome g (mapOutcome f m) = mapOutcome (fun x => g (f x)) m.
Proof. destruct m; reflexivity. Qed.

Lemma mapOutcome_ext {A B : Type} (f g : A -> B) (m : outcome A) :
  (forall x, f x = g x) -> mapOutcome f m = mapOutcome g m.
Proof. intros H. destruct m; simpl; [now rewrite H | reflexivity]. Qed.

(** The loop started from an accumulator is the loop started from nothing,
    put after the accumulator. *)
Lemma loop_from_acc (rules : list jsval) : forall acc,
  forEach body rules acc = mapOutcome (appendRuns acc) (forEach body rules empty).
Proof.
  induction rules as [|r rules IH]; intros acc; simpl.
  - unfold appendRuns; simpl. rewrite !app_nil_r. now destruct acc.
  - unfold body at 1 3, matchLoopBody.
    destruct (ruleMatched r) as [[|]|e]; simpl; try reflexivity.
    + destruct (ruleLines r) as [ls|e]; simpl; [|reflexivity].
      rewrite IH. symmetry. rewrite IH. rewrite mapOutcome_compose.
      apply mapOutcome_ext. intros x. unfold appendRuns; simpl.
      now rewrite <- !app_assoc.
    + apply IH.
Qed.

Lemma loop_no_match_no_lines (rules : list jsval) (r : EngineResult) :
  forEach body rules empty = Ok r -> matches r = [] -> logs r = [].
Proof.
  intros H Hm. apply run_inv in H. destruct H as [Hmat [lss [Hf Hlog]]].
  simpl in *. rewrite Hm in Hmat. rewrite <- Hmat in Hf. inversion Hf; subst.
  exact Hlog.
Qed.

Lemma matchLines_finishRun (rules : list jsval) (r : EngineResult) :
  forEach body rules empty = Ok r -> matchLines (finishRun r) = logs r.
Proof.
  intros H. unfold matchLines, finishRun.
  destruct (matches r) eqn:E; simpl.
  - symmetry. apply (loop_no_match_no_lines rules r H E).
  - rewrite E. reflexivity.
Qed.

(** A run over [rules1 ++ rules2] is the run over [rules1] and the run over
    [rules2], combined; it throws where the first of them throws. *)
Lemma run_app (rules1 rules2 : list jsval) :
  (r <- forEach body (rules1 ++ rules2)%list empty ;; Ok (finishRun r))
  = (a <- (r1 <- forEach body rules1 empty ;; Ok (finishRun r1)) ;;
     b <- (r2 <- forEach body rules2 empty ;; Ok (finishRun r2)) ;;
     Ok (combineRuns a b)).
Proof.
  rewrite forEach_app.
  destruct (forEach body rules1 empty) as [r1|e] eqn:H1; cbn [bind];
    [|reflexivity].
  rewrite loop_from_acc.
  destruct (forEach body rules2 empty) as [r2|e] eqn:H2; cbn [bind mapOutcome];
    [|reflexivity].
  unfold combineRuns.
  rewrite (matchLines_finishRun _ _ H1), (matchLines_finishRun _ _ H2).
  rewrite !finishRun_matches. reflexivity.
Qed.

(** The log of a finished run. *)
Lemma run_logs (rules : list jsval) (r : EngineResult) :
  (forall x ls, ruleLines x = Ok ls -> ls <> []) ->
  forEach body rules empty = Ok r ->
  matches (finishRun r) = filter (fun x => okTrue (ruleMatched x)) rules
  /\ (exists lss,
        Forall2 (fun x ls => ruleLines x = Ok ls) (matches (finishRun r)) lss
        /\ logs (finishRun r)
           = match matches (finishRun r) with
             | [] => [noRuleMatched]
             | _ => concat lss
             end)
  /\ logs (finishRun r) <> [].
Proof.
  intros Hne H. pose proof (run_inv _ _ _ _ _ H) as [Hmat [lss [Hf Hlog]]].
  simpl in Hmat, Hlog. rewrite finishRun_matches.
  split; [exact Hmat|]. rewrite <- Hmat in Hf.
  unfold finishRun. destruct (matches r) as [|m ms] eqn:E.
  - inversion Hf; subst. simpl in Hlog. rewrite Hlog. cbn.
    split; [|discriminate]. exists []. split; [constructor | reflexivity].
  - split; [exists lss; split; [exact Hf | exact Hlog]|].
    rewrite Hlog. inversion Hf as [|x ls xs lss' Hx Hrest]; subst.
    simpl. specialize (Hne _ _ Hx). destruct ls; [congruence | discriminate].
Qed.

End RunAlgebra.

Lemma ruleLinesA_nonempty (n x : jsval) (ls : list string) :
  EngineA.ruleLines n x = Ok ls -> ls <> [].
Proof.
  unfold EngineA.ruleLines, bind.
  destruct (getProp x "name"); [|discriminate].
  destruct (getProp x "actions"); [|discriminate].
  destruct (EngineA.logActions n a0); [|discriminate].
  intros H; inversion H; discriminate.
Qed.

Lemma ruleLinesB_nonempty (n x : jsval) (ls : list string) :
  EngineB.ruleLines n x = Ok ls -> ls <> [].
Proof.
  unfold EngineB.ruleLines, bind.
  destruct (getProp x "name"); [|discriminate].
  destruct (getProp x "then"); [|discriminate].
  destruct (EngineB.logActions n a0); [|discriminate].
  intros H; inversion H; discriminate.
Qed.

(** X5.  In both engines a completed run selects exactly the rules whose
    matched flag is true, in declaration order; its log is the lines of
    the selected rules in that order, or the single "No rule matched" line
    when nothing is selected; the log is never empty. *)
Theorem run_selects_in_order (normalized : jsval) (rules : list jsval) :
  (forall res,
     EngineA.evaluateRules normalized rules = Ok res ->
     matches res = filter (fun x => okTrue (EngineA.ruleMatched normalized x)) rules
     /\ (exists lss,
           Forall2 (fun x ls => EngineA.ruleLines normalized x = Ok ls)
                   (matches res) lss
           /\ logs res = match matches res with
                         | [] => [noRuleMatched]
                         | _ => concat lss
                         end)
     /\ logs res <> [])
  /\ (forall res,
        EngineB.evaluateRules normalized rules = Ok res ->
        matches res = filter (fun x => okTrue (EngineB.ruleMatched normalized x)) rules
        /\ (exists lss,
              Forall2 (fun x ls => EngineB.ruleLines normalized x = Ok ls)
                      (matches res) lss
              /\ logs res = match matches res with
                            | [] => [noRuleMatched]
                            | _ => concat lss
                            end)
        /\ logs res <> []).
Proof.
  split; intros res H.
  - apply engineA_run in H. destruct H as [r [Hloop ->]].
    apply (run_logs _ _ rules r (ruleLinesA_nonempty normalized) Hloop).
  - apply engineB_run in H. destruct H as [r [Hloop ->]].
    apply (run_logs _ _ rules r (ruleLinesB_nonempty normalized) Hloop).
Qed.

(** X6.  Rule arrays compose: in both engines the run over
    [rules1 ++ rules2] is obtained from the runs over [rules1] and over
    [rules2], by putting matches and match lines one after the other (the
    "No rule matched" line staying only when neither run matched); it
    throws exactly where the first of the two runs that throws does. *)
Theorem run_over_concatenation (normalized : jsval) (rules1 rules2 : list jsval) :
  EngineA.evaluateRules normalized (rules1 ++ rules2)%list
  = (a <- EngineA.evaluateRules normalized rules1 ;;
     b <- EngineA.evaluateRules normalized rules2 ;;
     Ok (combineRuns a b))
  /\ EngineB.evaluateRules normalized (rules1 ++ rules2)%list
     = (a <- EngineB.evaluateRules normalized rules1 ;;
        b <- EngineB.evaluateRules normalized rules2 ;;
        Ok (combineRuns a b)).
Proof.
  split.
  - apply (run_app (EngineA.ruleMatched normalized) (EngineA.ruleLines normalized)).
  - apply (run_app (EngineB.ruleMatched normalized) (EngineB.ruleLines normalized)).
Qed.

(** ** Dialect A: conditions *)

Lemma allHold_true_iff (cs : list jsval) (n : jsval) :
  EngineA.allHold cs n = Ok true
  <-> Forall (fun c => EngineA.evaluateCondition c n = Ok true) cs.
Proof.
  induction cs as [|c cs IH]; simpl.
  - split; [constructor | reflexivity].
  - destruct (EngineA.evaluateCondition c n) as [[|]|e] eqn:E; simpl.
    + rewrite IH. split; [now constructor | now inversion 1].
    + split; [discriminate | inversion 1; congruence].
    + split; [discriminate | inversion 1; congruence].
Qed.

Lemma anyHolds_true_iff (cs : list jsval) (n : jsval) :
  EngineA.anyHolds cs n = Ok true
  <-> exists pre c post,
        cs = (pre ++ c :: post)%list
        /\ Forall (fun x => EngineA.evaluateCondition x n = Ok false) pre
        /\ EngineA.evaluateCondition c n = Ok true.
Proof.
  induction cs as [|c cs IH]; simpl.
  - split; [discriminate|]. intros (pre & c & post & H & _).
    destruct pre; discriminate.
  - destruct (EngineA.evaluateCondition c n) as [[|]|e] eqn:E; simpl.
    + split; [|reflexivity]. intros _. exists [], c, cs. repeat split; auto.
    + rewrite IH. split.
      * intros (pre & x & post & -> & Hp & Hx).
        exists (c :: pre), x, post. repeat split; auto.
      * intros (pre & x & post & Hcs & Hp & Hx).
        destruct pre as [|p pre]; simpl in Hcs; inversion Hcs; subst;
          [congruence|].
        inversion Hp; subst. exists pre, x, post. repeat split; auto.
    + split; [discriminate|].
      intros (pre & x & post & Hcs & Hp & Hx).
      destruct pre as [|p pre]; simpl in Hcs; inversion Hcs; subst;
        [congruence | inversion Hp; congruence].
Qed.

(** X7.  A Dialect A rule whose [conditions.all] is an array matches
    exactly when every condition of it holds, and [conditions.any] is not
    looked at; a rule with no array under [all] and an array under [any]
    matches exactly when one of its conditions holds and all conditions
    before it are false (a condition that throws before it makes the run
    throw). *)
Theorem conditions_all_any (normalized rule c : jsval) (cs : list jsval) :
  getProp rule "conditions" = Ok c ->
  (getProp (jsOr c (JObj [])) "all" = Ok (JArr cs) ->
   (EngineA.ruleMatched normalized rule = Ok true
    <-> Forall (fun x => EngineA.evaluateCondition x normalized = Ok true) cs))
  /\ (forall all,
        getProp (jsOr c (JObj [])) "all" = Ok all -> isArray all = false ->
        getProp (jsOr c (JObj [])) "any" = Ok (JArr cs) ->
        (EngineA.ruleMatched normalized rule = Ok true
         <-> exists pre x post,
               cs = (pre ++ x :: post)%list
               /\ Forall (fun y => EngineA.evaluateCondition y normalized = Ok false) pre
               /\ EngineA.evaluateCondition x normalized = Ok true)).
Proof.
  intros Hc. split.
  - intros Hall. unfold EngineA.ruleMatched. rewrite Hc. cbn [bind].
    rewrite Hall. cbn [bind]. apply allHold_true_iff.
  - intros all Hall Hna Hany. unfold EngineA.ruleMatched. rewrite Hc.
    cbn [bind]. rewrite Hall. cbn [bind].
    destruct all; try discriminate; rewrite Hany; cbn [bind];
      apply anyHolds_true_iff.
Qed.

Lemma conditions_all_any_witness :
  EngineA.ruleMatched (alertObject malwareAlert) bruteForceRuleA = Ok true
  <-> Forall (fun x => EngineA.evaluateCondition x (alertObject malwareAlert)
                       = Ok true)
        [ JObj [("field", JStr "alert.type"); ("operator", JStr "equals");
                ("value", JStr "Brute Force")];
          JObj [("field", JStr "alert.event_count");
                ("operator", JStr "greater_than"); ("value", JNum 10)] ].
Proof.
  apply (proj1 (conditions_all_any (alertObject malwareAlert) bruteForceRuleA
                  _ _ eq_refl) eq_refl).
Defined.

Lemma evaluateCondition_string_field (c n f o v : jsval) (s : string) :
  getProp c "field" = Ok f -> jsOr f (JStr "") = JStr s ->
  getProp c "operator" = Ok o -> getProp c "value" = Ok v ->
  EngineA.evaluateCondition c n
  = (alertValue <- alertValueOf s n ;;
     match jsOr o (JStr "") with
     | JStr "equals" => Ok (strictEq alertValue v)
     | JStr "greater_than" =>
         Ok (EngineA.numericOp (fun x y => negb (Qle_bool x y)) alertValue v)
     | JStr "less_than" =>
         Ok (EngineA.numericOp (fun x y => negb (Qle_bool y x)) alertValue v)
     | JStr "greater_than_or_equal" =>
         Ok (EngineA.numericOp (fun x y => Qle_bool y x) alertValue v)
     | JStr "less_than_or_equal" =>
         Ok (EngineA.numericOp (fun x y => Qle_bool x y) alertValue v)
     | JStr "contains" =>
         match alertValue, v with
         | JStr a, JStr b => Ok (includes b a)
         | _, _ => Ok false
         end
     | JStr "not_equals" => Ok (negb (strictEq alertValue v))
     | _ => Ok false
     end).
Proof.
  intros Hf Hs Ho Hv. unfold EngineA.evaluateCondition.
  rewrite Hf, Ho, Hv. cbn [bind]. rewrite Hs. reflexivity.
Qed.

Lemma alertValueOf_total (s : string) (n : jsval) :
  nonNullish n -> exists x, alertValueOf s n = Ok x.
Proof.
  intros Hn. unfold alertValueOf. destruct (String.prefix "alert." s); eauto.
  apply getProp_nonNullish, Hn.
Qed.

Lemma evaluateCondition_total (c n f : jsval) :
  nonNullish n ->
  getProp c "field" = Ok f ->
  truthy f = false \/ (exists s, f = JStr s) ->
  exists b, EngineA.evaluateCondition c n = Ok b.
Proof.
  intros Hn Hf Hcase.
  destruct (getProp_other_key _ _ _ "operator" Hf) as [o Ho].
  destruct (getProp_other_key _ _ _ "value" Hf) as [v Hv].
  assert (Hs : exists s, jsOr f (JStr "") = JStr s).
  { unfold jsOr. destruct Hcase as [Ht | [s ->]].
    - rewrite Ht. eauto.
    - destruct (truthy (JStr s)); eauto. }
  destruct Hs as [s Hs].
  rewrite (evaluateCondition_string_field c n f o v s Hf Hs Ho Hv).
  destruct (alertValueOf_total s n Hn) as [x ->]. cbn [bind].
  destruct (jsOr o (JStr "")) as [| |b|z|op|xs|fs]; eauto.
  repeat match goal with
         | |- context [match ?t with EmptyString => _ | String _ _ => _ end] =>
             destruct t
         | |- context [match ?a with Ascii _ _ _ _ _ _ _ _ => _ end] =>
             destruct a
         | |- context [if ?b then _ else _] => destruct b
         | |- context [match ?x with JStr _ => _ | _ => _ end] => destruct x
         end; eauto.
Qed.

(** X8.  A condition is evaluated without an exception exactly when it is
    not [null] or [undefined] and its [field] is a string or falsy: an
    unknown operator, a missing value or a field the alert does not have
    never throw. *)
Theorem evaluateCondition_returns_iff (c n : jsval) :
  nonNullish n ->
  ((exists b, EngineA.evaluateCondition c n = Ok b)
   <-> exists f, getProp c "field" = Ok f
                 /\ (truthy f = false \/ exists s, f = JStr s)).
Proof.
  intros Hn. split.
  - intros [b Hb]. unfold EngineA.evaluateCondition in Hb.
    destruct (getProp c "field") as [f|e] eqn:Hf; cbn [bind] in Hb;
      [|discriminate].
    exists f. split; [reflexivity|].
    destruct (getProp c "operator") as [o|e]; cbn [bind] in Hb; [|discriminate].
    destruct (getProp c "value") as [v|e]; cbn [bind] in Hb; [|discriminate].
    unfold jsOr in Hb. destruct (truthy f) eqn:Ht; [|now left].
    right. destruct f; try discriminate. eauto.
  - intros (f & Hf & Hcase). exact (evaluateCondition_total c n f Hn Hf Hcase).
Qed.

Lemma evaluateCondition_returns_iff_witness :
  (exists b,
     EngineA.evaluateCondition
       (JObj [("field", JStr "alert.raw.user.name"); ("operator", JStr "matches")])
       (alertObject malwareAlert) = Ok b)
  <-> exists f,
        getProp (JObj [("field", JStr "alert.raw.user.name");
                       ("operator", JStr "matches")]) "field" = Ok f
        /\ (truthy f = false \/ exists s, f = JStr s).
Proof.
  apply (evaluateCondition_returns_iff _ (alertObject malwareAlert)).
  split; discriminate.
Defined.




(** Reading a printed integer as a decimal literal. *)







(** ** Dialect B: the count threshold *)

(** X11.  In the Dialect B engine a rule whose [if] holds only a count
    threshold [t] matches a canonical alert exactly when its event count
    is greater than [t], strictly; [event_count_greater_than] is the
    threshold when both keys are there. *)
Theorem count_threshold_is_strict (a : CanonicalAlert) (rule : jsval)
    (fs : list (string * jsval)) (t : Z) :
  getProp rule "if" = Ok (JObj fs) ->
  lookup "type" fs = None ->
  lookup "severity_equals" fs = None ->
  lookup "severity" fs = None ->
  lookup "event_count_greater_than" fs = Some (JNum t)
  \/ (lookup "event_count_greater_than" fs = None
      /\ lookup "count_greater_than" fs = Some (JNum t)) ->
  EngineB.ruleMatched (alertObject a) rule = Ok (t <? a_event_count a).
Proof.
  intros Hif Hty Hse Hs Hth.
  unfold EngineB.ruleMatched, EngineB.eitherKey. rewrite Hif.
  cbn [bind jsOr truthy getProp]. rewrite Hty, Hse, Hs.
  cbn [bind isUndefined negb].
  assert (Hcmp : forall c,
            negb (jsLessEq (jsOr (JNum c) (JNum 0)) (JNum t)) = (t <? c)).
  { intros c. unfold jsOr, truthy.
    assert (Hc : (if negb (c =? 0) then JNum c else JNum 0) = JNum c).
    { destruct (Z.eqb_spec c 0); subst; reflexivity. }
    rewrite Hc. unfold jsLessEq, jsLess. cbn [primitiveText toNumber].
    unfold Qle_bool. cbn [Qnum Qden]. rewrite !Z.mul_1_r.
    rewrite Z.ltb_antisym. destruct (c <=? t); reflexivity. }
  destruct Hth as [H1 | [H1 H2]]; rewrite H1; cbn [bind isUndefined negb];
    rewrite ?H2; cbn [bind isUndefined negb alertObject getProp lookup
                           String.eqb Ascii.eqb Bool.eqb];
    rewrite Hcmp; reflexivity.
Qed.

Lemma count_threshold_is_strict_witness :
  EngineB.ruleMatched (alertObject malwareAlert)
    (JObj [("name", JStr "noisy");
           ("if", JObj [("event_count_greater_than", JNum 1);
                        ("count_greater_than", JNum 0)])])
  = Ok (1 <? a_event_count malwareAlert).
Proof.
  apply (count_threshold_is_strict malwareAlert
           (JObj [("name", JStr "noisy");
                  ("if", JObj [("event_count_greater_than", JNum 1);
                               ("count_greater_than", JNum 0)])])
           [("event_count_greater_than", JNum 1); ("count_greater_than", JNum 0)]
           1 eq_refl eq_refl eq_refl eq_refl (or_introl eq_refl)).
Defined.

(** ** The log lines of actions *)

Lemma resolveParam_no_params (n name : jsval) (fw ff : string) :
  resolveParam n name (JObj []) fw ff = Ok JNull.
Proof.
  unfold resolveParam. cbn [getProp lookup truthy bind].
  destruct (strictEq name (JStr fw)); cbn [bind];
    destruct (isolateName name); reflexivity.
Qed.

Lemma actionLine_null (name : jsval) :
  actionLine name JNull = actionPrefix ++ toStringJS name.
Proof. reflexivity. Qed.

(** X12.  The three shapes of an action step give the same log line: for
    an action name [s] other than the empty string and ["action"], the
    bare string [s], the object [{action: s}] and the single-key object
    [{s: {}}] are all logged as "Action executed: s", in both engines (the
    Dialect B engine has no bare string shape). *)
Theorem action_shapes_agree (n : jsval) (s : string) :
  s <> "" -> s <> "action" ->
  EngineA.logAction n (JStr s) = Ok (actionPrefix ++ s)
  /\ EngineA.logAction n (JObj [("action", JStr s)]) = Ok (actionPrefix ++ s)
  /\ EngineA.logAction n (JObj [(s, JObj [])]) = Ok (actionPrefix ++ s)
  /\ EngineB.logAction n (JObj [("action", JStr s)]) = Ok (actionPrefix ++ s)
  /\ EngineB.logAction n (JObj [(s, JObj [])]) = Ok (actionPrefix ++ s).
Proof.
  intros Hne Hna.
  assert (Ht : truthy (JStr s) = true).
  { cbn. destruct (String.eqb_spec s ""); [contradiction | reflexivity]. }
  assert (Hk : ("action" =? s)%string = false).
  { destruct (String.eqb_spec "action" s); [congruence | reflexivity]. }
  repeat split.
  - unfold EngineA.logAction. cbn [bind].
    rewrite resolveParam_no_params. reflexivity.
  - unfold EngineA.logAction.
    cbn [bind getProp lookup String.eqb Ascii.eqb Bool.eqb].
    rewrite Ht. cbn [bind jsOr truthy].
    rewrite resolveParam_no_params. reflexivity.
  - unfold EngineA.logAction, legacyAction.
    cbn [bind getProp lookup firstKey toStringJS]. rewrite Hk.
    cbn [truthy bind]. rewrite String.eqb_refl.
    cbn [bind getPropOpt getProp lookup jsOr truthy].
    rewrite resolveParam_no_params. reflexivity.
  - unfold EngineB.logAction.
    cbn [bind getProp lookup String.eqb Ascii.eqb Bool.eqb].
    rewrite Ht. cbn [bind jsOr truthy].
    rewrite resolveParam_no_params. reflexivity.
  - unfold EngineB.logAction, legacyAction.
    cbn [bind getProp lookup firstKey toStringJS]. rewrite Hk.
    cbn [truthy bind]. rewrite String.eqb_refl.
    cbn [bind getPropOpt getProp lookup jsOr truthy].
    rewrite resolveParam_no_params. reflexivity.
Qed.

Lemma action_shapes_agree_witness :
  EngineA.logAction (alertObject malwareAlert) (JObj [("create_ticket", JObj [])])
  = Ok (actionPrefix ++ "create_ticket").
Proof.
  assert (H1 : "create_ticket" <> "") by discriminate.
  assert (H2 : "create_ticket" <> "action") by discriminate.
  exact (proj1 (proj2 (proj2 (action_shapes_agree (alertObject malwareAlert)
                                "create_ticket" H1 H2)))).
Defined.

Lemma list_ascii_of_string_app (a b : string) :
  list_ascii_of_string (a ++ b)
  = (list_ascii_of_string a ++ list_ascii_of_string b)%list.
Proof.
  induction a as [|c a IH]; simpl; [reflexivity | now rewrite IH].
Qed.

Lemma startsWith_app (p s : string) : startsWith p (p ++ s) = true.
Proof.
  unfold startsWith. rewrite list_ascii_of_string_app. apply isPrefixOf_app.
Qed.

Lemma actionLine_prefix (name value : jsval) :
  startsWith actionPrefix (actionLine name value) = true.
Proof.
  unfold actionLine. destruct (truthy value); apply startsWith_app.
Qed.

Lemma logActionA_prefix (n step : jsval) (l : string) :
  EngineA.logAction n step = Ok l -> startsWith actionPrefix l = true.
Proof.
  unfold EngineA.logAction, bind.
  match goal with |- match ?m with Ok _ => _ | Throw _ => _ end = _ -> _ =>
    destruct m as [[name params]|e] end; [|discriminate].
  destruct (resolveParam _ _ _ _ _); [|discriminate].
  intros H; inversion H. apply actionLine_prefix.
Qed.

Lemma logActionB_prefix (n step : jsval) (l : string) :
  EngineB.logAction n step = Ok l -> startsWith actionPrefix l = true.
Proof.
  unfold EngineB.logAction, bind.
  destruct (getProp step "action"); [|discriminate].
  match goal with |- match ?m with Ok _ => _ | Throw _ => _ end = _ -> _ =>
    destruct m as [[name params]|e] end; [|discriminate].
  destruct (resolveParam _ _ _ _ _); [|discriminate].
  intros H; inversion H. apply actionLine_prefix.
Qed.

Lemma collect_lines (f : jsval -> outcome string) (P : string -> Prop) :
  (forall x l, f x = Ok l -> P l) ->
  forall steps acc ls,
    forEach (fun acc step => l <- f step ;; Ok (acc ++ [l])%list) steps acc = Ok ls ->
    exists new, ls = (acc ++ new)%list /\ length new = length steps /\ Forall P new.
Proof.
  intros HP. induction steps as [|x steps IH]; intros acc ls H; simpl in H.
  - inversion H; subst. exists []. rewrite app_nil_r. repeat split. constructor.
  - destruct (f x) as [l|e] eqn:Hx; cbn [bind] in H; [|discriminate].
    apply IH in H. destruct H as (new & -> & Hlen & Hall).
    exists (l :: new). rewrite <- app_assoc. cbn.
    repeat split; [now rewrite Hlen | constructor; eauto].
Qed.

(** X13.  The lines logged for a matched rule are its "Matched rule" line
    followed by exactly one line per step of its action array ([actions]
    in Dialect A, [then] in Dialect B), each starting with "Action
    executed: "; a rule whose actions are not an array gets the "Matched
    rule" line alone. *)
Theorem one_line_per_action (n rule : jsval) (ls : list string) :
  (EngineA.ruleLines n rule = Ok ls ->
   exists name actions als,
     getProp rule "name" = Ok name /\ getProp rule "actions" = Ok actions
     /\ ls = matchedLine name :: als
     /\ length als = match actions with JArr steps => length steps | _ => O end
     /\ Forall (fun l => startsWith actionPrefix l = true) als)
  /\ (EngineB.ruleLines n rule = Ok ls ->
      exists name actions als,
        getProp rule "name" = Ok name /\ getProp rule "then" = Ok actions
        /\ ls = matchedLine name :: als
        /\ length als = match actions with JArr steps => length steps | _ => O end
        /\ Forall (fun l => startsWith actionPrefix l = true) als).
Proof.
  split; intros H.
  - unfold EngineA.ruleLines in H.
    destruct (getProp rule "name") as [name|e]; cbn [bind] in H; [|discriminate].
    destruct (getProp rule "actions") as [actions|e]; cbn [bind] in H;
      [|discriminate].
    destruct (EngineA.logActions n actions) as [als|e] eqn:Hl; cbn [bind] in H;
      [|discriminate].
    inversion H; subst. exists name, actions, als. repeat split.
    + unfold EngineA.logActions in Hl.
      destruct actions; inversion Hl; try reflexivity.
      apply (collect_lines _ _ (logActionA_prefix n)) in Hl.
      destruct Hl as (new & -> & Hlen & _). exact Hlen.
    + unfold EngineA.logActions in Hl.
      destruct actions; inversion Hl; try constructor.
      apply (collect_lines _ _ (logActionA_prefix n)) in Hl.
      destruct Hl as (new & -> & _ & Hall). exact Hall.
  - unfold EngineB.ruleLines in H.
    destruct (getProp rule "name") as [name|e]; cbn [bind] in H; [|discriminate].
    destruct (getProp rule "then") as [actions|e]; cbn [bind] in H;
      [|discriminate].
    destruct (EngineB.logActions n actions) as [als|e] eqn:Hl; cbn [bind] in H;
      [|discriminate].
    inversion H; subst. exists name, actions, als. repeat split.
    + unfold EngineB.logActions in Hl.
      destruct actions; inversion Hl; try reflexivity.
      apply (collect_lines _ _ (logActionB_prefix n)) in Hl.
      destruct Hl as (new & -> & Hlen & _). exact Hlen.
    + unfold EngineB.logActions in Hl.
      destruct actions; inversion Hl; try constructor.
      apply (collect_lines _ _ (logActionB_prefix n)) in Hl.
      destruct Hl as (new & -> & _ & Hall). exact Hall.
Qed.

Lemma one_line_per_action_witness :
  exists name actions als,
    getProp malwareRuleB "name" = Ok name
    /\ getProp malwareRuleB "then" = Ok actions
    /\ ["📘 Matched rule: malware_isolate";
        "🔥 Action executed: isolate_host (PC-02)"] = matchedLine name :: als
    /\ length als = match actions with JArr steps => length steps | _ => O end
    /\ Forall (fun l => startsWith actionPrefix l = true) als.
Proof.
  apply (proj2 (one_line_per_action (alertObject malwareAlert) malwareRuleB _)).
  reflexivity.
Defined.

(** ** When a run completes *)



Lemma nullish_getProp_throws (v : jsval) (k : string) :
  ~ nonNullish v -> exists e, getProp v k = Throw e.
Proof.
  intros Hn. destruct v; simpl; eauto;
    exfalso; apply Hn; split; discriminate.
Qed.












Section Completion.

Variable ruleMatched : jsval -> outcome bool.
Variable ruleLines : jsval -> outcome (list string).


End Completion.









(** ** Texts a regular expression cannot match *)

Section NoMatch.

Variable r : regex.
Variable P : list ascii -> Prop.
Hypothesis P_no_match : forall bef rst, P rst -> matchAt r bef rst = None.
Hypothesis P_tail : forall c tl, P (c :: tl) -> P tl.

Lemma execFrom_none (rst : list ascii) : forall bef,
  P rst -> execFrom r bef rst = None.
Proof.
  induction rst as [|c tl IH]; intros bef HP; cbn [execFrom];
    rewrite (P_no_match bef _ HP); [reflexivity|].
  apply IH. eapply P_tail, HP.
Qed.

Lemma scanFrom_none {S : Type} (f : S -> minfo -> list ascii * S) (s : S)
    (fuel : nat) : forall bef rst,
  P rst -> scanFrom r f fuel bef rst s = (rst, s).
Proof.
  induction fuel as [|fuel IH]; intros bef rst HP; cbn [scanFrom];
    [reflexivity|].
  rewrite (P_no_match bef _ HP). destruct rst as [|c tl]; [reflexivity|].
  rewrite (IH (c :: bef) tl (P_tail _ _ HP)). reflexivity.
Qed.

Lemma replaceWith_none {S : Type} (f : S -> minfo -> list ascii * S) (s : S)
    (text : string) :
  P (list_ascii_of_string text) -> replaceWith r f text s = (text, s).
Proof.
  intros HP. unfold replaceWith. rewrite (scanFrom_none f s _ _ _ HP).
  rewrite string_of_list_ascii_of_string. reflexivity.
Qed.

Lemma matchAll_none (text : string) :
  P (list_ascii_of_string text) -> matchAll r text = [].
Proof.
  intros HP. unfold matchAll. rewrite (replaceWith_none _ _ _ HP). reflexivity.
Qed.

Lemma test_none (text : string) :
  P (list_ascii_of_string text) -> test r text = false.
Proof.
  intros HP. unfold test, exec. rewrite (execFrom_none _ _ HP). reflexivity.
Qed.

End NoMatch.

Lemma noSteps_tail (c : ascii) (tl : list ascii) :
  noSteps (c :: tl) -> noSteps tl.
Proof.
  unfold noSteps. cbn [includesChars]. intros H.
  apply orb_false_iff in H. apply H.
Qed.

Lemma noSteps_prefix (cs : list ascii) :
  noSteps cs -> isPrefixOf (list_ascii_of_string "steps.") cs = false.
Proof.
  unfold noSteps. destruct cs as [|c tl]; [reflexivity|].
  cbn [includesChars]. intros H. apply orb_false_iff in H. apply H.
Qed.

Lemma noSteps_bare (bef rst : list ascii) :
  noSteps rst -> matchAt reBareSteps bef rst = None.
Proof.
  intros H. unfold matchAt, reBareSteps, Str.
  rewrite rmatch_Cat, rmatch_WordB.
  destruct (atWordBoundary _); [|reflexivity].
  rewrite rmatch_Cat, rmatch_lit. cbn [rest].
  rewrite (noSteps_prefix _ H). reflexivity.
Qed.

Lemma noSteps_variable (bef rst : list ascii) :
  noSteps rst -> matchAt reVariable bef rst = None.
Proof.
  intros H. unfold matchAt, reVariable, Str.
  rewrite rmatch_Cat, rmatch_lit. cbn [rest].
  change (list_ascii_of_string "${steps.")
    with ("$"%char :: "{"%char :: list_ascii_of_string "steps.").
  destruct rst as [|a [|b rst']]; cbn [isPrefixOf];
    rewrite ?andb_false_r; try reflexivity.
  pose proof (noSteps_prefix _ (noSteps_tail _ _ (noSteps_tail _ _ H))) as Hp.
  rewrite Hp, !andb_false_r. reflexivity.
Qed.

(** ** Expressions without references *)

(** X16.  An expression in which [steps.] does not occur (after trimming
    and removal of an outer wrapper) is handed to the evaluator as it is:
    the step results and the enrich configuration play no part, and no
    variable is reported missing or replaced. *)
Theorem expression_without_references
    (jsEval : string -> outcome jsval) (e : string)
    (steps enrichConfig : jsval) :
  e <> "" ->
  includes "steps." (stripWrapper (trim e)) = false ->
  evaluateExpressionUnified jsEval (JStr e) steps enrichConfig
  = match jsEval (stripWrapper (trim e)) with
    | Ok result => Success result (stripWrapper (trim e)) [] []
    | Throw err =>
        caught (JStr e)
          (evaluationFailedMessage err (stripWrapper (trim e)))
          (stripWrapper (trim e))
    end.
Proof.
  intros Hne Hno. unfold evaluateExpressionUnified.
  destruct (String.eqb_spec e ""); [contradiction|].
  set (t := stripWrapper (trim e)) in *.
  assert (HP : noSteps (list_ascii_of_string t)) by exact Hno.
  assert (Hw : wrapBareSteps t = t).
  { unfold wrapBareSteps, hasBareSteps.
    rewrite (test_none reBareSteps noSteps noSteps_bare noSteps_tail t HP).
    reflexivity. }
  rewrite Hw. unfold evaluateWrapped, substitute.
  rewrite (replaceWith_none reVariable noSteps noSteps_variable noSteps_tail
             _ _ t HP).
  cbn [failure missingVars replacedVars].
  rewrite (matchAll_none reVariable noSteps noSteps_variable noSteps_tail t HP).
  rewrite (matchAll_none reBareSteps noSteps noSteps_bare noSteps_tail t HP).
  reflexivity.
Qed.

Lemma expression_without_references_witness :
  evaluateExpressionUnified (fun _ => Ok (JBool true)) (JStr " ${1 < 2} ")
    (JObj []) JUndefined
  = match (fun _ : string => Ok (JBool true)) (stripWrapper (trim " ${1 < 2} ")) with
    | Ok result => Success result (stripWrapper (trim " ${1 < 2} ")) [] []
    | Throw err =>
        caught (JStr " ${1 < 2} ")
          (evaluationFailedMessage err (stripWrapper (trim " ${1 < 2} ")))
          (stripWrapper (trim " ${1 < 2} "))
    end.
Proof.
  apply (expression_without_references (fun _ => Ok (JBool true)) " ${1 < 2} ").
  - discriminate.
  - vm_compute. reflexivity.
Defined.

(** ** What a successful evaluation reports *)

Lemma substituteOne_failed (steps cfg : jsval) (st : SubstState) (m : minfo)
    (e : string) :
  failure st = Some e -> substituteOne steps cfg st m = ([], st).
Proof.
  intros H. unfold substituteOne. rewrite H. reflexivity.
Qed.

Lemma substituteOne_counts (steps cfg : jsval) (st st1 : SubstState)
    (m : minfo) (out : list ascii) :
  substituteOne steps cfg st m = (out, st1) ->
  failure st1 = None ->
  failure st = None
  /\ (length (missingVars st1) + length (replacedVars st1)
      = S (length (missingVars st) + length (replacedVars st)))%nat.
Proof.
  unfold substituteOne. destruct (failure st) as [e|] eqn:Hf.
  - intros H Hn. inversion H; subst. congruence.
  - destruct (resolvePath _ steps).
    + intros H _. inversion H; subst. cbn. split; [reflexivity|].
      rewrite length_app. cbn. lia.
    + destruct (enrichHint _ cfg) as [hint|err].
      * intros H _. inversion H; subst. cbn. split; [reflexivity|].
        rewrite length_app. cbn. lia.
      * intros H Hn. inversion H; subst. discriminate Hn.
Qed.

(** The replacement callback of step 3 and a plain enumeration of the
    matches see the same matches. *)
Lemma scan_counts (steps cfg : jsval) (fuel : nat) :
  forall bef rst st acc out st' out2 acc',
  scanFrom reVariable (substituteOne steps cfg) fuel bef rst st = (out, st') ->
  scanFrom reVariable collectMatch fuel bef rst acc = (out2, acc') ->
  failure st' = None ->
  failure st = None
  /\ (length (missingVars st') + length (replacedVars st') + length acc
      = length (missingVars st) + length (replacedVars st) + length acc')%nat.
Proof.
  induction fuel as [|fuel IH]; intros bef rst st acc out st' out2 acc' H1 H2 Hn;
    cbn [scanFrom] in H1, H2.
  - inversion H1; inversion H2; subst. split; [exact Hn | lia].
  - destruct (matchAt reVariable bef rst) as [mst|].
    + destruct (substituteOne steps cfg st (infoOf bef mst)) as [o1 s1] eqn:Hs.
      unfold collectMatch at 1 in H2.
      destruct (length (rest mst) <? length rst)%nat.
      * destruct (scanFrom reVariable (substituteOne steps cfg) fuel
                    (before mst) (rest mst) s1) as [more s2] eqn:E1.
        destruct (scanFrom reVariable collectMatch fuel (before mst) (rest mst)
                    (string_of_list_ascii (m_text (infoOf bef mst)) :: acc))
          as [more2 a2] eqn:E2.
        inversion H1; inversion H2; subst.
        destruct (IH _ _ _ _ _ _ _ _ E1 E2 Hn) as [Hs1 Hc].
        destruct (substituteOne_counts _ _ _ _ _ _ Hs Hs1) as [Hst Hc1].
        split; [exact Hst|]. cbn [length] in Hc. lia.
      * destruct rst as [|c tl].
        -- inversion H1; inversion H2; subst.
           destruct (substituteOne_counts _ _ _ _ _ _ Hs Hn) as [Hst Hc1].
           split; [exact Hst|]. cbn [length]. lia.
        -- destruct (scanFrom reVariable (substituteOne steps cfg) fuel
                       (c :: bef) tl s1) as [more s2] eqn:E1.
           destruct (scanFrom reVariable collectMatch fuel (c :: bef) tl
                       (string_of_list_ascii (m_text (infoOf bef mst)) :: acc))
             as [more2 a2] eqn:E2.
           inversion H1; inversion H2; subst.
           destruct (IH _ _ _ _ _ _ _ _ E1 E2 Hn) as [Hs1 Hc].
           destruct (substituteOne_counts _ _ _ _ _ _ Hs Hs1) as [Hst Hc1].
           split; [exact Hst|]. cbn [length] in Hc. lia.
    + destruct rst as [|c tl].
      * inversion H1; inversion H2; subst. split; [exact Hn | lia].
      * destruct (scanFrom reVariable (substituteOne steps cfg) fuel
                    (c :: bef) tl st) as [more s2] eqn:E1.
        destruct (scanFrom reVariable collectMatch fuel (c :: bef) tl acc)
          as [more2 a2] eqn:E2.
        inversion H1; inversion H2; subst.
        exact (IH _ _ _ _ _ _ _ _ E1 E2 Hn).
Qed.

Lemma substitute_counts (steps cfg : jsval) (text evaluated : string)
    (st : SubstState) :
  substitute steps cfg text = (evaluated, st) ->
  failure st = None ->
  (length (missingVars st) + length (replacedVars st)
   = length (matchAll reVariable text))%nat.
Proof.
  unfold substitute, matchAll, replaceWith. intros H Hn.
  destruct (scanFrom reVariable (substituteOne steps cfg) _ _ _ _)
    as [out st'] eqn:E1.
  change (fun (acc : list string) (m : minfo) =>
            (@nil ascii, string_of_list_ascii (m_text m) :: acc))
    with collectMatch.
  destruct (scanFrom reVariable collectMatch _ _ _ _) as [out2 acc'] eqn:E2.
  inversion H; subst. cbn [snd]. rewrite length_rev.
  destruct (scan_counts _ _ _ _ _ _ _ _ _ _ _ E1 E2 Hn) as [_ Hc].
  cbn in Hc. lia.
Qed.

(** X17.  A successful evaluation returns what the evaluator computed on
    the text it reports as [evaluated]; that text holds no wrapped and no
    bare step reference any more, and every wrapped reference of the
    rewritten expression is accounted for exactly once, in [missingVars]
    or in [replacedVars]. *)
Theorem success_accounts_for_references
    (jsEval : string -> outcome jsval) (expression steps enrichConfig : jsval)
    (result : jsval) (evaluated : string) (missing replaced : list string) :
  evaluateExpressionUnified jsEval expression steps enrichConfig
  = Success result evaluated missing replaced ->
  jsEval evaluated = Ok result
  /\ matchAll reVariable evaluated = []
  /\ matchAll reBareSteps evaluated = []
  /\ exists e,
       expression = JStr e
       /\ (length missing + length replaced
           = length (matchAll reVariable
                       (wrapBareSteps (stripWrapper (trim e)))))%nat.
Proof.
  unfold evaluateExpressionUnified. intros H.
  destruct expression as [| |b|z|e|xs|fs]; try discriminate.
  destruct (e =? "")%string; [discriminate|].
  unfold evaluateWrapped in H.
  destruct (substitute steps _ (wrapBareSteps (stripWrapper (trim e))))
    as [ev st] eqn:Hs.
  destruct (failure st) eqn:Hf; [discriminate|].
  destruct (matchAll reVariable ev) eqn:Hv; [|discriminate].
  destruct (matchAll reBareSteps ev) eqn:Hb; [|discriminate].
  destruct (jsEval ev) as [r|err] eqn:He; [|discriminate].
  inversion H; subst.
  repeat split; try assumption.
  exists e. split; [reflexivity|].
  exact (substitute_counts _ _ _ _ _ Hs Hf).
Qed.

Lemma success_accounts_for_references_witness :
  (fun _ : string => Ok (JBool false)) "null >= 70" = Ok (JBool false)
  /\ matchAll reVariable "null >= 70" = []
  /\ matchAll reBareSteps "null >= 70" = []
  /\ exists e,
       JStr "${steps.vt_url.max_score >= 70}" = JStr e
       /\ (length ["${steps.vt_url.max_score}"] + length (@nil string)
           = length (matchAll reVariable
                       (wrapBareSteps (stripWrapper (trim e)))))%nat.
Proof.
  apply (success_accounts_for_references (fun _ => Ok (JBool false))
           (JStr "${steps.vt_url.max_score >= 70}") (JObj [])
           (JObj [("vt_url", JBool false)])).
  vm_compute. reflexivity.
Defined.

(** ** The step graph of the instance *)

(** X18.  The instance built for any configuration has the steps
    [collect], the enabled enrich steps, [evaluate], [high] and [low], in
    this order and with distinct ids, and it is closed: every id named by
    a [next], [true_next] or [false_next] is the id of a step of the
    instance. *)
Theorem instance_graph_closed (config : PlaybookConfig) :
  stepIds (buildInstance config)
  = ("collect" :: enrichStepIds (enrich config)
       ++ ["evaluate"; "high"; "low"])%list
  /\ length (buildInstance config) = (4 + enabledCount (enrich config))%nat
  /\ NoDup (stepIds (buildInstance config))
  /\ forall step t,
       In step (buildInstance config) -> In t (jumpTargets step) ->
       In t (stepIds (buildInstance config)).
Proof.
  destruct config as [nm col [h u a] ex ta fa].
  destruct h, u, a; cbn -[collectMapping];
    (split; [reflexivity|]); (split; [reflexivity|]);
    (split;
     [ repeat (constructor; [cbn; intuition discriminate|]); constructor
     | intros step t Hin Ht;
       repeat (destruct Hin as [<- | Hin]; [cbn in Ht; intuition|]);
       destruct Hin ]).
Qed.

(** ** The step chain of the older generator *)

(** X19.  In the playbook of the older generator the collect step and the
    enabled enrich steps form a chain: each points to the step that
    follows it, the last one to [evaluate].  The evaluate step always
    names [high] and [low], but a [high] (a [low]) step exists only when
    there is a true (a false) action: with an empty action list the branch
    target is the id of no step. *)
Theorem legacy_chain_and_branches (config : PlaybookConfig) :
  let steps := GenerateYamlTs.generateYamlSteps config in
  let n := enabledCount (enrich config) in
  stepIds (firstn (2 + n) steps)
  = ("collect_normalize" :: enrichStepIds (enrich config) ++ ["evaluate"])%list
  /\ flat_map jumpTargets (firstn (1 + n) steps)
     = (enrichStepIds (enrich config) ++ ["evaluate"])%list
  /\ jumpTargets (nth (1 + n) steps JNull) = ["high"; "low"]
  /\ (In "high" (stepIds steps) <-> trueActions config <> [])
  /\ (In "low" (stepIds steps) <-> falseActions config <> []).
Proof.
  destruct config as [nm col [h u a] ex ta fa].
  destruct h, u, a, ta as [|t ta], fa as [|f fa]; cbn;
    repeat split; try reflexivity; try discriminate; try congruence;
    intuition (try discriminate; try congruence).
Qed.

(** ** The action selection of the builder *)

Lemma branchOf_setBranch (actions : ActionsState) (b b' : string)
    (items : list ActionItem) :
  branchOf (setBranch b items actions) b'
  = if (b' =? b)%string then items else branchOf actions b'.
Proof.
  induction actions as [|[k old] more IH]; cbn [setBranch branchOf].
  - reflexivity.
  - destruct (String.eqb_spec b k) as [->|Hbk]; cbn [branchOf].
    + destruct (b' =? k)%string; reflexivity.
    + rewrite IH. destruct (String.eqb_spec b' k) as [->|Hk].
      * destruct (String.eqb_spec k b); [congruence | reflexivity].
      * reflexivity.
Qed.

Lemma findIndex_some {A : Type} (p : A -> bool) (xs : list A) : forall i,
  findIndex p xs = Some i ->
  exists pre x post,
    xs = (pre ++ x :: post)%list /\ p x = true
    /\ removeAt i xs = (pre ++ post)%list.
Proof.
  induction xs as [|x xs IH]; intros i H; cbn [findIndex] in H; [discriminate|].
  destruct (p x) eqn:Hp.
  - inversion H; subst. exists [], x, xs. repeat split. exact Hp.
  - destruct (findIndex p xs) as [j|]; [|discriminate].
    inversion H; subst. destruct (IH j eq_refl) as (pre & y & post & -> & Hy & Hr).
    exists (x :: pre), y, post. repeat split; [exact Hy|].
    cbn [removeAt app]. now rewrite Hr.
Qed.

Lemma findIndex_none {A : Type} (p : A -> bool) (xs : list A) :
  findIndex p xs = None -> existsb p xs = false.
Proof.
  induction xs as [|x xs IH]; cbn [findIndex existsb]; [reflexivity|].
  destruct (p x); [discriminate|].
  destruct (findIndex p xs); [discriminate|]. intros _. now apply IH.
Qed.

Lemma findIndex_append {A : Type} (p : A -> bool) (xs : list A) (x : A) :
  existsb p xs = false -> p x = true ->
  findIndex p (xs ++ [x]) = Some (length xs)
  /\ removeAt (length xs) (xs ++ [x]) = xs.
Proof.
  intros Hn Hx. induction xs as [|y xs IH]; cbn.
  - rewrite Hx. split; reflexivity.
  - cbn in Hn. apply orb_false_iff in Hn. destruct Hn as [Hy Hn].
    rewrite Hy. destruct (IH Hn) as [-> ->]. split; reflexivity.
Qed.

Lemma not_selected_elsewhere (name : string) (items : list ActionItem) :
  ~ In name (map action items) ->
  existsb (fun a => (action a =? name)%string) items = false.
Proof.
  induction items as [|a items IH]; cbn; [reflexivity|].
  intros H. destruct (String.eqb_spec (action a) name) as [E|_].
  - exfalso. apply H. left. exact E.
  - apply IH. intros Hin. apply H. right. exact Hin.
Qed.

Lemma NoDup_snoc {A : Type} (l : list A) (x : A) :
  NoDup l -> ~ In x l -> NoDup (l ++ [x]).
Proof.
  induction 1 as [|y l Hy Hnd IH]; cbn; intros Hx.
  - constructor; [intros [] | constructor].
  - constructor.
    + rewrite in_app_iff. cbn. intros [H|[H|[]]]; [contradiction|].
      apply Hx. left. symmetry. exact H.
    + apply IH. intros H. apply Hx. right. exact H.
Qed.

Lemma find_available (actionId : string) :
  In actionId (map d_id availableActions) ->
  exists d, find (fun d => (d_id d =? actionId)%string) availableActions = Some d.
Proof.
  cbn. intros [<-|[<-|[<-|[<-|[<-|[]]]]]]; cbn; eauto.
Qed.

(** X20.  Toggling an action the panel offers flips its selection in the
    branch and changes no other selection; the branch keeps holding each
    action at most once (as it does from the empty selection on). *)
Theorem toggle_flips_selection (now : Z) (actions : ActionsState)
    (branch actionId : string) :
  NoDup (map action (branchOf actions branch)) ->
  In actionId (map d_id availableActions) ->
  exists actions',
    toggleAction now actions branch actionId = Ok actions'
    /\ isActionSelected actions' branch actionId
       = negb (isActionSelected actions branch actionId)
    /\ NoDup (map action (branchOf actions' branch))
    /\ (forall b x, b <> branch \/ x <> actionId ->
                    isActionSelected actions' b x = isActionSelected actions b x).
Proof.
  intros Hnd Hav. unfold toggleAction, isActionSelected.
  set (items := branchOf actions branch) in *.
  destruct (findIndex (fun a => (action a =? actionId)%string) items)
    as [i|] eqn:Hfi.
  - destruct (findIndex_some _ _ _ Hfi) as (pre & a & post & Hitems & Ha & Hr).
    apply String.eqb_eq in Ha.
    eexists. split; [reflexivity|]. rewrite Hr.
    rewrite Hitems in Hnd. rewrite map_app in Hnd. cbn [map] in Hnd.
    pose proof (NoDup_remove_1 _ _ _ Hnd) as Hnd1.
    pose proof (NoDup_remove_2 _ _ _ Hnd) as Hnot.
    rewrite <- map_app, Ha in Hnot.
    repeat split.
    + rewrite branchOf_setBranch, String.eqb_refl.
      rewrite (not_selected_elsewhere _ _ Hnot).
      rewrite Hitems, existsb_app. cbn [existsb].
      rewrite Ha, String.eqb_refl, orb_true_r. reflexivity.
    + rewrite branchOf_setBranch, String.eqb_refl, map_app. exact Hnd1.
    + intros b x Hbx. rewrite branchOf_setBranch.
      destruct (String.eqb_spec b branch) as [->|Hb]; [|reflexivity].
      destruct Hbx as [Hbx|Hx]; [congruence|].
      fold items. rewrite Hitems, !existsb_app. cbn [existsb].
      destruct (String.eqb_spec (action a) x); [congruence | reflexivity].
  - destruct (find_available actionId Hav) as [d ->].
    pose proof (findIndex_none _ _ Hfi) as Hno.
    eexists. split; [reflexivity|]. repeat split.
    + rewrite branchOf_setBranch, String.eqb_refl, existsb_app, Hno.
      cbn. rewrite String.eqb_refl. reflexivity.
    + rewrite branchOf_setBranch, String.eqb_refl, map_app. cbn [map action].
      apply NoDup_snoc; [exact Hnd|].
      intros Hin.
        apply in_map_iff in Hin. destruct Hin as (a & Ha & Hin).
        assert (Hex : existsb (fun a => (action a =? actionId)%string) items
                      = true).
        { apply existsb_exists. exists a. split; [exact Hin|].
          now apply String.eqb_eq. }
        congruence.
    + intros b x Hbx. rewrite branchOf_setBranch.
      destruct (String.eqb_spec b branch) as [->|Hb]; [|reflexivity].
      destruct Hbx as [Hbx|Hx]; [congruence|].
      fold items. rewrite existsb_app. cbn.
      destruct (String.eqb_spec actionId x); [congruence|].
      rewrite orb_false_r. reflexivity.
Qed.

Lemma toggle_flips_selection_witness :
  exists actions',
    toggleAction 1700000000000 [] "trueActions" "firewall.block_ip" = Ok actions'
    /\ isActionSelected actions' "trueActions" "firewall.block_ip"
       = negb (isActionSelected [] "trueActions" "firewall.block_ip")
    /\ NoDup (map action (branchOf actions' "trueActions"))
    /\ (forall b x, b <> "trueActions" \/ x <> "firewall.block_ip" ->
                    isActionSelected actions' b x = isActionSelected [] b x).
Proof.
  apply (toggle_flips_selection 1700000000000 [] "trueActions"
           "firewall.block_ip").
  - constructor.
  - cbn. tauto.
Defined.

Lemma find_skips {A : Type} (p : A -> bool) (xs : list A) (x : A) :
  existsb p xs = false -> p x = true -> find p (xs ++ [x]) = Some x.
Proof.
  intros Hn Hx. induction xs as [|y xs IH]; cbn.
  - now rewrite Hx.
  - cbn in Hn. apply orb_false_iff in Hn. destruct Hn as [-> Hn]. now apply IH.
Qed.

Lemma setBranch_setBranch (b : string) (xs ys : list ActionItem)
    (actions : ActionsState) :
  setBranch b ys (setBranch b xs actions) = setBranch b ys actions.
Proof.
  induction actions as [|[k old] more IH]; cbn [setBranch].
  - rewrite String.eqb_refl. reflexivity.
  - destruct (String.eqb_spec b k) as [->|Hbk]; cbn [setBranch].
    + rewrite String.eqb_refl. reflexivity.
    + destruct (String.eqb_spec b k); [contradiction|]. now rewrite IH.
Qed.

(** X21.  Toggling an offered action twice: when it was not selected, the
    branch is again what it was; when it was selected, the action comes
    back as a new instance with the default input of its definition, so
    what had been entered for it is gone. *)
Theorem toggle_twice (now1 now2 : Z) (actions : ActionsState)
    (branch actionId : string) :
  NoDup (map action (branchOf actions branch)) ->
  In actionId (map d_id availableActions) ->
  exists actions1 actions2 actionDef,
    toggleAction now1 actions branch actionId = Ok actions1
    /\ toggleAction now2 actions1 branch actionId = Ok actions2
    /\ find (fun d => (d_id d =? actionId)%string) availableActions
       = Some actionDef
    /\ (forall b, b <> branch -> branchOf actions2 b = branchOf actions b)
    /\ (isActionSelected actions branch actionId = false ->
        branchOf actions2 branch = branchOf actions branch)
    /\ (isActionSelected actions branch actionId = true ->
        getActionInstance actions2 branch actionId
        = Some {| id := branch ++ "_" ++ actionId ++ "_" ++ numToString now2;
                  action := actionId;
                  input := defaultInput (d_params actionDef) |}).
Proof.
  intros Hnd Hav. destruct (find_available actionId Hav) as [d Hd].
  unfold toggleAction at 1. unfold isActionSelected, getActionInstance.
  set (items := branchOf actions branch) in *.
  set (p := fun a : ActionItem => (action a =? actionId)%string).
  destruct (findIndex p items) as [i|] eqn:Hfi.
  - destruct (findIndex_some _ _ _ Hfi) as (pre & a & post & Hitems & Ha & Hr).
    apply String.eqb_eq in Ha.
    rewrite Hitems in Hnd. rewrite map_app in Hnd. cbn [map] in Hnd.
    pose proof (NoDup_remove_2 _ _ _ Hnd) as Hnot.
    rewrite <- map_app, Ha in Hnot.
    pose proof (not_selected_elsewhere _ _ Hnot) as Hno. fold p in Hno.
    assert (Hfn : findIndex p (pre ++ post) = None).
    { destruct (findIndex p (pre ++ post)) as [j|] eqn:E; [|reflexivity].
      destruct (findIndex_some _ _ _ E) as (pre' & y & post' & Hy & Hpy & _).
      assert (Hex : existsb p (pre ++ post) = true).
      { apply existsb_exists. exists y. split; [|exact Hpy].
        rewrite Hy. apply in_or_app. right. now left. }
      congruence. }
    eexists _, _, d. split; [reflexivity|].
    unfold toggleAction. rewrite branchOf_setBranch, String.eqb_refl, Hr.
    fold p. rewrite Hfn, Hd. split; [reflexivity|]. split; [reflexivity|].
    rewrite setBranch_setBranch. repeat split.
    + intros b Hb. rewrite branchOf_setBranch.
      destruct (String.eqb_spec b branch); [contradiction | reflexivity].
    + intros Hsel. exfalso. rewrite Hitems, existsb_app in Hsel.
      cbn [existsb] in Hsel. unfold p in Hsel at 2.
      rewrite Ha, String.eqb_refl, orb_true_r in Hsel. discriminate.
    + intros _. rewrite branchOf_setBranch, String.eqb_refl.
      apply find_skips; [exact Hno|]. unfold p. cbn. apply String.eqb_refl.
  - pose proof (findIndex_none _ _ Hfi) as Hno. rewrite Hd.
    set (new := {| id := branch ++ "_" ++ actionId ++ "_" ++ numToString now1;
                   action := actionId;
                   input := defaultInput (d_params d) |}).
    assert (Hp : p new = true) by (unfold p; cbn; apply String.eqb_refl).
    destruct (findIndex_append p items new Hno Hp) as [Hi Hrm].
    eexists _, _, d. split; [reflexivity|].
    unfold toggleAction. rewrite branchOf_setBranch, String.eqb_refl.
    fold p. rewrite Hi, Hrm. split; [reflexivity|]. split; [reflexivity|].
    rewrite setBranch_setBranch. repeat split.
    + intros b Hb. rewrite branchOf_setBranch.
      destruct (String.eqb_spec b branch); [contradiction | reflexivity].
    + intros _. rewrite branchOf_setBranch, String.eqb_refl. reflexivity.
    + intros Hsel. congruence.
Qed.

Lemma toggle_twice_witness :
  exists actions1 actions2 actionDef,
    toggleAction 1 [("trueActions",
                     [mkAction "trueActions_notify.email_0" "notify.email"
                               [("email", "soc@example.org")]])]
                 "trueActions" "notify.email" = Ok actions1
    /\ toggleAction 2 actions1 "trueActions" "notify.email" = Ok actions2
    /\ find (fun d => (d_id d =? "notify.email")%string) availableActions
       = Some actionDef
    /\ (forall b, b <> "trueActions" ->
                  branchOf actions2 b
                  = branchOf [("trueActions",
                               [mkAction "trueActions_notify.email_0"
                                         "notify.email"
                                         [("email", "soc@example.org")]])] b)
    /\ (isActionSelected
          [("trueActions",
            [mkAction "trueActions_notify.email_0" "notify.email"
                      [("email", "soc@example.org")]])]
          "trueActions" "notify.email" = false ->
        branchOf actions2 "trueActions"
        = branchOf [("trueActions",
                     [mkAction "trueActions_notify.email_0" "notify.email"
                               [("email", "soc@example.org")]])] "trueActions")
    /\ (isActionSelected
          [("trueActions",
            [mkAction "trueActions_notify.email_0" "notify.email"
                      [("email", "soc@example.org")]])]
          "trueActions" "notify.email" = true ->
        getActionInstance actions2 "trueActions" "notify.email"
        = Some {| id := "trueActions" ++ "_" ++ "notify.email" ++ "_"
                        ++ numToString 2;
                  action := "notify.email";
                  input := defaultInput (d_params actionDef) |}).
Proof.
  apply (toggle_twice 1 2
           [("trueActions",
             [mkAction "trueActions_notify.email_0" "notify.email"
                       [("email", "soc@example.org")]])]
           "trueActions" "notify.email").
  - cbn. constructor; [intros [] | constructor].
  - cbn. tauto.
Defined.

Lemma getInput_setInput (key value k : string) (input : list (string * string)) :
  getInput k (setInput key value input)
  = if (k =? key)%string then Some value else getInput k input.
Proof.
  induction input as [|[k0 v0] more IH]; cbn [setInput getInput].
  - destruct (k =? key)%string; reflexivity.
  - destruct (String.eqb_spec key k0) as [->|Hk]; cbn [getInput].
    + destruct (k =? k0)%string; reflexivity.
    + rewrite IH. destruct (String.eqb_spec k k0) as [->|Hkk].
      * destruct (String.eqb_spec k0 key); [congruence | reflexivity].
      * reflexivity.
Qed.

Lemma existsb_on_map {A B : Type} (p : B -> bool) (g : A -> B) (l : list A) :
  existsb (fun a => p (g a)) l = existsb p (map g l).
Proof.
  induction l as [|a l IH]; cbn; [reflexivity | now rewrite IH].
Qed.

(** X22.  Editing an input changes one key of the instances with the
    given id and nothing else: the other instances, the other branches,
    the other keys, the order of the branch and every selection stay as
    they are. *)
Theorem update_changes_one_input (actions : ActionsState)
    (branch actionId key value : string) :
  let actions' := updateActionInput actions branch actionId key value in
  map action (branchOf actions' branch) = map action (branchOf actions branch)
  /\ map id (branchOf actions' branch) = map id (branchOf actions branch)
  /\ (forall b x, isActionSelected actions' b x = isActionSelected actions b x)
  /\ (forall b, b <> branch -> branchOf actions' b = branchOf actions b)
  /\ (forall i a,
        nth_error (branchOf actions branch) i = Some a ->
        exists a',
          nth_error (branchOf actions' branch) i = Some a'
          /\ (id a <> actionId -> a' = a)
          /\ (id a = actionId ->
              getInput key (input a') = Some value
              /\ forall k, k <> key ->
                           getInput k (input a') = getInput k (input a))).
Proof.
  cbn zeta. unfold updateActionInput.
  set (items := branchOf actions branch).
  set (f := fun a : ActionItem =>
              if (id a =? actionId)%string
              then {| id := id a; action := action a;
                      input := setInput key value (input a) |}
              else a).
  assert (Hact : map action (map f items) = map action items).
  { rewrite map_map. apply map_ext. intros a. unfold f.
    destruct (id a =? actionId)%string; reflexivity. }
  assert (Hid : map id (map f items) = map id items).
  { rewrite map_map. apply map_ext. intros a. unfold f.
    destruct (id a =? actionId)%string; reflexivity. }
  rewrite branchOf_setBranch, String.eqb_refl.
  split; [exact Hact|]. split; [exact Hid|]. repeat split.
  - intros b x. unfold isActionSelected. rewrite branchOf_setBranch.
    destruct (String.eqb_spec b branch) as [->|]; [|reflexivity].
    fold items.
    rewrite (existsb_on_map (fun s => (s =? x)%string) action (map f items)).
    rewrite (existsb_on_map (fun s => (s =? x)%string) action items).
    now rewrite Hact.
  - intros b Hb. rewrite branchOf_setBranch.
    destruct (String.eqb_spec b branch); [contradiction | reflexivity].
  - intros i a Hi. exists (f a). split; [now apply map_nth_error|].
    unfold f. destruct (String.eqb_spec (id a) actionId) as [E|E].
    + split; [contradiction|]. intros _. cbn [input].
      rewrite getInput_setInput, String.eqb_refl. split; [reflexivity|].
      intros k Hk. rewrite getInput_setInput.
      destruct (String.eqb_spec k key); [contradiction | reflexivity].
    + split; [reflexivity | contradiction].
Qed.

(** ** The execution log of a dry run *)




(** ** From the Splunk payload to the log *)




(** ** What a match can consume and capture *)

Section MatcherInvariant.

(** [R st mid]: [mid] can be reached from [st] in a match attempt. *)
Variable R : mstate -> mstate -> Prop.
Variable okc : ascii -> Prop.

Hypothesis R_refl : forall st, R st st.
Hypothesis R_trans : forall a b c, R a b -> R b c -> R a c.
Hypothesis R_chr : forall st c tl,
  rest st = c :: tl -> okc c ->
  R st {| before := c :: before st; rest := tl; caps := caps st |}.
Hypothesis R_cap : forall st0 st i,
  R st0 st -> R st0 (setCap i (consumed st0 st) st).

Lemma rmatch_reaches (r : regex) :
  classesOk okc r ->
  forall k st res,
    rmatch r k st = Some res ->
    exists mid, R st mid /\ k mid = Some res.
Proof.
  induction r as [|p|r1 IH1 r2 IH2|r1 IH1 r2 IH2|r1 IH1|i r1 IH1| | |];
    intros Hok k st res H; cbn [classesOk] in Hok.
  - exists st. split; [apply R_refl | exact H].
  - cbn [rmatch] in H. destruct (rest st) as [|c tl] eqn:Hr; [discriminate|].
    destruct (p c) eqn:Hp; [|discriminate].
    eexists. split; [apply (R_chr st c tl Hr (Hok c Hp)) | exact H].
  - destruct Hok as [Hok1 Hok2]. cbn [rmatch] in H.
    destruct (IH1 Hok1 _ _ _ H) as (mid1 & HR1 & H1).
    destruct (IH2 Hok2 _ _ _ H1) as (mid2 & HR2 & H2).
    exists mid2. split; [eapply R_trans; eassumption | exact H2].
  - destruct Hok as [Hok1 Hok2]. cbn [rmatch] in H.
    destruct (rmatch r1 k st) as [x|] eqn:E.
    + inversion H; subst. apply (IH1 Hok1 _ _ _ E).
    + apply (IH2 Hok2 _ _ _ H).
  - assert (Hloop : forall fuel st,
              (fix loop (fuel : nat) (st : mstate) {struct fuel}
                 : option mstate :=
                 match fuel with
                 | O => k st
                 | S fuel' =>
                     match rmatch r1
                             (fun st' =>
                                if (length (rest st') <? length (rest st))%nat
                                then loop fuel' st' else None) st with
                     | Some x => Some x
                     | None => k st
                     end
                 end) fuel st = Some res ->
              exists mid, R st mid /\ k mid = Some res).
    { induction fuel as [|fuel IHf]; intros st0 H0.
      - exists st0. split; [apply R_refl | exact H0].
      - match type of H0 with
        | match ?m with Some _ => _ | None => _ end = _ =>
            destruct m as [x|] eqn:E
        end.
        + inversion H0; subst.
          destruct (IH1 Hok _ _ _ E) as (mid1 & HR1 & H1).
          destruct (length (rest mid1) <? length (rest st0))%nat;
            [|discriminate].
          destruct (IHf _ H1) as (mid2 & HR2 & H2).
          exists mid2. split; [eapply R_trans; eassumption | exact H2].
        + exists st0. split; [apply R_refl | exact H0]. }
    exact (Hloop (S (length (rest st))) st H).
  - cbn [rmatch] in H.
    destruct (IH1 Hok _ _ _ H) as (mid1 & HR1 & H1).
    eexists. split; [apply (R_cap st mid1 i HR1) | exact H1].
  - cbn [rmatch] in H. destruct (before st); [|discriminate].
    exists st. split; [apply R_refl | exact H].
  - cbn [rmatch] in H. destruct (rest st); [|discriminate].
    exists st. split; [apply R_refl | exact H].
  - cbn [rmatch] in H. destruct (atWordBoundary st); [|discriminate].
    exists st. split; [apply R_refl | exact H].
Qed.

End MatcherInvariant.

Lemma consumed_over (w bef : list ascii) (st mid : mstate) :
  before st = bef -> before mid = (rev w ++ bef)%list -> consumed st mid = w.
Proof.
  intros Hb Hm. unfold consumed. rewrite Hm, Hb, length_app, length_rev.
  replace (length w + length bef - length bef)%nat with (length w) by lia.
  rewrite <- (length_rev w) at 1. rewrite firstn_app, Nat.sub_diag.
  cbn [firstn]. rewrite app_nil_r, firstn_all. apply rev_involutive.
Qed.

Lemma matchAt_extends (q : ascii -> Prop) (r : regex) (bef rst : list ascii)
    (st' : mstate) :
  classesOk q r ->
  matchAt r bef rst = Some st' ->
  exists w, rst = (w ++ rest st')%list
            /\ before st' = (rev w ++ bef)%list
            /\ Forall q w
            /\ m_text (infoOf bef st') = w.
Proof.
  intros Hok H. unfold matchAt in H.
  destruct (rmatch_reaches (extends q) q) with (r := r) (k := @Some mstate)
    (st := {| before := bef; rest := rst; caps := [] |}) (res := st')
    as (mid & (w & Hr & Hb & Hq) & Hk); try assumption.
  - intros st. exists []. repeat split. constructor.
  - intros a b c (w1 & Hr1 & Hb1 & Hq1) (w2 & Hr2 & Hb2 & Hq2).
    exists (w1 ++ w2)%list. rewrite Hr1, Hr2, Hb2, Hb1, rev_app_distr, <- !app_assoc.
    repeat split. apply Forall_app. split; assumption.
  - intros st c tl Hr Hc. exists [c]. cbn. rewrite Hr. repeat split.
    constructor; [exact Hc | constructor].
  - intros st0 st i Hx. exact Hx.
  - inversion Hk; subst. cbn [rest before] in Hr, Hb.
    exists w. repeat split; try assumption.
    unfold infoOf. cbn [m_text]. apply (consumed_over w bef); [reflexivity | exact Hb].
Qed.

Lemma Forall_consumed (q : ascii -> Prop) (st st' : mstate) :
  Forall q (before st') -> Forall q (consumed st st').
Proof.
  intros H. unfold consumed. apply Forall_rev.
  rewrite <- (firstn_skipn (length (before st') - length (before st))
                (before st')) in H.
  apply Forall_app in H. apply H.
Qed.

Lemma matchAt_chars (q : ascii -> Prop) (r : regex) (bef rst : list ascii)
    (st' : mstate) :
  Forall q bef -> Forall q rst ->
  matchAt r bef rst = Some st' ->
  stateOk q st' /\ Forall q (m_text (infoOf bef st')).
Proof.
  intros Hb Hr H. unfold matchAt in H.
  destruct (rmatch_reaches (fun a b => stateOk q a -> stateOk q b)
              (fun _ => True)) with (r := r) (k := @Some mstate)
    (st := {| before := bef; rest := rst; caps := [] |}) (res := st')
    as (mid & HR & Hk); try assumption.
  - auto.
  - auto.
  - intros st c tl Hrest _ (H1 & H2 & H3). rewrite Hrest in H2.
    inversion H2; subst. repeat split; cbn; auto.
  - intros st0 st i Hx H0. destruct (Hx H0) as (H1 & H2 & H3).
    repeat split; cbn; auto. constructor; [|exact H3].
    cbn. apply Forall_consumed, H1.
  - clear. induction r; cbn; auto.
  - inversion Hk; subst.
    assert (Hst : stateOk q st').
    { apply HR. repeat split; cbn; auto. }
    split; [exact Hst|]. unfold infoOf. cbn [m_text].
    apply Forall_consumed, Hst.
Qed.

Lemma getCap_chars (q : ascii -> Prop) (i : nat) (cs : list (nat * list ascii)) :
  Forall (fun ic => Forall q (snd ic)) cs -> Forall q (getCap i cs).
Proof.
  induction 1 as [|[j txt] cs Hx _ IH]; cbn; [constructor|].
  destruct (i =? j)%nat; assumption.
Qed.

Lemma execFrom_chars (q : ascii -> Prop) (r : regex) (rst : list ascii) :
  forall bef m,
  Forall q bef -> Forall q rst ->
  execFrom r bef rst = Some m ->
  Forall (fun ic => Forall q (snd ic)) (m_caps m).
Proof.
  induction rst as [|c tl IH]; intros bef m Hb Hr H; cbn [execFrom] in H.
  - destruct (matchAt r bef []) as [st'|] eqn:E; [|discriminate].
    inversion H; subst. apply (matchAt_chars q) in E; auto. apply E.
  - destruct (matchAt r bef (c :: tl)) as [st'|] eqn:E.
    + inversion H; subst. apply (matchAt_chars q) in E; auto. apply E.
    + inversion Hr; subst. apply (IH (c :: bef) m); auto.
Qed.

(** ** Replacements that keep the line structure *)

Lemma countLF_app (a b : list ascii) :
  countLF (a ++ b) = (countLF a + countLF b)%nat.
Proof.
  induction a as [|c a IH]; cbn; [reflexivity | rewrite IH; lia].
Qed.

Lemma countLF_free (cs : list ascii) : Forall notLF cs -> countLF cs = 0%nat.
Proof.
  induction 1 as [|c cs Hc _ IH]; cbn; [reflexivity|].
  destruct (Ascii.eqb_spec c LF); [contradiction | exact IH].
Qed.

Lemma scan_keeps_lines (r : regex) (f : minfo -> list ascii) :
  classesOk notLF r ->
  (forall m, Forall notLF (m_text m) -> Forall notLF (f m)) ->
  forall fuel bef rst,
    countLF (fst (scanFrom r (fun (_ : unit) m => (f m, tt)) fuel bef rst tt))
    = countLF rst.
Proof.
  intros Hok Hf. induction fuel as [|fuel IH]; intros bef rst;
    cbn [scanFrom]; [reflexivity|].
  destruct (matchAt r bef rst) as [st'|] eqn:E.
  - destruct (matchAt_extends notLF r bef rst st' Hok E)
      as (w & Hrst & Hbef & Hw & Htext).
    assert (Hout : countLF (f (infoOf bef st')) = 0%nat).
    { apply countLF_free, Hf. rewrite Htext. exact Hw. }
    destruct (length (rest st') <? length rst)%nat.
    + specialize (IH (before st') (rest st')).
      destruct (scanFrom r _ fuel (before st') (rest st') tt) as [more s2].
      cbn [fst] in *. rewrite countLF_app, Hout, IH.
      rewrite Hrst, countLF_app, (countLF_free w Hw). reflexivity.
    + destruct rst as [|c tl].
      * cbn [fst]. exact Hout.
      * specialize (IH (c :: bef) tl).
        destruct (scanFrom r _ fuel (c :: bef) tl tt) as [more s2].
        cbn [fst] in *. rewrite countLF_app, Hout. cbn [countLF]. now rewrite IH.
  - destruct rst as [|c tl]; [reflexivity|].
    specialize (IH (c :: bef) tl).
    destruct (scanFrom r _ fuel (c :: bef) tl tt) as [more s2].
    cbn [fst countLF] in *. now rewrite IH.
Qed.

Lemma replaceAll_keeps_lines (r : regex) (f : minfo -> list ascii) (text : string) :
  classesOk notLF r ->
  (forall m, Forall notLF (m_text m) -> Forall notLF (f m)) ->
  countLF (list_ascii_of_string (replaceAll r f text))
  = countLF (list_ascii_of_string text).
Proof.
  intros Hok Hf. unfold replaceAll, replaceWith.
  pose proof (scan_keeps_lines r f Hok Hf
                (S (length (list_ascii_of_string text))) []
                (list_ascii_of_string text)) as H.
  destruct (scanFrom r _ _ [] (list_ascii_of_string text) tt) as [out st].
  cbn [fst] in *. rewrite list_ascii_of_string_of_list_ascii. exact H.
Qed.

Lemma scan_chars (q : ascii -> Prop) (r : regex) (f : minfo -> list ascii) :
  (forall m, Forall q (m_text m) -> Forall q (f m)) ->
  forall fuel bef rst,
    Forall q bef -> Forall q rst ->
    Forall q (fst (scanFrom r (fun (_ : unit) m => (f m, tt)) fuel bef rst tt)).
Proof.
  intros Hf. induction fuel as [|fuel IH]; intros bef rst Hb Hr;
    cbn [scanFrom]; [exact Hr|].
  destruct (matchAt r bef rst) as [st'|] eqn:E.
  - destruct (matchAt_chars q r bef rst st' Hb Hr E) as [(H1 & H2 & _) Ht].
    pose proof (Hf _ Ht) as Hout.
    destruct (length (rest st') <? length rst)%nat.
    + specialize (IH (before st') (rest st') H1 H2).
      destruct (scanFrom r _ fuel (before st') (rest st') tt) as [more s2].
      cbn [fst] in *. apply Forall_app. split; assumption.
    + destruct rst as [|c tl]; [exact Hout|].
      inversion Hr; subst.
      specialize (IH (c :: bef) tl ltac:(auto) ltac:(auto)).
      destruct (scanFrom r _ fuel (c :: bef) tl tt) as [more s2].
      cbn [fst] in *. apply Forall_app. split; [exact Hout|].
      constructor; assumption.
  - destruct rst as [|c tl]; [constructor|].
    inversion Hr; subst.
    specialize (IH (c :: bef) tl ltac:(auto) ltac:(auto)).
    destruct (scanFrom r _ fuel (c :: bef) tl tt) as [more s2].
    cbn [fst] in *. constructor; assumption.
Qed.

Lemma replaceAll_chars (q : ascii -> Prop) (r : regex) (f : minfo -> list ascii)
    (text : string) :
  (forall m, Forall q (m_text m) -> Forall q (f m)) ->
  Forall q (list_ascii_of_string text) ->
  Forall q (list_ascii_of_string (replaceAll r f text)).
Proof.
  intros Hf Ht. unfold replaceAll, replaceWith.
  pose proof (scan_chars q r f Hf (S (length (list_ascii_of_string text))) []
                (list_ascii_of_string text) ltac:(constructor) Ht) as H.
  destruct (scanFrom r _ _ [] (list_ascii_of_string text) tt) as [out st].
  cbn [fst] in *. rewrite list_ascii_of_string_of_list_ascii. exact H.
Qed.

(** ** The anonymizer keeps the lines *)

Lemma lfFree_check (cs : list ascii) :
  forallb (fun c => negb (Ascii.eqb c LF)) cs = true -> Forall notLF cs.
Proof.
  intros H. apply Forall_forall. intros c Hc.
  rewrite forallb_forall in H. specialize (H c Hc).
  intros ->. rewrite Ascii.eqb_refl in H. discriminate.
Qed.

Ltac classes_exclude_LF :=
  cbn; repeat split; intros c H E; rewrite E in H; vm_compute in H;
  discriminate H.

Lemma emailRegex_classes : classesOk notLF emailRegex.
Proof. classes_exclude_LF. Qed.

Lemma urlRegex_classes : classesOk notLF urlRegex.
Proof. classes_exclude_LF. Qed.

Lemma ipRegex_classes : classesOk notLF ipRegex.
Proof. classes_exclude_LF. Qed.

Lemma hashRegex_classes : classesOk notLF hashRegex.
Proof. classes_exclude_LF. Qed.

Lemma emailPlaceholder_lines (str : list ascii) (m : minfo) :
  Forall notLF (emailPlaceholder str m).
Proof.
  unfold emailPlaceholder.
  destruct (_ || _); [|destruct (_ || _)]; apply lfFree_check; reflexivity.
Qed.

Lemma guardedPlaceholder_lines (placeholder : string) (str : list ascii)
    (m : minfo) :
  lfFree placeholder ->
  Forall notLF (m_text m) -> Forall notLF (guardedPlaceholder placeholder str m).
Proof.
  intros Hp Hm. unfold guardedPlaceholder.
  destruct (_ && _); [exact Hm|]. destruct (_ || _); [exact Hm | exact Hp].
Qed.

Lemma replaceIoc_guarded_lines (r : regex) (placeholder text : string) :
  classesOk notLF r -> lfFree placeholder ->
  countLF (list_ascii_of_string
             (replaceIoc r (guardedPlaceholder placeholder) text))
  = countLF (list_ascii_of_string text).
Proof.
  intros Hok Hp. unfold replaceIoc. apply replaceAll_keeps_lines; [exact Hok|].
  intros m. apply guardedPlaceholder_lines, Hp.
Qed.

Lemma lfFree_app (a b : string) : lfFree a -> lfFree b -> lfFree (a ++ b).
Proof.
  unfold lfFree. rewrite list_ascii_of_string_app. intros Ha Hb.
  apply Forall_app. split; assumption.
Qed.

Lemma lfFree_of_list (cs : list ascii) :
  Forall notLF cs -> lfFree (string_of_list_ascii cs).
Proof.
  unfold lfFree. now rewrite list_ascii_of_string_of_list_ascii.
Qed.

Lemma processLine_lines (line : string) : lfFree line -> lfFree (processLine line).
Proof.
  intros Hl. unfold processLine.
  destruct (isExpressionText line); [exact Hl|].
  destruct (exec mappingLineRegex line) as [m|] eqn:E.
  - destruct (isExpressionText _); [exact Hl|].
    unfold exec in E.
    pose proof (execFrom_chars notLF _ _ _ _ ltac:(constructor) Hl E) as Hc.
    repeat apply lfFree_app;
      try (apply lfFree_of_list, getCap_chars, Hc);
      apply lfFree_check; reflexivity.
  - apply replaceAll_chars; [|exact Hl].
    intros m Hm. destruct (isExpressionText _); [exact Hm|].
    apply lfFree_check. reflexivity.
Qed.

Lemma splitOn_length (cs : list ascii) : forall cur,
  length (splitOn LF cur cs) = S (countLF cs).
Proof.
  induction cs as [|c cs IH]; intros cur; cbn [splitOn countLF];
    [reflexivity|].
  destruct (Ascii.eqb c LF); cbn [length]; rewrite IH; reflexivity.
Qed.

Lemma splitOn_lines (cs : list ascii) : forall cur,
  Forall notLF cur -> Forall lfFree (splitOn LF cur cs).
Proof.
  induction cs as [|c cs IH]; intros cur Hcur; cbn [splitOn].
  - constructor; [|constructor]. apply lfFree_of_list, Forall_rev, Hcur.
  - destruct (Ascii.eqb_spec c LF) as [->|Hc].
    + constructor; [apply lfFree_of_list, Forall_rev, Hcur|].
      apply IH. constructor.
    + apply IH. constructor; assumption.
Qed.

Lemma joinWith_lines (xs : list string) :
  Forall lfFree xs ->
  countLF (list_ascii_of_string (joinWith nl xs)) = pred (length xs).
Proof.
  induction 1 as [|x xs Hx Hxs IH]; [reflexivity|].
  destruct xs as [|y xs].
  - cbn [joinWith length pred]. apply countLF_free, Hx.
  - change (joinWith nl (x :: y :: xs)) with (x ++ nl ++ joinWith nl (y :: xs)).
    rewrite !list_ascii_of_string_app, !countLF_app, IH.
    rewrite (countLF_free _ Hx). reflexivity.
Qed.

Lemma template_lines_of_text (instanceYaml : string) :
  trim instanceYaml <> "" ->
  length (lines (generateTemplateYaml (JStr instanceYaml)))
  = length (lines instanceYaml).
Proof.
  intros Hne. unfold generateTemplateYaml. cbn [truthy toStringJS].
  destruct (String.eqb_spec instanceYaml "") as [->|_];
    [exfalso; apply Hne; apply trim_empty|].
  destruct (String.eqb_spec (trim instanceYaml) ""); [contradiction|].
  cbn [negb]. unfold lines, split.
  set (t1 := replaceIoc emailRegex emailPlaceholder instanceYaml).
  set (t2 := replaceIoc urlRegex _ t1).
  set (t3 := replaceIoc ipRegex _ t2).
  set (t4 := replaceIoc hashRegex _ t3).
  assert (H4 : countLF (list_ascii_of_string t4)
               = countLF (list_ascii_of_string instanceYaml)).
  { unfold t4, t3, t2.
    rewrite !replaceIoc_guarded_lines;
      try (apply lfFree_check; reflexivity);
      auto using urlRegex_classes, ipRegex_classes, hashRegex_classes.
    unfold t1, replaceIoc.
    apply replaceAll_keeps_lines; [apply emailRegex_classes|].
    intros m _. apply emailPlaceholder_lines. }
  rewrite !splitOn_length, joinWith_lines.
  - rewrite length_map, splitOn_length, H4. reflexivity.
  - apply Forall_forall. intros x Hx. apply in_map_iff in Hx.
    destruct Hx as (l & <- & Hl). apply processLine_lines.
    pose proof (splitOn_lines (list_ascii_of_string t4) [] ltac:(constructor))
      as Hall.
    rewrite Forall_forall in Hall. apply Hall, Hl.
Qed.

Lemma dropWhile_keeps (c : ascii) (cs : list ascii) :
  isSpace c = false -> In c cs -> In c (dropWhile isSpace cs).
Proof.
  intros Hc. induction cs as [|d cs IH]; cbn; [auto|].
  intros [->|Hin].
  - rewrite Hc. now left.
  - destruct (isSpace d); [apply IH, Hin | now right].
Qed.

Lemma trim_not_blank (c : ascii) (s : string) :
  isSpace c = false -> trim (String c s) <> "".
Proof.
  intros Hc. unfold trim, trimList. cbn [list_ascii_of_string dropWhile].
  rewrite Hc.
  assert (Hin : In c (rev (dropWhile isSpace (rev (c :: list_ascii_of_string s))))).
  { apply in_rev. rewrite rev_involutive.
    apply dropWhile_keeps; [exact Hc|]. apply in_rev. rewrite rev_involutive.
    now left. }
  destruct (rev (dropWhile isSpace (rev (c :: list_ascii_of_string s))));
    [destruct Hin | discriminate].
Qed.

Lemma instance_starts_with_name (config : PlaybookConfig) :
  exists more, generateInstanceYaml config = String "n" more.
Proof.
  unfold generateInstanceYaml, yamlStructure. cbn [convertToYaml repeatStr].
  unfold stringValue.
  repeat match goal with
         | |- context [if ?b then _ else _] => destruct b
         end; cbn; eauto.
Qed.

(** X25.  The template has exactly as many lines as the instance it is
    made from, for every instance text that is not blank and so for the
    instance generated from any configuration: no replacement of the
    anonymizer adds, removes or joins lines. *)
Theorem template_keeps_lines :
  (forall instanceYaml,
     trim instanceYaml <> "" ->
     length (lines (generateTemplateYaml (JStr instanceYaml)))
     = length (lines instanceYaml))
  /\ (forall config,
        length (lines (generateTemplateYaml
                         (JStr (generateInstanceYaml config))))
        = length (lines (generateInstanceYaml config))).
Proof.
  split; [exact template_lines_of_text|].
  intros config. apply template_lines_of_text.
  destruct (instance_starts_with_name config) as [more ->].
  apply trim_not_blank. reflexivity.
Qed.

(** ** The outer wrapper *)

Lemma starLoop_S (r : regex) (k : mstate -> option mstate) (fuel : nat)
    (st : mstate) :
  starLoop r k (S fuel) st
  = match rmatch r
            (fun st' =>
               if (length (rest st') <? length (rest st))%nat
               then starLoop r k fuel st' else None) st with
    | Some x => Some x
    | None => k st
    end.
Proof. reflexivity. Qed.

Lemma rmatch_Star (r : regex) (k : mstate -> option mstate) (st : mstate) :
  rmatch (Star r) k st = starLoop r k (S (length (rest st))) st.
Proof. reflexivity. Qed.

(** A greedy star over a character class that accepts the whole rest of
    the text, followed by a continuation that needs exactly one more
    character: the star gives back the last character. *)
Lemma starLoop_gives_back_last (p : ascii -> bool)
    (k : mstate -> option mstate) (d : ascii) (res : mstate) :
  p d = true ->
  (forall st', rest st' = [] -> k st' = None) ->
  forall xs fuel bef cps,
    forallb p xs = true ->
    (length xs + 1 < fuel)%nat ->
    k {| before := (rev xs ++ bef)%list; rest := [d]; caps := cps |} = Some res ->
    starLoop (Chr p) k fuel
      {| before := bef; rest := (xs ++ [d])%list; caps := cps |} = Some res.
Proof.
  intros Hd Hend. induction xs as [|x xs IH]; intros fuel bef cps Hxs Hfuel Hk.
  - destruct fuel as [|fuel]; [lia|]. cbn [app rev] in *.
    rewrite starLoop_S, rmatch_Chr. cbn [rest before caps]. rewrite Hd.
    cbn [length]. change (0 <? 1)%nat with true. cbv iota.
    assert (Hnone : starLoop (Chr p) k fuel
                      {| before := d :: bef; rest := []; caps := cps |} = None).
    { destruct fuel as [|f].
      - apply Hend. reflexivity.
      - rewrite starLoop_S, rmatch_Chr. cbn [rest]. apply Hend. reflexivity. }
    rewrite Hnone. exact Hk.
  - destruct fuel as [|fuel]; [lia|]. cbn [forallb] in Hxs.
    apply andb_prop in Hxs. destruct Hxs as [Hx Hxs].
    cbn [app]. rewrite starLoop_S, rmatch_Chr. cbn [rest before caps].
    rewrite Hx.
    assert (Hlt : (length (xs ++ [d]) <? length (x :: xs ++ [d]))%nat = true).
    { apply Nat.ltb_lt. cbn [length]. lia. }
    rewrite Hlt.
    rewrite (IH fuel (x :: bef) cps Hxs); [reflexivity | cbn [length] in Hfuel; lia |].
    cbn [rev] in Hk. rewrite <- app_assoc in Hk. exact Hk.
Qed.

Lemma rmatch_Bol (k : mstate -> option mstate) (st : mstate) :
  rmatch Bol k st = match before st with [] => k st | _ :: _ => None end.
Proof. reflexivity. Qed.

Lemma rmatch_Eol (k : mstate -> option mstate) (st : mstate) :
  rmatch Eol k st = match rest st with [] => k st | _ :: _ => None end.
Proof. reflexivity. Qed.

Lemma wrapped_capture (c : ascii) (e : list ascii) :
  forallb isDot (c :: e) = true ->
  exists st',
    matchAt reWrapped []
      ("$"%char :: "{"%char :: (c :: e) ++ ["}"%char])%list = Some st'
    /\ getCap 1 (caps st') = c :: e.
Proof.
  intros Hdot. cbn [forallb] in Hdot. apply andb_prop in Hdot.
  destruct Hdot as [Hc He].
  unfold matchAt, reWrapped, Str, Plus.
  rewrite rmatch_Cat, rmatch_Bol. cbn [before].
  rewrite rmatch_Cat, rmatch_lit. cbn [rest before caps].
  change (list_ascii_of_string "${") with ["$"%char; "{"%char].
  cbn [isPrefixOf]. rewrite !Ascii.eqb_refl. cbn [andb length skipn rev app].
  rewrite rmatch_Cat, rmatch_Group, rmatch_Cat, rmatch_Chr.
  cbn [rest before caps]. rewrite Hc. rewrite rmatch_Star. cbn [rest].
  eexists. split.
  - apply starLoop_gives_back_last.
    + reflexivity.
    + intros st' Hr. rewrite rmatch_Cat, rmatch_lit. cbn [rest setCap].
      rewrite Hr. reflexivity.
    + exact He.
    + rewrite length_app. cbn [length]. lia.
    + rewrite rmatch_Cat, rmatch_lit.
      cbn [rest setCap before caps isPrefixOf list_ascii_of_string].
      rewrite Ascii.eqb_refl. cbn [andb skipn length].
      rewrite rmatch_Eol. cbn [rest]. reflexivity.
  - cbn [caps getCap Nat.eqb].
    apply (consumed_over (c :: e) ["{"%char; "$"%char]); [reflexivity|].
    cbn [before rev]. rewrite <- !app_assoc. reflexivity.
Qed.

Lemma stripWrapper_wrapped (e : string) :
  e <> "" ->
  forallb isDot (list_ascii_of_string e) = true ->
  stripWrapper ("${" ++ e ++ "}") = e.
Proof.
  intros Hne Hdot. destruct e as [|c e]; [congruence|].
  unfold stripWrapper, exec.
  rewrite !list_ascii_of_string_app.
  change (list_ascii_of_string "${") with ["$"%char; "{"%char].
  change (list_ascii_of_string "}") with ["}"%char].
  cbn [app list_ascii_of_string] in *.
  destruct (wrapped_capture c (list_ascii_of_string e) Hdot) as (st' & Hm & Hcap).
  cbn [app] in Hm. cbn [execFrom]. rewrite Hm. cbn [infoOf m_caps].
  rewrite Hcap. cbn [string_of_list_ascii].
  rewrite string_of_list_ascii_of_string. reflexivity.
Qed.

Lemma dropWhile_head {A : Type} (p : A -> bool) (x : A) (xs : list A) :
  p x = false -> dropWhile p (x :: xs) = x :: xs.
Proof. intros H. cbn. now rewrite H. Qed.

Lemma trimList_ends (a z : ascii) (mid : list ascii) :
  isSpace a = false -> isSpace z = false ->
  trimList (a :: mid ++ [z]) = (a :: mid ++ [z])%list.
Proof.
  intros Ha Hz. unfold trimList. rewrite dropWhile_head by exact Ha.
  change (a :: mid ++ [z])%list with ((a :: mid) ++ [z])%list.
  rewrite rev_app_distr.
  change (rev [z] ++ rev (a :: mid))%list with (z :: rev (a :: mid)).
  rewrite dropWhile_head by exact Hz.
  change (rev (z :: rev (a :: mid))) with (rev (rev (a :: mid)) ++ [z])%list.
  rewrite rev_involutive. reflexivity.
Qed.

Lemma trim_wrapped (e : string) : trim ("${" ++ e ++ "}") = "${" ++ e ++ "}".
Proof.
  unfold trim. rewrite !list_ascii_of_string_app.
  change (list_ascii_of_string "${") with ["$"%char; "{"%char].
  change (list_ascii_of_string "}") with ["}"%char].
  change (["$"%char; "{"%char] ++ list_ascii_of_string e ++ ["}"%char])%list
    with ("$"%char :: ("{"%char :: list_ascii_of_string e) ++ ["}"%char])%list.
  rewrite trimList_ends by reflexivity.
  change ("$"%char :: ("{"%char :: list_ascii_of_string e) ++ ["}"%char])%list
    with (list_ascii_of_string "${" ++ list_ascii_of_string e
            ++ list_ascii_of_string "}")%list.
  rewrite <- !list_ascii_of_string_app.
  apply string_of_list_ascii_of_string.
Qed.

Lemma numToString_nonempty (n : Z) : numToString n <> "".
Proof.
  intros H. pose proof (parseInt_number n) as Hp.
  unfold parseInt in Hp. cbn [toStringJS] in Hp. rewrite H in Hp.
  discriminate Hp.
Qed.

Lemma formatValue_nonempty (v : jsval) : formatValue v <> "".
Proof.
  destruct v as [| |b|n|s|xs|fs]; cbn [formatValue jsonText toStringJS];
    try discriminate.
  - destruct b; discriminate.
  - apply numToString_nonempty.
Qed.

Lemma substituteOne_output (steps cfg : jsval) (st st1 : SubstState)
    (m : minfo) (out : list ascii) :
  substituteOne steps cfg st m = (out, st1) ->
  failure st = None -> failure st1 = None -> out <> [].
Proof.
  unfold substituteOne. intros H Hst Hst1. rewrite Hst in H.
  destruct (resolvePath _ steps) as [v|].
  - inversion H; subst. pose proof (formatValue_nonempty v) as Hv.
    destruct (formatValue v); [congruence | discriminate].
  - destruct (enrichHint _ cfg); inversion H; subst; discriminate.
Qed.

Lemma scan_failure_sticks (steps cfg : jsval) (e : string) (fuel : nat) :
  forall bef rst st,
    failure st = Some e ->
    snd (scanFrom reVariable (substituteOne steps cfg) fuel bef rst st) = st.
Proof.
  induction fuel as [|fuel IH]; intros bef rst st Hf; cbn [scanFrom];
    [reflexivity|].
  destruct (matchAt reVariable bef rst) as [mst|].
  - rewrite (substituteOne_failed steps cfg st _ e Hf).
    destruct (length (rest mst) <? length rst)%nat.
    + specialize (IH (before mst) (rest mst) st Hf).
      destruct (scanFrom reVariable _ fuel (before mst) (rest mst) st).
      exact IH.
    + destruct rst as [|c tl]; [reflexivity|].
      specialize (IH (c :: bef) tl st Hf).
      destruct (scanFrom reVariable _ fuel (c :: bef) tl st). exact IH.
  - destruct rst as [|c tl]; [reflexivity|].
    specialize (IH (c :: bef) tl st Hf).
    destruct (scanFrom reVariable _ fuel (c :: bef) tl st). exact IH.
Qed.

Lemma scan_nonempty (steps cfg : jsval) (fuel : nat) (bef : list ascii)
    (c : ascii) (tl : list ascii) (st st' : SubstState) (out : list ascii) :
  failure st = None ->
  scanFrom reVariable (substituteOne steps cfg) (S fuel) bef (c :: tl) st
  = (out, st') ->
  failure st' = None -> out <> [].
Proof.
  intros Hinit H Hst. cbn [scanFrom] in H.
  destruct (matchAt reVariable bef (c :: tl)) as [mst|].
  - destruct (substituteOne steps cfg st (infoOf bef mst)) as [o1 s1] eqn:Hs.
    pose proof (substituteOne_output _ _ _ _ _ _ Hs Hinit) as Hout.
    destruct (length (rest mst) <? _)%nat.
    + pose proof (scan_failure_sticks steps cfg) as Hstick.
      destruct (scanFrom reVariable _ fuel (before mst) (rest mst) s1)
        as [more s2] eqn:E.
      inversion H; subst.
      assert (Hs1 : failure s1 = None).
      { destruct (failure s1) as [err|] eqn:F; [|reflexivity].
        specialize (Hstick err fuel (before mst) (rest mst) s1 F).
        rewrite E in Hstick. cbn in Hstick. congruence. }
      specialize (Hout Hs1). destruct o1; [congruence | discriminate].
    + destruct (scanFrom reVariable _ fuel (c :: bef) tl s1) as [more s2].
      inversion H; subst. destruct o1; discriminate.
  - destruct (scanFrom reVariable _ fuel (c :: bef) tl st) as [more s2].
    inversion H; subst. discriminate.
Qed.

Lemma substitute_nonempty (steps cfg : jsval) (text evaluated : string)
    (st : SubstState) :
  text <> "" ->
  substitute steps cfg text = (evaluated, st) ->
  failure st = None -> evaluated <> "".
Proof.
  intros Hne H Hst. unfold substitute, replaceWith in H.
  destruct text as [|c text]; [congruence|].
  cbn [list_ascii_of_string] in H.
  destruct (scanFrom reVariable _ _ [] (c :: list_ascii_of_string text) _)
    as [out st'] eqn:E.
  inversion H; subst.
  assert (Hout : out <> []).
  { eapply scan_nonempty; [|exact E | exact Hst]. reflexivity. }
  destruct out; [congruence | discriminate].
Qed.

Lemma wrapBareSteps_nonempty (e : string) : e <> "" -> wrapBareSteps e <> "".
Proof.
  intros Hne. unfold wrapBareSteps.
  destruct (hasBareSteps e) eqn:Hb; cbn [andb]; [|exact Hne].
  destruct (hasWrappedSteps e); cbn [negb]; [exact Hne|].
  pose proof (wrapBare_has_wrapped e Hb) as Hw. intros E. rewrite E in Hw.
  vm_compute in Hw. discriminate Hw.
Qed.

(** From the text of step 2 on, the expression itself is used only by the
    [catch] clause and only when the text is empty. *)
Lemma evaluateWrapped_expression (jsEval : string -> outcome jsval)
    (e1 e2 : jsval) (text : string) (steps cfg : jsval) :
  text <> "" ->
  evaluateWrapped jsEval e1 text steps cfg
  = evaluateWrapped jsEval e2 text steps cfg.
Proof.
  intros Hne. unfold evaluateWrapped.
  destruct (substitute steps cfg text) as [ev st] eqn:Hs.
  destruct (failure st) eqn:Hf.
  - rewrite !caught_nonempty by exact Hne. reflexivity.
  - pose proof (substitute_nonempty _ _ _ _ _ Hne Hs Hf) as Hev.
    destruct (matchAll reVariable ev);
      [|rewrite !caught_nonempty by exact Hev; reflexivity].
    destruct (matchAll reBareSteps ev);
      [|rewrite !caught_nonempty by exact Hev; reflexivity].
    destruct (jsEval ev); [reflexivity|].
    rewrite !caught_nonempty by exact Hev. reflexivity.
Qed.

(** X26.  The outer wrapper is optional: an expression without line
    breaks that is trimmed and not itself of the wrapped form evaluates to
    the same result, with the same [evaluated] text, lists and error
    message, whether it is written bare or inside one outer wrapper, for
    every step context, enrich configuration and evaluator. *)
Theorem wrapper_is_optional (jsEval : string -> outcome jsval) (e : string)
    (steps enrichConfig : jsval) :
  e <> "" ->
  forallb isDot (list_ascii_of_string e) = true ->
  trim e = e ->
  stripWrapper e = e ->
  evaluateExpressionUnified jsEval (JStr ("${" ++ e ++ "}")) steps enrichConfig
  = evaluateExpressionUnified jsEval (JStr e) steps enrichConfig.
Proof.
  intros Hne Hdot Htrim Hstrip. unfold evaluateExpressionUnified.
  destruct (String.eqb_spec e ""); [contradiction|].
  change (("${" ++ e ++ "}" =? "")%string) with false. cbv iota.
  rewrite trim_wrapped, (stripWrapper_wrapped e Hne Hdot), Htrim, Hstrip.
  apply evaluateWrapped_expression, wrapBareSteps_nonempty, Hne.
Qed.

Lemma wrapper_is_optional_witness :
  evaluateExpressionUnified (fun _ => Ok (JBool true))
    (JStr ("${" ++ "steps.vt_hash.max_score > 3 && steps.vt_url.any_malicious"
                ++ "}"))
    (JObj [("vt_hash", JObj [("max_score", JNum 7)])]) (JObj [])
  = evaluateExpressionUnified (fun _ => Ok (JBool true))
      (JStr "steps.vt_hash.max_score > 3 && steps.vt_url.any_malicious")
      (JObj [("vt_hash", JObj [("max_score", JNum 7)])]) (JObj []).
Proof.
  apply (wrapper_is_optional (fun _ => Ok (JBool true))
           "steps.vt_hash.max_score > 3 && steps.vt_url.any_malicious").
  - discriminate.
  - reflexivity.
  - vm_compute. reflexivity.
  - vm_compute. reflexivity.
Defined.
